(** * HeadBook: the sorting visualisation of [static/js/sorting-visualization.js]

    The page keeps one record per sort type ([sortStates]), fills each with
    a random array, and animates bubble, selection and insertion sort: every
    procedure mutates its array in place, calls [createBars] after a
    mutation and then awaits a timer before it goes on.

    The development has three parts:
    - the array generator and the three sort procedures as loops over an
      array, each returning the final array together with the [createBars]
      calls it made, in order;
    - the page as a transition system: a heap of array objects, the
      [sortStates] table, the pending timers (each holding a sort procedure
      suspended at an [await]) and the log of [createBars] calls;
    - the theorems: the rounding of a double product (from the IEEE 754
      specification of the primitive floats), the generator, the page ([resetArray], [currentStep],
      one run at a time), the renders of insertion and selection sort,
      sorted input, termination of bubble sort, sortedness, and the
      agreement of the suspended procedures with the loops; then what a run
      renders and how often, the page sort type by sort type (arrays in
      range, screen up to date, runs that end), [createBars] and the
      document it draws, and [initializeVisualizations].

    Conventions.  JavaScript numbers are IEEE 754 binary64 values.  Where
    the script computes with fractions (the product [Math.random() * 91],
    the heights and the width of the bars) the numbers are Rocq's primitive
    [float]s: binary64 values whose operations round to nearest, ties to
    even, as the JavaScript operators do.  The integers of the script (the
    constants, the array elements, the indices) stay far below [2^53],
    where double arithmetic on integers is exact; they are written in [Z]
    and [nat].  Array elements are integers ([Z]): every array of the
    page comes from [generateRandomArray].  [a !! i] is the JavaScript read
    [a[i]], with [None] for [undefined]; a comparison with [undefined] is
    false in JavaScript and is written so here.  [<[i:=x]> a] is the
    assignment [a[i] = x]; the procedures only assign below [array.length]
    (their loop bounds and guards ensure it), where the assignment is an
    update in place. *)

From Stdlib Require Import ZArith Lia Sorted Permutation Floats.
From stdpp Require Import base list sorting.

Local Open Scope Z_scope.
Local Open Scope nat_scope.

(** ** Configuration *)

Definition ARRAY_SIZE : nat := 20.
Definition MIN_VALUE : Z := 5.
Definition MAX_VALUE : Z := 95.

(** ** Sort types and render events *)

Inductive Variant := bubble | selection | insertion | quick | merge.

#[global] Instance Variant_eq_dec : EqDecision Variant.
Proof. solve_decision. Defined.

(** One call [createBars(type, array, highlights)]: the array is recorded as
    it is at the time of the call. *)
Record Render := mkRender {
  target : Variant;
  bars : list Z;
  highlights : list nat
}.

#[global] Instance Render_eq_dec : EqDecision Render.
Proof. solve_decision. Defined.

(** ** Array generator *)

(** The double nearest to an integer; an integer up to [2^53] in absolute
    value is a double, and [of_Z] is that double. *)
Definition of_Z (z : Z) : float :=
  SF2Prim (binary_normalize prec emax z 0 false).

(** [Math.floor] of a double with sign [s], mantissa [m] and exponent [e],
    that is of [(-1)^s * m * 2^e]: the shift rounds towards minus infinity.
    [None] is for NaN and the infinities, which [Math.floor] returns as
    they are and which are no integers. *)
Definition SFfloor (x : spec_float) : option Z :=
  match x with
  | S754_zero _ => Some 0%Z
  | S754_finite s m e => Some (Z.shiftl (cond_Zopp s (Zpos m)) e)
  | S754_infinity _ | S754_nan => None
  end.

Definition floor (x : float) : option Z := SFfloor (Prim2SF x).

(** [Math.floor(r * (hi - lo + 1)) + lo] for a value [r] of [Math.random()].
    The product is a double product.  [hi - lo + 1] and the final sum are
    sums of integers, exact in doubles as long as they stay below [2^53] in
    absolute value (the script has [lo = 5] and [hi = 95]).  [Math.random]
    returns a double that is at least 0 and below 1, and then the product
    is finite ([floor_mul_range]); the [0] for NaN and the infinities only
    makes the function total. *)
Definition randomInt (lo hi : Z) (r : float) : Z :=
  (default 0 (floor (r * of_Z (hi - lo + 1))) + lo)%Z.

(** [Array.from({ length: size }, f)] calls [f] once per index, in index
    order; [random] is the sequence of values [Math.random()] returns and
    [c] the number of calls made so far. *)
Fixpoint generateFrom (random : nat → float) (lo hi : Z) (size c : nat) : list Z :=
  match size with
  | 0 => []
  | S size' => randomInt lo hi (random c) :: generateFrom random lo hi size' (S c)
  end.

Definition generateRandomArrayWith (random : nat → float) (size : nat) (lo hi : Z)
    (c : nat) : list Z :=
  generateFrom random lo hi size c.

Definition generateRandomArray (random : nat → float) (c : nat) : list Z :=
  generateRandomArrayWith random ARRAY_SIZE MIN_VALUE MAX_VALUE c.

(** ** Order *)

(** A non-decreasing array. *)
Definition nondecreasing (a : list Z) : Prop :=
  ∀ i j x y, i ≤ j → a !! i = Some x → a !! j = Some y → (x ≤ y)%Z.

(** The number of pairs of positions that are out of order. *)
Fixpoint inversions (a : list Z) : nat :=
  match a with
  | [] => 0
  | x :: l => length (filter (λ y, (y < x)%Z) l) + inversions l
  end.

(** ** The sort procedures, run without interruption *)

(** [[array[i], array[j]] = [array[j], array[i]]]: the right-hand side is
    read first, then [array[i]] and [array[j]] are assigned in this order. *)
Definition swap (i j : nat) (a : list Z) : list Z :=
  match a !! i, a !! j with
  | Some x, Some y => <[j:=x]> (<[i:=y]> a)
  | _, _ => a
  end.

(** *** Bubble sort *)

(** [for (let i = ...; i < n - 1; i++)] of [bubbleSort], with [k] iterations
    left.  Returns the array, the renders and [swapped]. *)
Fixpoint bubble_for (k i : nat) (a : list Z) (swapped : bool)
    : list Z * list Render * bool :=
  match k with
  | 0 => (a, [], swapped)
  | S k' =>
      match a !! i, a !! (i + 1) with
      | Some x, Some y =>
          if (x >? y)%Z then
            let a' := swap i (i + 1) a in
            let '(r, fs, sw) := bubble_for k' (S i) a' true in
            (r, mkRender bubble a' [i; i + 1] :: fs, sw)
          else bubble_for k' (S i) a swapped
      | _, _ => bubble_for k' (S i) a swapped
      end
  end.

(** One turn of the [do] body: [swapped = false] and the whole [for]. *)
Definition bubble_pass (n : nat) (a : list Z) : list Z * list Render * bool :=
  bubble_for (n - 1) 0 a false.

(** [do { ... } while (swapped)]; [fuel] bounds the number of passes. *)
Fixpoint bubble_dowhile (fuel n : nat) (a : list Z) : option (list Z * list Render) :=
  match fuel with
  | 0 => None
  | S fuel' =>
      let '(a', fs, sw) := bubble_pass n a in
      if sw then
        match bubble_dowhile fuel' n a' with
        | Some (r, fs') => Some (r, fs ++ fs')
        | None => None
        end
      else Some (a', fs)
  end.

Definition bubbleSort (fuel : nat) (a : list Z) : option (list Z * list Render) :=
  bubble_dowhile fuel (length a) a.

(** The array after [q] passes. *)
Fixpoint bubble_after (q n : nat) (a : list Z) : list Z :=
  match q with
  | 0 => a
  | S q' => bubble_after q' n (bubble_pass n a).1.1
  end.

(** The number of swaps of the pass that follows [q] passes: each swap
    makes one render. *)
Definition bubble_swaps (q : nat) (a : list Z) : nat :=
  length (bubble_pass (length a) (bubble_after q (length a) a)).1.2.

(** *** Selection sort *)

(** [for (let j = ...; j < n; j++)] of [selectionSort], with [k] iterations
    left; returns [minIndex]. *)
Fixpoint selection_scan (k j : nat) (a : list Z) (minIndex : nat) : nat :=
  match k with
  | 0 => minIndex
  | S k' =>
      let m :=
        match a !! j, a !! minIndex with
        | Some x, Some y => if (x <? y)%Z then j else minIndex
        | _, _ => minIndex
        end in
      selection_scan k' (S j) a m
  end.

(** [minIndex] after the inner loop at position [i]. *)
Definition selection_minIndex (n i : nat) (a : list Z) : nat :=
  selection_scan (n - (i + 1)) (i + 1) a i.

(** The body of the outer loop at position [i]. *)
Definition selection_body (n i : nat) (a : list Z) : list Z * list Render :=
  let minIndex := selection_minIndex n i a in
  if decide (minIndex ≠ i) then
    let a' := swap i minIndex a in
    (a', [mkRender selection a' [i; minIndex]])
  else (a, []).

(** [for (let i = ...; i < n - 1; i++)], with [k] iterations left. *)
Fixpoint selection_for (k n i : nat) (a : list Z) : list Z * list Render :=
  match k with
  | 0 => (a, [])
  | S k' =>
      let '(a', fs) := selection_body n i a in
      let '(r, fs') := selection_for k' n (S i) a' in
      (r, fs ++ fs')
  end.

Definition selectionSort (a : list Z) : list Z * list Render :=
  selection_for (length a - 1) (length a) 0 a.


(** *** Insertion sort *)

(** [while (j >= 0 && array[j] > key)].  The JavaScript [j] runs down to
    [-1]; the argument here is [j + 1], which is also the result. *)
Fixpoint insertion_while (j1 : nat) (key : Z) (a : list Z)
    : nat * list Z * list Render :=
  match j1 with
  | 0 => (0, a, [])
  | S j =>
      match a !! j with
      | Some x =>
          if (x >? key)%Z then
            let a' := <[S j:=x]> a in
            let '(r1, r, fs) := insertion_while j key a' in
            (r1, r, mkRender insertion a' [j; S j] :: fs)
          else (S j, a, [])
      | None => (S j, a, [])
      end
  end.

(** [if (array[j + 1] !== key) { ... }], with [j1] for [j + 1]. *)
Definition insertion_settle (j1 : nat) (key : Z) (a : list Z)
    : list Z * list Render :=
  match a !! j1 with
  | Some y =>
      if negb (y =? key)%Z then
        let a' := <[j1:=key]> a in
        (a', [mkRender insertion a' [j1]])
      else (a, [])
  | None => (a, [])
  end.

(** The body of the outer loop at position [i]: [key = array[i]],
    [j = i - 1], the shifts, the settle step. *)
Definition insertion_body (i : nat) (a : list Z) : list Z * list Render :=
  match a !! i with
  | Some key =>
      let '(j1, a1, fs) := insertion_while i key a in
      let '(a2, fs') := insertion_settle j1 key a1 in
      (a2, fs ++ fs')
  | None => (a, [])
  end.

(** [for (let i = ...; i < n; i++)], with [k] iterations left. *)
Fixpoint insertion_for (k i : nat) (a : list Z) : list Z * list Render :=
  match k with
  | 0 => (a, [])
  | S k' =>
      let '(a', fs) := insertion_body i a in
      let '(r, fs') := insertion_for k' (S i) a' in
      (r, fs ++ fs')
  end.

Definition insertionSort (a : list Z) : list Z * list Render :=
  insertion_for (length a - 1) 1 a.

(** The procedure the page defines for a sort type, if any: the script
    declares state for five sort types and defines [bubbleSort],
    [selectionSort] and [insertionSort]; it has no procedure for [quick] and
    [merge].  [fuel] bounds the passes of bubble sort's [do]-[while]. *)
Definition runSort (v : Variant) (fuel : nat) (a : list Z)
    : option (list Z * list Render) :=
  match v with
  | bubble => bubbleSort fuel a
  | selection => Some (selectionSort a)
  | insertion => Some (insertionSort a)
  | quick | merge => None
  end.

(** [v] run on [a] completes with the array [out] and the renders [fs]. *)
Definition completes (v : Variant) (a out : list Z) (fs : list Render) : Prop :=
  ∃ fuel, runSort v fuel a = Some (out, fs).

(** The prefix of length [i] is in order and below everything after it:
    what selection sort has established when it reaches position [i]. *)
Definition selection_inv (i : nat) (a : list Z) : Prop :=
  ∀ p q x y, p < i → p ≤ q → a !! p = Some x → a !! q = Some y → (x ≤ y)%Z.

(** ** The page as a transition system *)

(** Arrays are objects: a sort procedure keeps the reference it read from
    [sortStates] when it started, and [resetArray] stores a new object.  The
    heap maps references to array contents; allocation appends. *)
Definition loc := nat.

Record SortState := mkSortState {
  array : loc;
  isSorting : bool;
  currentStep : Z
}.

(** The object literal [sortStates]. *)
Record SortStates := mkSortStates {
  st_bubble : SortState;
  st_selection : SortState;
  st_insertion : SortState;
  st_quick : SortState;
  st_merge : SortState
}.

Definition getState (v : Variant) (s : SortStates) : SortState :=
  match v with
  | bubble => st_bubble s
  | selection => st_selection s
  | insertion => st_insertion s
  | quick => st_quick s
  | merge => st_merge s
  end.

Definition setState (v : Variant) (x : SortState) (s : SortStates) : SortStates :=
  match v with
  | bubble => mkSortStates x (st_selection s) (st_insertion s) (st_quick s) (st_merge s)
  | selection => mkSortStates (st_bubble s) x (st_insertion s) (st_quick s) (st_merge s)
  | insertion => mkSortStates (st_bubble s) (st_selection s) x (st_quick s) (st_merge s)
  | quick => mkSortStates (st_bubble s) (st_selection s) (st_insertion s) x (st_merge s)
  | merge => mkSortStates (st_bubble s) (st_selection s) (st_insertion s) (st_quick s) x
  end.

(** A sort procedure suspended at one of its [await]s, with its locals. *)
Inductive Cont :=
  | BubbleAwait (a : loc) (n i : nat)
      (* bubbleSort, after the render of the swap at [i]; next: swapped = true *)
  | SelectionAwait (a : loc) (n i : nat)
      (* selectionSort, after the render of the swap at [i] *)
  | InsertionShiftAwait (a : loc) (n i : nat) (key : Z) (j : nat)
      (* insertionSort, after the render of the shift from [j]; next: j-- *)
  | InsertionSettleAwait (a : loc) (n i : nat).
      (* insertionSort, after the settle render of position [i] *)

(** Each procedure is bound to one entry of [sortStates], and so is the
    click handler that awaits it. *)
Definition owner (k : Cont) : Variant :=
  match k with
  | BubbleAwait _ _ _ => bubble
  | SelectionAwait _ _ _ => selection
  | InsertionShiftAwait _ _ _ _ _ | InsertionSettleAwait _ _ _ => insertion
  end.

Definition cont_array (k : Cont) : loc :=
  match k with
  | BubbleAwait a _ _ | SelectionAwait a _ _
  | InsertionShiftAwait a _ _ _ _ | InsertionSettleAwait a _ _ => a
  end.

Inductive Outcome :=
  | Suspended (k : Cont)
  | Returned.

(** What a procedure does from one [await] to the next: the array, the
    render (at most one) and where it stopped. *)
Definition Slice : Type := list Z * list Render * Outcome.

(** *** Bubble sort, to its next [await] *)

Inductive BubbleFor :=
  | BubbleSwapped (a' : list Z) (i : nat)
  | BubbleForEnd (swapped : bool).

Fixpoint bubble_for_until (k i : nat) (a : list Z) (swapped : bool) : BubbleFor :=
  match k with
  | 0 => BubbleForEnd swapped
  | S k' =>
      match a !! i, a !! (i + 1) with
      | Some x, Some y =>
          if (x >? y)%Z then BubbleSwapped (swap i (i + 1) a) i
          else bubble_for_until k' (S i) a swapped
      | _, _ => bubble_for_until k' (S i) a swapped
      end
  end.

Definition bubble_await (l : loc) (n : nat) (a' : list Z) (i : nat) : Slice :=
  (a', [mkRender bubble a' [i; i + 1]], Suspended (BubbleAwait l n i)).

(** The [for] loop from index [i], then [while (swapped)]: a pass that
    ends with [swapped] set is followed by a pass that starts with
    [swapped = false]; if that one reaches its end without a swap the loop
    exits. *)
Definition bubble_from (l : loc) (n i : nat) (swapped : bool) (a : list Z) : Slice :=
  match bubble_for_until (n - 1 - i) i a swapped with
  | BubbleSwapped a' i' => bubble_await l n a' i'
  | BubbleForEnd true =>
      match bubble_for_until (n - 1) 0 a false with
      | BubbleSwapped a' i' => bubble_await l n a' i'
      | BubbleForEnd _ => (a, [], Returned)
      end
  | BubbleForEnd false => (a, [], Returned)
  end.

(** *** Selection sort, to its next [await] *)

Fixpoint selection_from (k : nat) (l : loc) (n i : nat) (a : list Z) : Slice :=
  match k with
  | 0 => (a, [], Returned)
  | S k' =>
      let minIndex := selection_minIndex n i a in
      if decide (minIndex ≠ i) then
        let a' := swap i minIndex a in
        (a', [mkRender selection a' [i; minIndex]], Suspended (SelectionAwait l n i))
      else selection_from k' l n (S i) a
  end.

(** *** Insertion sort, to its next [await] *)

(** After the [while] loop has ended with [j + 1 = j1]: the settle step,
    or else [rest], the remaining iterations of the [for] loop. *)
Definition insertion_after_while (l : loc) (n i : nat) (key : Z) (j1 : nat)
    (a : list Z) (rest : list Z → Slice) : Slice :=
  match a !! j1 with
  | Some y =>
      if negb (y =? key)%Z then
        let a' := <[j1:=key]> a in
        (a', [mkRender insertion a' [j1]], Suspended (InsertionSettleAwait l n i))
      else rest a
  | None => rest a
  end.

(** The [while] loop entered with [j + 1 = j1]. *)
Definition insertion_while_from (l : loc) (n i : nat) (key : Z) (j1 : nat)
    (a : list Z) (rest : list Z → Slice) : Slice :=
  match j1 with
  | 0 => insertion_after_while l n i key 0 a rest
  | S j =>
      match a !! j with
      | Some x =>
          if (x >? key)%Z then
            let a' := <[S j:=x]> a in
            (a', [mkRender insertion a' [j; S j]],
             Suspended (InsertionShiftAwait l n i key j))
          else insertion_after_while l n i key (S j) a rest
      | None => insertion_after_while l n i key (S j) a rest
      end
  end.

(** The [for] loop from position [i], with [k] iterations left. *)
Fixpoint insertion_from (k : nat) (l : loc) (n i : nat) (a : list Z) : Slice :=
  match k with
  | 0 => (a, [], Returned)
  | S k' =>
      match a !! i with
      | Some key => insertion_while_from l n i key i a (insertion_from k' l n (S i))
      | None => insertion_from k' l n (S i) a
      end
  end.

(** *** Starting and resuming *)

(** The call of the procedure of [v] on the array object [l] with contents
    [a], up to its first [await]; [None] where the page has no procedure. *)
Definition start_sort (v : Variant) (l : loc) (a : list Z) : option Slice :=
  match v with
  | bubble => Some (bubble_from l (length a) 0 false a)
  | selection => Some (selection_from (length a - 1) l (length a) 0 a)
  | insertion => Some (insertion_from (length a - 1) l (length a) 1 a)
  | quick | merge => None
  end.

(** The timer of a suspended procedure fires. *)
Definition resume (k : Cont) (a : list Z) : Slice :=
  match k with
  | BubbleAwait l n i => bubble_from l n (S i) true a
  | SelectionAwait l n i => selection_from (n - 1 - S i) l n (S i) a
  | InsertionShiftAwait l n i key j =>
      insertion_while_from l n i key j a (insertion_from (n - S i) l n (S i))
  | InsertionSettleAwait l n i => insertion_from (n - S i) l n (S i) a
  end.

(** A procedure run from a slice to its return, its timers firing one
    after the other and nothing else writing to the array in between;
    [fuel] bounds the number of timers. *)
Fixpoint drive (fuel : nat) (sl : Slice) : option (list Z * list Render) :=
  match sl.2 with
  | Returned => Some (sl.1.1, sl.1.2)
  | Suspended k =>
      match fuel with
      | 0 => None
      | S fuel' =>
          match drive fuel' (resume k sl.1.1) with
          | Some (r, fs') => Some (r, sl.1.2 ++ fs')
          | None => None
          end
      end
  end.

(** The rest of a run of bubble sort from index [i] of a pass: the end of
    the pass, then the passes that follow. *)
Definition bubble_rest (fuel n i : nat) (a : list Z) (swapped : bool)
    : option (list Z * list Render) :=
  let '(a1, fs1, sw1) := bubble_for (n - 1 - i) i a swapped in
  if sw1 then
    match bubble_dowhile fuel n a1 with
    | Some (r, fs2) => Some (r, fs1 ++ fs2)
    | None => None
    end
  else Some (a1, fs1).

(** *** Page state and events *)

Record Page := mkPage {
  heap : list (list Z);
  sortStates : SortStates;
  timers : list Cont;       (* pending [setTimeout] callbacks, oldest first *)
  screen : list Render;     (* the calls of [createBars] so far, oldest first *)
  randomCalls : nat         (* calls of [Math.random] so far *)
}.

Definition setSorting (v : Variant) (b : bool) (s : SortStates) : SortStates :=
  let x := getState v s in
  setState v (mkSortState (array x) b (currentStep x)) s.

(** A slice of the procedure of [v] has run on the object [l]: its effects,
    then either a new timer or, on return, the rest of the click handler
    ([isSorting = false]), which runs before any other event. *)
Definition commit (v : Variant) (l : loc) (sl : Slice) (p : Page) : Page :=
  let '(a', fs, o) := sl in
  let h := <[l:=a']> (heap p) in
  match o with
  | Suspended k =>
      mkPage h (sortStates p) (timers p ++ [k]) (screen p ++ fs) (randomCalls p)
  | Returned =>
      mkPage h (setSorting v false (sortStates p)) (timers p) (screen p ++ fs)
        (randomCalls p)
  end.

Section Page.

(** The values returned by [Math.random], in call order. *)
Variable random : nat → float.

Definition resetArray (v : Variant) (p : Page) : Page :=
  if isSorting (getState v (sortStates p)) then p
  else
    let a := generateRandomArray random (randomCalls p) in
    let l := length (heap p) in
    mkPage (heap p ++ [a])
      (setState v (mkSortState l (isSorting (getState v (sortStates p))) 0)
         (sortStates p))
      (timers p)
      (screen p ++ [mkRender v a []])
      (randomCalls p + ARRAY_SIZE).

(** The listener of the start button of [v]. *)
Definition clickStart (v : Variant) (p : Page) : Page :=
  if isSorting (getState v (sortStates p)) then p
  else
    let l := array (getState v (sortStates p)) in
    match heap p !! l with
    | Some a =>
        match start_sort v l a with
        | Some sl =>
            commit v l sl
              (mkPage (heap p) (setSorting v true (sortStates p)) (timers p)
                 (screen p) (randomCalls p))
        | None => p                       (* no listener for this sort type *)
        end
    | None => p
    end.

(** The listener of the reset button of [v]. *)
Definition clickReset (v : Variant) (p : Page) : Page :=
  match v with
  | bubble | selection | insertion => resetArray v p
  | quick | merge => p                    (* no listener for this sort type *)
  end.

(** The [t]-th pending timer fires. *)
Definition timeout (t : nat) (p : Page) : Page :=
  match timers p !! t with
  | Some k =>
      match heap p !! cont_array k with
      | Some a =>
          commit (owner k) (cont_array k) (resume k a)
            (mkPage (heap p) (sortStates p) (delete t (timers p)) (screen p)
               (randomCalls p))
      | None => p
      end
  | None => p
  end.

(** The script as loaded: five entries with an empty array each. *)
Definition scriptLoaded : Page :=
  mkPage [[]; []; []; []; []]
    (mkSortStates (mkSortState 0 false 0) (mkSortState 1 false 0)
       (mkSortState 2 false 0) (mkSortState 3 false 0) (mkSortState 4 false 0))
    [] [] 0.

(** [Object.keys(sortStates).forEach(type => resetArray(type))]. *)
Definition initializeVisualizations (p : Page) : Page :=
  foldl (λ q v, resetArray v q) p [bubble; selection; insertion; quick; merge].

(** The page after [DOMContentLoaded]. *)
Definition pageLoaded : Page := initializeVisualizations scriptLoaded.

(** What can happen to the loaded page: a click on a start or a reset
    button, or a pending timer firing (any of them: no order among the
    timers is assumed). *)
Inductive Event :=
  | ClickStart (v : Variant)
  | ClickReset (v : Variant)
  | Timeout (t : nat).

Definition step (e : Event) (p : Page) : Page :=
  match e with
  | ClickStart v => clickStart v p
  | ClickReset v => clickReset v p
  | Timeout t => timeout t p
  end.

Inductive reachable : Page → Prop :=
  | reach_loaded : reachable pageLoaded
  | reach_step e p : reachable p → reachable (step e p).

(** The runs of [v] in progress: its suspended procedures. *)
Definition active (v : Variant) (p : Page) : list Cont :=
  filter (λ k, owner k = v) (timers p).

(** The contents of the array of [v]. *)
Definition arrayOf (v : Variant) (p : Page) : option (list Z) :=
  heap p !! array (getState v (sortStates p)).

End Page.

(** *** Invariants *)

(** A slice of insertion sort on the object [l] suspends, if at all, as
    insertion sort on [l]. *)
Definition insertion_owned (l : loc) (sl : Slice) : Prop :=
  ∀ k, sl.2 = Suspended k → owner k = insertion ∧ cont_array k = l.

(** The number of runs of [v] in progress agrees with its flag. *)
Definition flag_counts_runs (p : Page) : Prop :=
  ∀ v, length (active v p) =
       if isSorting (getState v (sortStates p)) then 1 else 0.

(** Every entry has an array object of its own, and a suspended procedure
    works on the array object its entry holds: no entry is given another
    array while its sort is running. *)
Definition runs_own_arrays (p : Page) : Prop :=
  (∀ v, array (getState v (sortStates p)) < length (heap p)) ∧
  (∀ v w, array (getState v (sortStates p)) = array (getState w (sortStates p)) →
          v = w) ∧
  Forall (λ k, cont_array k = array (getState (owner k) (sortStates p))) (timers p).

(** The oldest pending timer fires, [n] times. *)
Fixpoint fire (n : nat) (p : Page) : Page :=
  match n with
  | 0 => p
  | S n' => fire n' (timeout 0 p)
  end.

(** *** A sample page *)

(** A sequence for [Math.random]: 0, 0.7, 0.4, 0.1, 0.8, ... *)
Definition sampleRandom (k : nat) : float :=
  (of_Z (Z.of_nat (k * 7 mod 10)) / 10)%float.

(** The loaded page after a click on the start button of bubble sort: its
    array starts 5, 68, 41, ..., so the run is suspended after a swap. *)
Definition sampleBusy : Page :=
  step sampleRandom (ClickStart bubble) (pageLoaded sampleRandom).

(** A page whose insertion sort array is in order. *)
Definition sampleSorted : Page :=
  mkPage [[]; []; [1; 2; 2]%Z; []; []]
    (mkSortStates (mkSortState 0 false 0) (mkSortState 1 false 0)
       (mkSortState 2 false 0) (mkSortState 3 false 0) (mkSortState 4 false 0))
    [] [] 0.

(** ** Renders of a run *)

(** The last render of a run shows the array the run leaves; a run without
    a render leaves the array as it was. *)
Definition shows_result (a out : list Z) (fs : list Render) : Prop :=
  match last fs with
  | Some f => bars f = out
  | None => out = a
  end.

(** A render of the sort type [v] on an array of length [n]: it names [v],
    shows an array of that length and highlights one or two different
    positions of it. *)
Definition frame_ok (v : Variant) (n : nat) (f : Render) : Prop :=
  target f = v ∧ length (bars f) = n ∧
  Forall (λ i, i < n) (highlights f) ∧ NoDup (highlights f) ∧
  1 ≤ length (highlights f) ≤ 2.

(** ** Events, sort type by sort type *)

(** The sort type an event belongs to: the type of the button clicked, or
    of the procedure whose timer fires. *)
Definition event_variant (e : Event) (p : Page) : option Variant :=
  match e with
  | ClickStart v | ClickReset v => Some v
  | Timeout t => owner <$> timers p !! t
  end.

(** The render of [v] the screen shows: the last [createBars] call for [v]. *)
Definition shown (v : Variant) (p : Page) : option Render :=
  last (filter (λ f, target f = v) (screen p)).

(** The key a suspended procedure holds in a local, if it holds one. *)
Definition cont_key_ok (P : Z → Prop) (k : Cont) : Prop :=
  match k with
  | InsertionShiftAwait _ _ _ key _ => P key
  | _ => True
  end.

(** What every slice of a procedure of [v] does to the array [a] it finds:
    it keeps the length; it either changes nothing and renders nothing, or
    renders once, for [v], the array it leaves; it suspends only after a
    render; and it writes only values it has read from the array (so a
    property [P] of all elements is kept, also by the key it holds). *)
Definition slice_ok (P : Z → Prop) (v : Variant) (a : list Z) (sl : Slice) : Prop :=
  length sl.1.1 = length a ∧
  ((sl.1.2 = [] ∧ sl.1.1 = a ∧ sl.2 = Returned) ∨
   ∃ hl, sl.1.2 = [mkRender v sl.1.1 hl]) ∧
  (Forall P a → Forall P sl.1.1 ∧ ∀ k, sl.2 = Suspended k → cont_key_ok P k).

(** The same for a slice of insertion sort that starts inside a position,
    holding [key] in a local. *)
Definition slice_ok_holding (P : Z → Prop) (key : Z) (a : list Z) (sl : Slice) : Prop :=
  length sl.1.1 = length a ∧
  ((sl.1.2 = [] ∧ sl.1.1 = a ∧ sl.2 = Returned) ∨
   ∃ hl, sl.1.2 = [mkRender insertion sl.1.1 hl]) ∧
  (Forall P a → P key →
   Forall P sl.1.1 ∧ ∀ k, sl.2 = Suspended k → cont_key_ok P k).

(** The values the generator can return. *)
Definition in_range (x : Z) : Prop := (MIN_VALUE ≤ x ≤ MAX_VALUE)%Z.

(** *** More invariants *)

(** Every array object holds generator values only, and so does every
    suspended procedure. *)
Definition values_in_range (p : Page) : Prop :=
  (∀ l a, heap p !! l = Some a → Forall in_range a) ∧
  Forall (cont_key_ok in_range) (timers p).

(** Every entry has an array of the configured size. *)
Definition arrays_full (p : Page) : Prop :=
  ∀ v, ∃ a, arrayOf v p = Some a ∧ length a = ARRAY_SIZE.

(** The screen shows, for every sort type, the array the entry holds. *)
Definition screen_in_sync (p : Page) : Prop :=
  ∀ v, ∃ f, shown v p = Some f ∧ arrayOf v p = Some (bars f).

(** *** Timers still to come *)

(** [f] more timers bring the suspended procedure [k] to its return. *)
Definition returns_within (h : list (list Z)) (k : Cont) (f : nat) : Prop :=
  ∃ a r, h !! cont_array k = Some a ∧ drive f (resume k a) = Some r.

(** [m] bounds the timers still to come for the suspended procedures [ts]:
    the one pending for each and those each will set later. *)
Inductive budget (h : list (list Z)) : list Cont → nat → Prop :=
  | budget_nil : budget h [] 0
  | budget_cons k f ts m :
      returns_within h k f → budget h ts m → budget h (k :: ts) (S f + m).

(** ** Drawing *)

(** The two colours of a bar: ['#e74c3c'] for a highlighted index and
    ['#3498db'] for the others. *)
Inductive Color := highlighted | plain.

(** A bar as [createBars] styles it: height and width in percent (the
    doubles that the template strings print) and the background colour; the
    transition and the class name are the same for every bar. *)
Record Bar := mkBar {
  height : float;
  width : float;
  backgroundColor : Color
}.

(** [Math.max(...array, 1)]. *)
Definition maxHeight (a : list Z) : Z := foldr Z.max 1%Z a.

(** [(value / maxHeight) * 100]: a double quotient, then a double product. *)
Definition barHeight (value maxHeight : Z) : float :=
  (of_Z value / of_Z maxHeight * 100)%float.

(** The bars [array.forEach] appends, one per element; the width is
    [100 / array.length]. *)
Definition drawBars (a : list Z) (hl : list nat) : list Bar :=
  imap (λ index value,
          mkBar (barHeight value (maxHeight a))
                (100 / of_Z (Z.of_nat (length a)))%float
                (if decide (index ∈ hl) then highlighted else plain)) a.

(** The document: for every sort type the children of the element
    [type-sort-bars], or [None] when the document has no such element. *)
Definition Document : Type := Variant → option (list Bar).

Definition createBars (type : Variant) (a : list Z) (hl : list nat) (d : Document)
    : Document :=
  match d type with
  | None => d                                   (* if (!container) return *)
  | Some _ => λ t, if decide (t = type) then Some (drawBars a hl) else d t
  end.

(** The document after the [createBars] calls [fs], made in this order. *)
Definition paint (d : Document) (fs : list Render) : Document :=
  foldl (λ d' f, createBars (target f) (bars f) (highlights f) d') d fs.

(** The sort types that are not sorting, in the order of [sortStates]. *)
Definition idle (p : Page) : list Variant :=
  filter (λ v, isSorting (getState v (sortStates p)) = false)
    [bubble; selection; insertion; quick; merge].

(** ** Doubles *)

(** The state of the rounding of a double operation after [k + 1] right
    shifts ([shr_1]) of the mantissa [m]: the mantissa that is left, and
    the round and sticky bits, which tell where the bits shifted out lie
    between two neighbouring doubles. *)
Definition shr_inv (m : Z) (k : nat) (mrs : shr_record) : Prop :=
  ∃ t, (0 ≤ t < 2 ^ Z.of_nat k)%Z ∧ (0 ≤ shr_m mrs)%Z ∧
       (m = shr_m mrs * 2 ^ Z.of_nat (S k)
            + (if shr_r mrs then 2 ^ Z.of_nat k else 0) + t)%Z ∧
       (shr_s mrs = false ↔ t = 0%Z).

(** A value of [Math.random] for which the generator returns [x]: a
    multiple of [2^-10]. *)
Definition randomFor (x : Z) : float :=
  (of_Z ((x - MIN_VALUE) * 1024 / (MAX_VALUE - MIN_VALUE + 1) + 1) / 1024)%float.

(** [randomFor x] is in [[0, 1)] and the generator returns [x] for it. *)
Definition randomFor_ok (x : Z) : bool :=
  (0 <=? randomFor x)%float && (randomFor x <? 1)%float &&
  (randomInt MIN_VALUE MAX_VALUE (randomFor x) =? x)%Z.

(** The height of the bar of [value] is positive and at most 100, and is
    100 when [value] is the greatest value. *)
Definition barHeight_ok (value maxHeight : Z) : bool :=
  (0 <? barHeight value maxHeight)%float &&
  (barHeight value maxHeight <=? 100)%float &&
  (if (value =? maxHeight)%Z
   then PrimFloat.Leibniz.eqb (barHeight value maxHeight) 100 else true).

(** * Theorems *)

(** ** Doubles *)

Lemma fexp_eq (x : Z) : fexp prec emax x = Z.max (x - 53) (-1074).
Proof. reflexivity. Qed.

Section Doubles.

Local Open Scope Z_scope.

Lemma digits2_pos_bounds (m : positive) :
  2 ^ (Zpos (digits2_pos m) - 1) ≤ Zpos m < 2 ^ Zpos (digits2_pos m).
Proof.
  induction m as [m IH|m IH|]; simpl digits2_pos; [| |simpl; lia].
  all: rewrite Pos2Z.inj_succ;
    replace (Z.succ (Zpos (digits2_pos m)) - 1) with (Zpos (digits2_pos m)) by lia;
    rewrite Z.pow_succ_r by lia;
    assert (E : 2 ^ Zpos (digits2_pos m) = 2 * 2 ^ (Zpos (digits2_pos m) - 1))
      by (rewrite <- Z.pow_succ_r by lia; f_equal; lia);
    lia.
Qed.

Lemma digits2_pos_le (m : positive) (k : Z) :
  Zpos m < 2 ^ k → Zpos (digits2_pos m) ≤ k.
Proof.
  intros H. destruct (digits2_pos_bounds m) as [Hl _].
  destruct (Z_le_gt_dec (Zpos (digits2_pos m)) k) as [|Hgt]; [done|].
  assert (2 ^ k ≤ 2 ^ (Zpos (digits2_pos m) - 1)) by (apply Z.pow_le_mono_r; lia).
  lia.
Qed.

Lemma iter_pos_nat {A} (f : A → A) (p : positive) (x : A) :
  SpecFloat.iter_pos f p x = Nat.iter (Pos.to_nat p) f x.
Proof.
  revert x. induction p as [p IH|p IH|]; intros x; simpl SpecFloat.iter_pos.
  - rewrite !IH, Pos2Nat.inj_xI, <- Nat.iter_add, Nat.iter_succ_r.
    f_equal. lia.
  - rewrite !IH, Pos2Nat.inj_xO, <- Nat.iter_add. f_equal. lia.
  - done.
Qed.

Lemma shr_1_nonneg (q : Z) (r s : bool) :
  0 ≤ q →
  shr_1 (Build_shr_record q r s) = Build_shr_record (Z.div2 q) (Z.odd q) (r || s).
Proof. intros Hq. destruct q as [|[p|p|]|p]; try lia; reflexivity. Qed.

Lemma shr_iter (m : Z) (k : nat) :
  0 ≤ m → shr_inv m k (Nat.iter (S k) shr_1 (Build_shr_record m false false)).
Proof.
  intros Hm. induction k as [|k IH].
  - unfold Nat.iter; cbn [nat_rect]. rewrite shr_1_nonneg by done. exists 0. simpl.
    pose proof (Zdiv2_odd_eqn m) as E.
    assert (0 ≤ Z.div2 m) by (destruct m as [|[p|p|]|p]; simpl; lia).
    change (2 ^ Z.of_nat 1) with 2. change (2 ^ Z.of_nat 0) with 1.
    repeat split; destruct (Z.odd m); lia.
  - destruct IH as (t & Ht & Hq & E & Hs).
    rewrite Nat.iter_succ.
    destruct (Nat.iter (S k) shr_1 _) as [q r s].
    cbn [shr_m shr_r shr_s] in Hq, E, Hs.
    rewrite shr_1_nonneg by done. unfold shr_inv. cbn [shr_m shr_r shr_s].
    pose proof (Zdiv2_odd_eqn q) as Eq.
    assert (0 ≤ Z.div2 q) by (destruct q as [|[p|p|]|p]; simpl; lia).
    assert (E1 : 2 ^ Z.of_nat (S k) = 2 * 2 ^ Z.of_nat k)
      by (rewrite Nat2Z.inj_succ, Z.pow_succ_r; lia).
    assert (E2 : 2 ^ Z.of_nat (S (S k)) = 2 * 2 ^ Z.of_nat (S k))
      by (rewrite (Nat2Z.inj_succ (S k)), Z.pow_succ_r; lia).
    assert (0 < 2 ^ Z.of_nat k) by (apply Z.pow_pos_nonneg; lia).
    exists ((if r then 2 ^ Z.of_nat k else 0) + t).
    repeat split.
    + destruct r; lia.
    + destruct r; lia.
    + done.
    + rewrite E2, E1. rewrite E1 in E. destruct (Z.odd q); nia.
    + intros Hrs. destruct r, s; simpl in Hrs; try done. destruct Hs as [Hs _]. lia.
    + intros Ht0. destruct r; [lia|]. destruct Hs as [_ Hs]. simpl. apply Hs. lia.
Qed.

Lemma round_nearest_even_bounds (m : Z) (k : nat) (mrs : shr_record) :
  shr_inv m k mrs →
  let R := round_nearest_even (shr_m mrs) (loc_of_shr_record mrs) in
  0 ≤ R ≤ m ∧ R * 2 ^ Z.of_nat (S k) ≤ m + 2 ^ Z.of_nat k.
Proof.
  intros (t & Ht & Hq & E & Hs). destruct mrs as [q r s]. simpl in *.
  assert (E1 : 2 ^ Z.of_nat (S k) = 2 * 2 ^ Z.of_nat k)
    by (rewrite Nat2Z.inj_succ, Z.pow_succ_r; lia).
  assert (0 < 2 ^ Z.of_nat k) by (apply Z.pow_pos_nonneg; lia).
  rewrite E1 in *.
  destruct r, s; simpl; try destruct (Z.even q); nia.
Qed.

Lemma shr_exact_pos (m e : Z) (p : positive) :
  0 ≤ m →
  ∃ mrs, shr (Build_shr_record m false false) e (Zpos p) = (mrs, e + Zpos p) ∧
         0 ≤ shr_m mrs ∧ shr_m mrs * 2 ^ Zpos p ≤ m ∧
         let R := round_nearest_even (shr_m mrs) (loc_of_shr_record mrs) in
         0 ≤ R ≤ m ∧ R * 2 ^ Zpos p ≤ m + 2 ^ (Zpos p - 1).
Proof.
  intros Hm. unfold shr. rewrite iter_pos_nat.
  destruct (Pos2Nat.is_succ p) as [k Hk]. rewrite Hk.
  pose proof (shr_iter m k Hm) as Hinv.
  pose proof (round_nearest_even_bounds m k _ Hinv) as HR.
  assert (Ep : Zpos p = Z.of_nat (S k)) by lia.
  assert (Ek : Zpos p - 1 = Z.of_nat k) by lia.
  eexists. split; [done|]. rewrite Ep at 1 2. rewrite Ek.
  destruct Hinv as (t & Ht & Hq & E & Hs).
  split; [done|]. split; [|exact HR].
  assert (0 ≤ 2 ^ Z.of_nat k) by (apply Z.pow_nonneg; lia).
  destruct (shr_r _); lia.
Qed.

Lemma shr_fexp_trunc (R e : Z) :
  0 ≤ R →
  ∃ mrs ef, shr_fexp prec emax R e loc_Exact = (mrs, ef) ∧
            0 ≤ shr_m mrs ∧ e ≤ ef ∧ shr_m mrs * 2 ^ (ef - e) ≤ R ∧
            ef = Z.max e (fexp prec emax (Zdigits2 R + e)).
Proof.
  intros HR. unfold shr_fexp. cbn [shr_record_of_loc].
  destruct (fexp prec emax (Zdigits2 R + e) - e) as [|p|p] eqn:En.
  - eexists _, _. split; [done|]. cbn [shr_m]. rewrite Z.sub_diag. simpl. lia.
  - destruct (shr_exact_pos R e p HR) as (mrs & -> & Hq & Hle & _).
    eexists _, _. split; [done|].
    replace (e + Zpos p - e) with (Zpos p) by lia. lia.
  - eexists _, _. split; [done|]. cbn [shr_m]. rewrite Z.sub_diag. simpl. lia.
Qed.

Lemma shiftl_below (mf ef e0 w : Z) :
  0 ≤ mf → e0 ≤ 0 → e0 ≤ ef →
  mf * 2 ^ (ef - e0) < w * 2 ^ (- e0) →
  0 ≤ Z.shiftl mf ef < w.
Proof.
  intros Hm H0 He Hlt.
  destruct (Z_le_gt_dec 0 ef) as [Hef|Hef].
  - rewrite Z.shiftl_mul_pow2 by done.
    replace (ef - e0) with (ef + - e0) in Hlt by lia.
    rewrite Z.pow_add_r in Hlt by lia.
    assert (0 < 2 ^ (- e0)) by (apply Z.pow_pos_nonneg; lia).
    assert (0 < 2 ^ ef) by (apply Z.pow_pos_nonneg; lia).
    nia.
  - rewrite Z.shiftl_div_pow2 by lia.
    replace (- e0) with ((ef - e0) + - ef) in Hlt by lia.
    rewrite Z.pow_add_r in Hlt by lia.
    assert (0 < 2 ^ (ef - e0)) by (apply Z.pow_pos_nonneg; lia).
    assert (0 < 2 ^ (- ef)) by (apply Z.pow_pos_nonneg; lia).
    split.
    + apply Z.div_pos; lia.
    + apply Z.div_lt_upper_bound; [lia|]. nia.
Qed.

Lemma Zdigits2_le (R k : Z) : 0 ≤ k → 0 ≤ R < 2 ^ k → Zdigits2 R ≤ k.
Proof.
  intros Hk [H0 H]. destruct R as [|m|m]; simpl; [lia| |lia].
  by apply digits2_pos_le.
Qed.

(** The product of two mantissas, rounded: its integer part is below [w]
    when the exact product, and the exact product plus half a unit of the
    last place kept, are. *)
Lemma binary_round_aux_floor (P : positive) (E w : Z) :
  let d := Zpos (digits2_pos P) in
  let n := fexp prec emax (d + E) - E in
  E ≤ 0 → d ≤ 106 → d + E ≤ 53 →
  (n ≤ 0 → Zpos P < w * 2 ^ (- E)) →
  (0 < n → Zpos P + 2 ^ (n - 1) < w * 2 ^ (- E)) →
  ∃ z, SFfloor (binary_round_aux prec emax false (Zpos P) E loc_Exact) = Some z ∧
       0 ≤ z < w.
Proof.
  intros d n HE Hd HdE Hexact Hround.
  assert (H2E : 0 < 2 ^ (- E)) by (apply Z.pow_pos_nonneg; lia).
  destruct (digits2_pos_bounds P) as [_ HPd]. fold d in HPd.
  unfold binary_round_aux.
  assert (Hfirst : ∃ R e', 
    (let '(mrs', e') := shr_fexp prec emax (Zpos P) E loc_Exact in
     (round_nearest_even (shr_m mrs') (loc_of_shr_record mrs'), e')) = (R, e') ∧
    0 ≤ R ≤ Zpos P ∧ E ≤ e' ≤ 0 ∧ R * 2 ^ (e' - E) < w * 2 ^ (- E)).
  { unfold shr_fexp. cbn [shr_record_of_loc Zdigits2]. fold d. fold n.
    assert (Hn : n = Z.max (d + E - 53) (-1074) - E) by (unfold n; by rewrite fexp_eq).
    destruct n as [|p|p] eqn:En.
    - eexists _, _. split; [done|]. cbn. rewrite Z.sub_diag. simpl. lia.
    - destruct (shr_exact_pos (Zpos P) E p) as (mrs & -> & Hq & Hle & HR & HR2); [lia|].
      eexists _, _. split; [done|].
      replace (E + Zpos p - E) with (Zpos p) by lia.
      split; [done|]. split; [lia|]. lia.
    - eexists _, _. split; [done|]. cbn. rewrite Z.sub_diag. simpl. lia. }
  destruct Hfirst as (R & e' & Hfst & HR & He' & Hlt).
  destruct (shr_fexp prec emax (Zpos P) E loc_Exact) as [mrs' e1].
  injection Hfst as -> ->.
  destruct (shr_fexp_trunc R e' (proj1 HR)) as (mrs & ef & -> & Hm & Hef & Hle & Eef).
  assert (Hdig : Zdigits2 R ≤ d) by (apply Zdigits2_le; lia).
  rewrite fexp_eq in Eef.
  assert (Hfinal : 0 ≤ Z.shiftl (shr_m mrs) ef < w).
  { apply (shiftl_below _ _ E); [done|done|lia|].
    replace (ef - E) with ((ef - e') + (e' - E)) by lia.
    rewrite Z.pow_add_r by lia.
    assert (0 < 2 ^ (e' - E)) by (apply Z.pow_pos_nonneg; lia).
    eapply Z.le_lt_trans; [|exact Hlt]. nia. }
  destruct (shr_m mrs) as [|mf|mf] eqn:Emf.
  - exists 0. split; [done|]. rewrite Z.shiftl_0_l in Hfinal. lia.
  - replace (ef <=? emax - prec) with true by (symmetry; apply Z.leb_le; change (emax - prec) with 971; lia).
    eexists. split; [done|]. done.
  - lia.
Qed.

Lemma Prim2SF_zero : Prim2SF 0%float = S754_zero false.
Proof. reflexivity. Qed.

Lemma Prim2SF_one : Prim2SF 1%float = S754_finite false 4503599627370496 (-52).
Proof. reflexivity. Qed.

Lemma valid_finite (x : float) (s : bool) (m : positive) (e : Z) :
  Prim2SF x = S754_finite s m e →
  (Zpos m < 2 ^ 53 ∧ -1074 ≤ e ≤ 971 ∧ (e = -1074 ∨ 2 ^ 52 ≤ Zpos m))%Z.
Proof.
  intros Hx. pose proof (Prim2SF_valid x) as Hv. rewrite Hx in Hv.
  unfold SpecFloat.valid_binary, bounded, canonical_mantissa in Hv.
  apply andb_prop in Hv as [Hc Hb].
  apply Z.eqb_eq in Hc. apply Z.leb_le in Hb. rewrite fexp_eq in Hc.
  change (emax - prec) with 971 in Hb.
  destruct (digits2_pos_bounds m) as [Hl Hu].
  assert (Hd : (Zpos (digits2_pos m) ≤ 53)%Z) by lia.
  assert ((2 ^ Zpos (digits2_pos m) ≤ 2 ^ 53)%Z) by (apply Z.pow_le_mono_r; lia).
  split; [lia|]. split; [lia|].
  destruct (Z.eq_dec e (-1074)) as [|Hne]; [by left|right].
  assert (Zpos (digits2_pos m) = 53) as Hd53 by lia.
  rewrite Hd53 in Hl. exact Hl.
Qed.

(** A double that is at least [0] and below [1]: a zero, or a positive
    mantissa below [2^53] with an exponent of at most [-53]. *)
Lemma unit_float (r : float) :
  (0 <=? r)%float = true → (r <? 1)%float = true →
  (∃ s, Prim2SF r = S754_zero s) ∨
  (∃ mx ex, Prim2SF r = S754_finite false mx ex ∧
            (Zpos mx < 2 ^ 53 ∧ -1074 ≤ ex ≤ -53)).
Proof.
  rewrite leb_spec, ltb_spec, Prim2SF_zero, Prim2SF_one.
  intros H0 H1.
  destruct (Prim2SF r) as [s|s| |s mx ex] eqn:Hr.
  - left. by exists s.
  - destruct s; discriminate.
  - discriminate.
  - right. destruct s; [discriminate|].
    exists mx, ex. split; [done|].
    destruct (valid_finite r false mx ex Hr) as (Hm & He & Hn).
    split; [done|]. split; [lia|].
    unfold SFltb, SFcompare in H1.
    destruct (Z.compare_spec ex (-52)) as [->|Hlt|Hgt]; [| lia | discriminate].
    destruct Hn as [|Hn]; [lia|].
    rewrite Pos.compare_cont_spec in H1. simpl in H1.
    destruct (Pos.compare_spec mx 4503599627370496) as [|Hmx|]; try discriminate.
    change (2 ^ 52) with (Zpos 4503599627370496) in Hn. apply Pos2Z.pos_lt_pos in Hmx. lia.
Qed.

(** The double product of a double in [[0, 1)] with a double that holds
    the integer [w]: its integer part is between [0] and [w - 1]. *)
Lemma mul_floor_below (r y : float) (w : Z) (my : positive) (ey : Z) :
  (0 <=? r)%float = true → (r <? 1)%float = true →
  Prim2SF y = S754_finite false my ey → (ey ≤ 0) →
  (Zpos my = w * 2 ^ (- ey))%Z →
  ∃ z, floor (r * y)%float = Some z ∧ (0 ≤ z < w).
Proof.
  intros H0 H1 Hy Hey Hw.
  assert (Hey2 : (0 < 2 ^ (- ey))%Z) by (apply Z.pow_pos_nonneg; lia).
  assert (Hwpos : (0 < w)) by nia.
  unfold floor. rewrite mul_spec, Hy. unfold SF64mul, SFmul.
  destruct (unit_float r H0 H1) as [[s ->]|(mx & ex & -> & Hmx & Hex)].
  { exists 0. split; [done|lia]. }
  destruct (valid_finite y false my ey Hy) as (Hmy & _ & _).
  assert (Hex2 : (2 ^ 53 ≤ 2 ^ (- ex))%Z) by (apply Z.pow_le_mono_r; lia).
  assert (HE : (2 ^ (- (ex + ey)) = 2 ^ (- ex) * 2 ^ (- ey))%Z)
    by (rewrite <- Z.pow_add_r by lia; f_equal; lia).
  destruct (digits2_pos_bounds (mx * my)) as [Hdl Hdu].
  rewrite Pos2Z.inj_mul in Hdl, Hdu.
  assert (Hd : (Zpos (digits2_pos (mx * my)) ≤ 106)%Z).
  { apply digits2_pos_le. rewrite Pos2Z.inj_mul.
    change (2 ^ 106) with (2 ^ 53 * 2 ^ 53). nia. }
  apply binary_round_aux_floor; try lia.
  - intros _. rewrite Pos2Z.inj_mul, HE, Hw. nia.
  - rewrite fexp_eq. intros Hn.
    set (d := Zpos (digits2_pos (mx * my))) in *.
    assert (Hhalf : (2 ^ (Z.max (d + (ex + ey) - 53) (-1074) - (ex + ey) - 1) < Zpos my)%Z).
    { destruct (Z.max_spec (d + (ex + ey) - 53) (-1074)) as [[Hc Hm]|[Hc Hm]];
        rewrite Hm in Hn |- *.
      - assert ((2 ^ (-1074 - (ex + ey) - 1) < 2 ^ (- ey))%Z)
          by (apply Z.pow_lt_mono_r; lia).
        nia.
      - replace (d + (ex + ey) - 53 - (ex + ey) - 1)%Z with (d - 54) by lia.
        assert (0 ≤ d - 54) by lia.
        assert ((2 ^ (d - 1) = 2 ^ (d - 54) * 2 ^ 53)%Z)
          by (rewrite <- Z.pow_add_r by lia; f_equal; lia).
        nia. }
    rewrite Pos2Z.inj_mul, HE, Hw. rewrite Hw in Hhalf. nia.
Qed.


Lemma iter_xO (p d : positive) :
  Zpos (Pos.iter xO p d) = Zpos p * 2 ^ Zpos d ∧
  Zpos (digits2_pos (Pos.iter xO p d)) = Zpos (digits2_pos p) + Zpos d.
Proof.
  induction d as [|d [IH1 IH2]] using Pos.peano_ind.
  - simpl. lia.
  - rewrite Pos.iter_succ. simpl digits2_pos.
    rewrite Pos2Z.inj_xO, IH1, !Pos2Z.inj_succ, IH2, Z.pow_succ_r by lia. lia.
Qed.

Lemma binary_round_aux_canonical (m : positive) (e : Z) :
  Zpos (digits2_pos m) = 53 → -1074 ≤ e ≤ 971 →
  binary_round_aux prec emax false (Zpos m) e loc_Exact = S754_finite false m e.
Proof.
  intros Hd He.
  assert (Hs : shr_fexp prec emax (Zpos m) e loc_Exact
               = (Build_shr_record (Zpos m) false false, e)).
  { unfold shr_fexp. cbn [Zdigits2 shr_record_of_loc]. rewrite Hd, fexp_eq.
    replace (Z.max (53 + e - 53) (-1074) - e) with 0 by lia. done. }
  unfold binary_round_aux. rewrite Hs. cbn [shr_m loc_of_shr_record round_nearest_even].
  rewrite Hs. cbn [shr_m].
  replace (e <=? emax - prec) with true; [done|].
  symmetry. apply Z.leb_le. change (emax - prec) with 971. lia.
Qed.

(** An integer from [1] to [2^53 - 1] is a double: [of_Z] is exact on it. *)
Lemma of_Z_exact (w : Z) :
  1 ≤ w < 2 ^ 53 →
  ∃ my ey, Prim2SF (of_Z w) = S754_finite false my ey ∧ ey ≤ 0 ∧
           Zpos my = w * 2 ^ (- ey).
Proof.
  intros [H1 H53]. destruct w as [|p|p]; try lia.
  assert (Hd : Zpos (digits2_pos p) ≤ 53) by by apply digits2_pos_le.
  assert (Hnorm : ∃ my ey, binary_normalize prec emax (Zpos p) 0 false
                           = S754_finite false my ey ∧
                           Zpos (digits2_pos my) = 53 ∧ -52 ≤ ey ≤ 0 ∧
                           Zpos my = Zpos p * 2 ^ (- ey)).
  { unfold binary_normalize, binary_round, shl_align. rewrite fexp_eq.
    rewrite Z.max_l by lia.
    destruct (Zpos (digits2_pos p) + 0 - 53 - 0) as [|d|d] eqn:Ed; try lia.
    - exists p, 0. rewrite binary_round_aux_canonical by lia.
      split; [done|]. split; [lia|]. split; [lia|]. simpl. lia.
    - destruct (iter_xO p d) as [Hv Hdig].
      exists (Pos.iter xO p d), (Zpos (digits2_pos p) + 0 - 53).
      rewrite binary_round_aux_canonical by lia.
      split; [done|]. split; [lia|]. split; [lia|].
      rewrite Hv. f_equal. f_equal. lia. }
  destruct Hnorm as (my & ey & Hn & Hdig & Hey & Hv).
  exists my, ey. unfold of_Z. rewrite Hn.
  rewrite Prim2SF_SF2Prim; [split; [done|]; split; [lia|done]|].
  unfold SpecFloat.valid_binary, bounded, canonical_mantissa.
  rewrite Hdig, fexp_eq. apply andb_true_intro. split.
  - apply Z.eqb_eq. lia.
  - apply Z.leb_le. change (emax - prec) with 971. lia.
Qed.

(** [Math.floor(r * w)] for a double [r] in [[0, 1)] and an integer [w] from
    [1] to [2^53 - 1] is an integer from [0] to [w - 1]. *)
Lemma floor_mul_range (r : float) (w : Z) :
  (0 <=? r)%float = true → (r <? 1)%float = true → 1 ≤ w < 2 ^ 53 →
  ∃ z, floor (r * of_Z w)%float = Some z ∧ 0 ≤ z < w.
Proof.
  intros H0 H1 Hw.
  destruct (of_Z_exact w Hw) as (my & ey & Hy & Hey & Hv).
  by apply (mul_floor_below r (of_Z w) w my ey).
Qed.

End Doubles.

(** ** The generator *)

Lemma randomInt_range (lo hi : Z) (r : float) :
  (lo ≤ hi)%Z → (hi - lo + 1 < 2 ^ 53)%Z →
  (0 <=? r)%float = true → (r <? 1)%float = true →
  (lo ≤ randomInt lo hi r ≤ hi)%Z.
Proof.
  intros Hlh Hw H0 H1. unfold randomInt.
  destruct (floor_mul_range r (hi - lo + 1) H0 H1) as (z & -> & Hz); [lia|].
  simpl. lia.
Qed.

Lemma generateFrom_length random lo hi size c :
  length (generateFrom random lo hi size c) = size.
Proof. revert c. induction size as [|size IH]; intros c; simpl; [done|]. by rewrite IH. Qed.

Lemma generateFrom_range random lo hi size c :
  (lo ≤ hi)%Z → (hi - lo + 1 < 2 ^ 53)%Z →
  (∀ k, (0 <=? random k)%float = true ∧ (random k <? 1)%float = true) →
  Forall (λ x, (lo ≤ x ≤ hi)%Z) (generateFrom random lo hi size c).
Proof.
  intros Hlh Hw Hr. revert c. induction size as [|size IH]; intros c; simpl.
  - constructor.
  - constructor; [|apply IH]. destruct (Hr c). by apply randomInt_range.
Qed.

(** The double product need not have the integer part of the exact
    product: for [r = 0x1.e97e97e97e97ep-1], that is
    [8611278408378750 * 2^-53], the exact product [r * 91] is below 87,
    the double product is 87, and the generator returns 92. *)
Example randomInt_rounds :
  Prim2SF 0x1.e97e97e97e97ep-1 = S754_finite false 8611278408378750 (-53) ∧
  (8611278408378750 * 91 < 87 * 2 ^ 53)%Z ∧
  (0x1.e97e97e97e97ep-1 * of_Z 91)%float = 87%float ∧
  randomInt 5 95 0x1.e97e97e97e97ep-1 = 92%Z.
Proof. repeat split; vm_compute; reflexivity. Qed.

(** C7. A generated array has exactly the configured length and every
    element lies in the configured range, bounds included, for bounds that
    are integers of JavaScript (below [2^53] in absolute value, and so is
    the size of the range); with the constants of the script that is
    length 20 and range 5..95; and with size 0 the generator returns the
    empty array.  [Math.random] returns a double that is at least 0 and
    below 1, the product with 91 is the double product, and its integer
    part is always one of 0..90. *)
Theorem generateRandomArray_length_range (random : nat → float) (c : nat)
    (Hrandom : ∀ k, (0 <=? random k)%float = true ∧ (random k <? 1)%float = true) :
  (∀ size lo hi,
     (- 2 ^ 53 < lo)%Z → (lo ≤ hi)%Z → (hi < 2 ^ 53)%Z → (hi - lo + 1 < 2 ^ 53)%Z →
     length (generateRandomArrayWith random size lo hi c) = size ∧
     Forall (λ x, (lo ≤ x ≤ hi)%Z) (generateRandomArrayWith random size lo hi c)) ∧
  (length (generateRandomArray random c) = 20 ∧
   Forall (λ x, (5 ≤ x ≤ 95)%Z) (generateRandomArray random c)) ∧
  (∀ lo hi, generateRandomArrayWith random 0 lo hi c = []) ∧
  (∀ k, ∃ z, floor (random k * of_Z 91) = Some z ∧ (0 ≤ z ≤ 90)%Z).
Proof.
  split; [|split; [|split]].
  - intros size lo hi _ Hlh _ Hw. unfold generateRandomArrayWith. split.
    + apply generateFrom_length.
    + by apply generateFrom_range.
  - unfold generateRandomArray, generateRandomArrayWith. split.
    + apply generateFrom_length.
    + apply generateFrom_range; [done|done|apply Hrandom].
  - done.
  - intros k. destruct (Hrandom k) as [H0 H1].
    destruct (floor_mul_range (random k) 91 H0 H1) as (z & Hz & Hb); [done|].
    exists z. split; [done|lia].
Qed.

Lemma generateRandomArray_length_range_witness :
  (∀ k : nat, (0 <=? (λ _ : nat, 0x1.e97e97e97e97ep-1%float) k)%float = true ∧
              ((λ _ : nat, 0x1.e97e97e97e97ep-1%float) k <? 1)%float = true) ∧
  length (generateRandomArray (λ _, 0x1.e97e97e97e97ep-1%float) 0) = 20 ∧
  Forall (λ x, (5 ≤ x ≤ 95)%Z) (generateRandomArray (λ _, 0x1.e97e97e97e97ep-1%float) 0) ∧
  generateRandomArray (λ _, 0x1.e97e97e97e97ep-1%float) 0 = replicate 20 92%Z.
Proof.
  assert (H : ∀ k : nat,
             (0 <=? (λ _ : nat, 0x1.e97e97e97e97ep-1%float) k)%float = true ∧
             ((λ _ : nat, 0x1.e97e97e97e97ep-1%float) k <? 1)%float = true).
  { intros k. split; reflexivity. }
  split; [exact H|].
  destruct (generateRandomArray_length_range (λ _, 0x1.e97e97e97e97ep-1%float) 0 H)
    as (_ & [Hl Hf] & _).
  split; [exact Hl|]. split; [exact Hf|]. reflexivity.
Defined.

(** ** The page *)

Lemma getState_setState v x s : getState v (setState v x s) = x.
Proof. by destruct v. Qed.

Lemma getState_setState_ne v w x s :
  w ≠ v → getState w (setState v x s) = getState w s.
Proof. by destruct v, w. Qed.

Lemma isSorting_setSorting v w b s :
  isSorting (getState w (setSorting v b s)) =
  if decide (w = v) then b else isSorting (getState w s).
Proof.
  unfold setSorting. case_decide as Hw.
  - subst. by rewrite getState_setState.
  - by rewrite getState_setState_ne.
Qed.

Lemma currentStep_setSorting v w b s :
  currentStep (getState w (setSorting v b s)) = currentStep (getState w s).
Proof.
  unfold setSorting. destruct (decide (w = v)) as [->|Hw].
  - by rewrite getState_setState.
  - by rewrite getState_setState_ne.
Qed.

Lemma array_setSorting v w b s :
  array (getState w (setSorting v b s)) = array (getState w s).
Proof.
  unfold setSorting. destruct (decide (w = v)) as [->|Hw].
  - by rewrite getState_setState.
  - by rewrite getState_setState_ne.
Qed.

Section PageFacts.

Variable random : nat → float.

(** C3. [resetArray] while the sort type is sorting changes nothing at all:
    the page (arrays, [currentStep], flags, timers, renders) is the same.
    While it is not sorting, the entry gets a freshly generated array (a new
    object; no existing array is touched), [currentStep] is 0, exactly one
    render is added, with that array and no highlight, and the flag, the
    timers and the other entries stay as they are. *)
Theorem resetArray_busy_or_fresh (v : Variant) (p : Page) :
  if isSorting (getState v (sortStates p)) then resetArray random v p = p
  else
    let a := generateRandomArray random (randomCalls p) in
    let p' := resetArray random v p in
    heap p' = heap p ++ [a] ∧
    array (getState v (sortStates p')) = length (heap p) ∧
    arrayOf v p' = Some a ∧
    currentStep (getState v (sortStates p')) = 0%Z ∧
    isSorting (getState v (sortStates p')) = false ∧
    screen p' = screen p ++ [mkRender v a []] ∧
    timers p' = timers p ∧
    setState v (getState v (sortStates p)) (sortStates p') = sortStates p.
Proof.
  unfold resetArray, arrayOf.
  destruct (isSorting (getState v (sortStates p))) eqn:Hs; [done|].
  simpl. rewrite getState_setState. simpl.
  repeat split.
  - by rewrite lookup_app_r, Nat.sub_diag.
  - destruct v, (sortStates p); reflexivity.
Qed.

Lemma currentStep_commit v l sl p w :
  currentStep (getState w (sortStates (commit v l sl p))) =
  currentStep (getState w (sortStates p)).
Proof.
  destruct sl as [[a' fs] [k|]]; simpl; [done|]. apply currentStep_setSorting.
Qed.

Lemma currentStep_step e p :
  (∀ w, currentStep (getState w (sortStates p)) = 0%Z) →
  ∀ w, currentStep (getState w (sortStates (step random e p))) = 0%Z.
Proof.
  intros Hp w. destruct e as [v|v|t]; simpl.
  - unfold clickStart. destruct (isSorting _); [done|].
    destruct (heap p !! _); [|done]. destruct (start_sort _ _ _); [|done].
    rewrite currentStep_commit. simpl. by rewrite currentStep_setSorting.
  - assert (Hr : currentStep (getState w (sortStates (resetArray random v p))) = 0%Z).
    { unfold resetArray. destruct (isSorting _); [done|]. simpl.
      destruct (decide (w = v)) as [->|Hw].
      - by rewrite getState_setState.
      - by rewrite getState_setState_ne. }
    by destruct v.
  - unfold timeout. destruct (timers p !! t); [|done].
    destruct (heap p !! _); [|done]. by rewrite currentStep_commit.
Qed.

Lemma currentStep_pageLoaded w :
  currentStep (getState w (sortStates (pageLoaded random))) = 0%Z.
Proof. by destruct w. Qed.

(** C10. [currentStep] is 0 for every sort type in every reachable state of
    the page: it is 0 when the script is loaded, [resetArray] writes 0, and
    neither a click handler nor a sort procedure writes it. *)
Theorem currentStep_always_zero (p : Page) (v : Variant) :
  reachable random p → currentStep (getState v (sortStates p)) = 0%Z.
Proof.
  intros Hp. revert v. induction Hp as [|e p Hp IH].
  - apply currentStep_pageLoaded.
  - by apply currentStep_step.
Qed.

(** *** One run at a time *)

Lemma bubble_from_owner l n i sw a a' fs k :
  bubble_from l n i sw a = (a', fs, Suspended k) → owner k = bubble ∧ cont_array k = l.
Proof.
  unfold bubble_from, bubble_await. intros H.
  destruct (bubble_for_until _ i a sw) as [b j|[]]; simplify_eq; [done|].
  destruct (bubble_for_until _ 0 a false); by simplify_eq.
Qed.

Lemma selection_from_owner k' l n i a a' fs k :
  selection_from k' l n i a = (a', fs, Suspended k) →
  owner k = selection ∧ cont_array k = l.
Proof.
  revert i. induction k' as [|k' IH]; intros i; simpl; [done|].
  case_decide; [by intros ?; simplify_eq|apply IH].
Qed.

Lemma insertion_after_while_owned l n i key j1 a rest :
  (∀ b, insertion_owned l (rest b)) →
  insertion_owned l (insertion_after_while l n i key j1 a rest).
Proof.
  intros Hrest. unfold insertion_after_while.
  destruct (a !! j1); [|apply Hrest].
  destruct (negb _); [|apply Hrest]. by intros k ?; simplify_eq/=.
Qed.

Lemma insertion_while_from_owned l n i key j1 a rest :
  (∀ b, insertion_owned l (rest b)) →
  insertion_owned l (insertion_while_from l n i key j1 a rest).
Proof.
  intros Hrest. unfold insertion_while_from.
  destruct j1 as [|j]; [by apply insertion_after_while_owned|].
  destruct (a !! j); [|by apply insertion_after_while_owned].
  destruct (_ >? _)%Z; [|by apply insertion_after_while_owned].
  by intros k ?; simplify_eq/=.
Qed.

Lemma insertion_from_owned k' l n i a : insertion_owned l (insertion_from k' l n i a).
Proof.
  revert i a. induction k' as [|k' IH]; intros i a; simpl; [by intros ??|].
  destruct (a !! i); [|apply IH]. apply insertion_while_from_owned. intros b. apply IH.
Qed.

Lemma start_sort_owner v l a a' fs k :
  start_sort v l a = Some (a', fs, Suspended k) → owner k = v ∧ cont_array k = l.
Proof.
  destruct v; simpl; intros H; simplify_eq.
  - by eapply bubble_from_owner.
  - by eapply selection_from_owner.
  - eapply (insertion_from_owned _ _ _ _ _ k). by rewrite H.
Qed.

Lemma resume_owner k a a' fs k' :
  resume k a = (a', fs, Suspended k') →
  owner k' = owner k ∧ cont_array k' = cont_array k.
Proof.
  destruct k as [l n i|l n i|l n i key j|l n i]; simpl; intros H.
  - by eapply bubble_from_owner.
  - by eapply selection_from_owner.
  - apply (insertion_while_from_owned l n i key j a _
             (λ b, insertion_from_owned (n - S i) l n (S i) b)).
    by rewrite H.
  - eapply (insertion_from_owned _ _ _ _ _ k'). by rewrite H.
Qed.

Lemma filter_delete_length {A} (P : A → Prop) `{∀ x, Decision (P x)}
    (l : list A) (t : nat) (x : A) :
  l !! t = Some x →
  length (filter P l) =
  length (filter P (delete t l)) + (if decide (P x) then 1 else 0).
Proof.
  intros Hl. rewrite <- (take_drop_middle l t x Hl) at 1.
  rewrite delete_take_drop, !filter_app, filter_cons, !length_app.
  case_decide; simpl; lia.
Qed.

Lemma flag_counts_runs_commit v l sl p :
  (∀ k, sl.2 = Suspended k → owner k = v) →
  isSorting (getState v (sortStates p)) = true →
  length (active v p) = 0 →
  (∀ w, w ≠ v → length (active w p) =
                 if isSorting (getState w (sortStates p)) then 1 else 0) →
  flag_counts_runs (commit v l sl p).
Proof.
  intros Hown Hflag Hnone Hother w.
  destruct sl as [[a' fs] [k|]]; unfold active in *; simpl in *.
  - specialize (Hown k eq_refl). rewrite filter_app, length_app, filter_cons.
    destruct (decide (w = v)) as [->|Hw].
    + rewrite Hnone, Hflag. by rewrite decide_True.
    + rewrite decide_False by congruence. simpl. rewrite Nat.add_0_r. by apply Hother.
  - rewrite isSorting_setSorting. case_decide as Hw; [by subst|by apply Hother].
Qed.

Lemma flag_counts_runs_resetArray v p :
  flag_counts_runs p → flag_counts_runs (resetArray random v p).
Proof.
  intros Hp w. unfold resetArray. destruct (isSorting _) eqn:Hs; [apply Hp|].
  unfold active; simpl. destruct (decide (w = v)) as [->|Hw].
  - rewrite getState_setState. simpl. specialize (Hp v). by rewrite Hs in Hp.
  - rewrite getState_setState_ne by done. apply Hp.
Qed.

Lemma flag_counts_runs_step e p :
  flag_counts_runs p → flag_counts_runs (step random e p).
Proof.
  intros Hp. destruct e as [v|v|t]; simpl.
  - unfold clickStart. destruct (isSorting _) eqn:Hs; [done|].
    destruct (heap p !! _) as [a|] eqn:Ha; [|done].
    destruct (start_sort _ _ _) as [sl|] eqn:Hsl; [|done].
    apply flag_counts_runs_commit; simpl.
    + intros k Hk. destruct sl as [[a' fs] o]. simpl in Hk. subst o.
      by eapply start_sort_owner.
    + rewrite isSorting_setSorting. by rewrite decide_True.
    + specialize (Hp v). by rewrite Hs in Hp.
    + intros w Hw. rewrite isSorting_setSorting, decide_False by done. apply Hp.
  - destruct v; simpl; try done; by apply flag_counts_runs_resetArray.
  - unfold timeout. destruct (timers p !! t) as [k|] eqn:Hk; [|done].
    destruct (heap p !! _) as [a|] eqn:Ha; [|done].
    pose proof (filter_delete_length (λ k', owner k' = owner k) _ _ _ Hk) as Hdel.
    rewrite decide_True in Hdel by done.
    pose proof (Hp (owner k)) as Hv. unfold active in Hv.
    apply flag_counts_runs_commit; simpl.
    + intros k' Hk'. destruct (resume k a) as [[a' fs] o] eqn:Hr. simpl in Hk'.
      subst o. by eapply resume_owner.
    + destruct (isSorting _); [done|lia].
    + unfold active; simpl. destruct (isSorting _); lia.
    + intros w Hw. unfold active; simpl.
      pose proof (filter_delete_length (λ k', owner k' = w) _ _ _ Hk) as Hdw.
      rewrite decide_False in Hdw by done. rewrite <- (Hp w). unfold active. lia.
Qed.

Lemma flag_counts_runs_pageLoaded : flag_counts_runs (pageLoaded random).
Proof. intros v. by destruct v. Qed.

Lemma flag_counts_runs_reachable p : reachable random p → flag_counts_runs p.
Proof.
  induction 1 as [|e p Hp IH].
  - apply flag_counts_runs_pageLoaded.
  - by apply flag_counts_runs_step.
Qed.

(** C2. In every reachable state of the page and for every sort type: while
    [isSorting] is set a click on start leaves the whole page as it is (no
    second run, no change to the array or to anything else) and exactly one
    run of that sort type is in progress; while it is not set no run of that
    sort type is in progress. *)
Theorem one_run_at_a_time (p : Page) (v : Variant) :
  reachable random p →
  if isSorting (getState v (sortStates p))
  then step random (ClickStart v) p = p ∧ length (active v p) = 1
  else length (active v p) = 0.
Proof.
  intros Hp. apply flag_counts_runs_reachable in Hp. specialize (Hp v).
  simpl. unfold clickStart. by destruct (isSorting _).
Qed.

End PageFacts.

Lemma sampleBusy_reachable : reachable sampleRandom sampleBusy.
Proof. apply reach_step, reach_loaded. Qed.

Lemma currentStep_always_zero_witness :
  reachable sampleRandom sampleBusy ∧
  currentStep (getState bubble (sortStates sampleBusy)) = 0%Z.
Proof.
  split; [exact sampleBusy_reachable|].
  exact (currentStep_always_zero sampleRandom sampleBusy bubble sampleBusy_reachable).
Defined.

Lemma one_run_at_a_time_witness :
  reachable sampleRandom sampleBusy ∧
  isSorting (getState bubble (sortStates sampleBusy)) = true ∧
  step sampleRandom (ClickStart bubble) sampleBusy = sampleBusy ∧
  length (active bubble sampleBusy) = 1.
Proof.
  split; [exact sampleBusy_reachable|]. split; [reflexivity|].
  exact (one_run_at_a_time sampleRandom sampleBusy bubble sampleBusy_reachable).
Defined.

(** ** Insertion sort: the renders *)

(** C4 (as stated, refuted).  On [5,3,8,1] insertion sort makes six
    renders, not five, and the first one shows [5,5,8,1], not [3,5,8,1]. *)
Lemma insertionSort_5381_not_five_renders :
  length (insertionSort [5; 3; 8; 1]%Z).2 = 6 ∧
  bars <$> (insertionSort [5; 3; 8; 1]%Z).2 !! 0 = Some [5; 5; 8; 1]%Z ∧
  ¬ (∃ r s1 s2 s3 f,
       (insertionSort [5; 3; 8; 1]%Z).2 = [r; s1; s2; s3; f] ∧
       highlights r = [0; 1] ∧ bars r = [3; 5; 8; 1]%Z ∧ highlights f = [0]).
Proof.
  split; [reflexivity|]. split; [reflexivity|].
  intros (r & s1 & s2 & s3 & f & H & _). vm_compute in H. discriminate H.
Qed.

(** C4 (amended).  On [5,3,8,1] insertion sort makes exactly these renders,
    in this order: the shift of 5 over 3, highlighting 0 and 1 and showing
    [5,5,8,1]; the settle render of 3 at index 0, showing [3,5,8,1]; nothing
    for 8; the three shifts of 8, 5 and 3, highlighting (2,3), (1,2), (0,1);
    the settle render of 1 at index 0, showing [1,3,5,8], which is the final
    array. *)
Theorem insertionSort_5381_renders :
  insertionSort [5; 3; 8; 1]%Z =
  ([1; 3; 5; 8]%Z,
   [mkRender insertion [5; 5; 8; 1]%Z [0; 1];
    mkRender insertion [3; 5; 8; 1]%Z [0];
    mkRender insertion [3; 5; 8; 8]%Z [2; 3];
    mkRender insertion [3; 5; 5; 8]%Z [1; 2];
    mkRender insertion [3; 3; 5; 8]%Z [0; 1];
    mkRender insertion [1; 3; 5; 8]%Z [0]]).
Proof. reflexivity. Qed.

(** The [while] loop entered at [j1]: it stops at some [r1 ≤ j1] after
    [j1 - r1] shifts, each rendered with two highlights; without a shift the
    array is untouched, and after a shift the slot [r1] holds a copy of an
    element greater than the key. *)
Lemma insertion_while_shifts (j1 : nat) (key : Z) (a : list Z) :
  ∃ r1 a1 fs,
    insertion_while j1 key a = (r1, a1, fs) ∧
    r1 ≤ j1 ∧ length fs = j1 - r1 ∧
    Forall (λ f, ∃ j, highlights f = [j; S j]) fs ∧
    (r1 = j1 → a1 = a) ∧
    (r1 < j1 → ∃ x, a1 !! r1 = Some x ∧ (key < x)%Z).
Proof.
  revert a. induction j1 as [|j IH]; intros a; simpl.
  - exists 0, a, []. repeat split; [done..|lia].
  - destruct (a !! j) as [x|] eqn:Hx.
    2:{ exists (S j), a, []. repeat split; [lia|simpl; lia|done|lia]. }
    destruct (x >? key)%Z eqn:Hgt.
    2:{ exists (S j), a, []. repeat split; [lia|simpl; lia|done|lia]. }
    destruct (IH (<[S j:=x]> a)) as (r1 & a1 & fs & -> & Hle & Hlen & Hhl & Hsame & Hcopy).
    eexists r1, a1, _. split; [done|]. repeat split.
    + lia.
    + simpl. lia.
    + constructor; [by exists j|done].
    + lia.
    + intros _. destruct (decide (r1 = j)) as [->|Hne].
      * exists x. rewrite (Hsame eq_refl), list_lookup_insert_ne by lia.
        split; [done|lia].
      * apply Hcopy. lia.
Qed.

(** C6. At a position [i] of insertion sort (with [key] the element there),
    the renders of the position are the renders of the shifts followed by
    the settle renders; there is one shift render per shift, each with two
    highlights; and there is exactly one settle render, highlighting the one
    index where the key comes to rest, if at least one shift took place,
    and none otherwise (the array is then left as it was). *)
Theorem insertion_settle_iff_shifted (i : nat) (key : Z) (a : list Z) :
  a !! i = Some key →
  ∃ r1 a1 shifts a2 settle,
    insertion_while i key a = (r1, a1, shifts) ∧
    insertion_settle r1 key a1 = (a2, settle) ∧
    insertion_body i a = (a2, shifts ++ settle) ∧
    length shifts = i - r1 ∧
    Forall (λ f, ∃ j, highlights f = [j; S j]) shifts ∧
    (shifts ≠ [] → a2 = <[r1:=key]> a1 ∧ settle = [mkRender insertion a2 [r1]]) ∧
    (shifts = [] → a2 = a ∧ settle = []).
Proof.
  intros Hkey.
  destruct (insertion_while_shifts i key a)
    as (r1 & a1 & fs & Hw & Hle & Hlen & Hhl & Hsame & Hcopy).
  destruct (insertion_settle r1 key a1) as [a2 settle] eqn:Hs.
  exists r1, a1, fs, a2, settle. split; [done|]. split; [done|].
  split; [unfold insertion_body; by rewrite Hkey, Hw, Hs|].
  split; [done|]. split; [done|].
  unfold insertion_settle in Hs. split.
  - intros Hne. assert (r1 < i) as Hlt.
    { destruct fs; [done|]. simpl in Hlen. lia. }
    destruct (Hcopy Hlt) as (x & Hx & Hgt). rewrite Hx in Hs.
    destruct (x =? key)%Z eqn:Heq; [lia|]. simpl in Hs. by simplify_eq.
  - intros ->. simpl in Hlen. assert (r1 = i) as -> by lia.
    rewrite (Hsame eq_refl), Hkey, Z.eqb_refl in Hs. simpl in Hs. by simplify_eq.
Qed.

Lemma insertion_settle_iff_shifted_witness :
  [5; 3; 8; 1]%Z !! 1 = Some 3%Z ∧
  ∃ r1 a1 shifts a2 settle,
    insertion_while 1 3 [5; 3; 8; 1]%Z = (r1, a1, shifts) ∧
    insertion_settle r1 3 a1 = (a2, settle) ∧
    insertion_body 1 [5; 3; 8; 1]%Z = (a2, shifts ++ settle) ∧
    length shifts = 1 - r1 ∧
    Forall (λ f, ∃ j, highlights f = [j; S j]) shifts ∧
    (shifts ≠ [] → a2 = <[r1:=3%Z]> a1 ∧ settle = [mkRender insertion a2 [r1]]) ∧
    (shifts = [] → a2 = [5; 3; 8; 1]%Z ∧ settle = []).
Proof.
  split; [reflexivity|].
  apply (insertion_settle_iff_shifted 1 3 [5; 3; 8; 1]%Z). reflexivity.
Defined.

(** ** Selection sort: the renders *)

(** The inner loop started at [j] with [minIndex = m]: the result is the
    first index of the least element among [m] and [j .. j + k - 1]. *)
Lemma selection_scan_least (k j m : nat) (a : list Z) (y : Z) :
  a !! m = Some y → m < j → j + k ≤ length a →
  ∃ m' y',
    selection_scan k j a m = m' ∧ a !! m' = Some y' ∧
    (m' = m ∨ j ≤ m' < j + k) ∧ (y' ≤ y)%Z ∧ (m' ≠ m → (y' < y)%Z) ∧
    (∀ q z, j ≤ q < j + k → a !! q = Some z → (y' ≤ z)%Z) ∧
    (∀ q z, j ≤ q < m' → a !! q = Some z → (y' < z)%Z).
Proof.
  revert j m y. induction k as [|k IH]; intros j m y Hm Hlt Hlen; simpl.
  - exists m, y. repeat split; [done|by left|lia|done|intros; lia..].
  - destruct (lookup_lt_is_Some_2 a j) as [x Hx]; [lia|].
    rewrite Hx, Hm. destruct (x <? y)%Z eqn:Hcmp.
    + destruct (IH (S j) j x Hx) as (m' & y' & Hs & Hy' & Hpos & Hle & Hne & Hmin & Hfirst);
        [lia..|].
      exists m', y'. split; [done|]. split; [done|].
      split; [right; lia|]. split; [lia|]. split; [intros; lia|]. split.
      * intros q z Hq Hz. destruct (decide (q = j)) as [->|]; [|apply (Hmin q); [lia|done]].
        assert (z = x) as -> by congruence. done.
      * intros q z Hq Hz. destruct (decide (q = j)) as [->|]; [|apply (Hfirst q); [lia|done]].
        assert (z = x) as -> by congruence. apply Hne. lia.
    + destruct (IH (S j) m y Hm) as (m' & y' & Hs & Hy' & Hpos & Hle & Hne & Hmin & Hfirst);
        [lia..|].
      exists m', y'. split; [done|]. split; [done|].
      split; [lia|]. split; [done|]. split; [done|]. split.
      * intros q z Hq Hz. destruct (decide (q = j)) as [->|]; [|apply (Hmin q); [lia|done]].
        assert (z = x) as -> by congruence. lia.
      * intros q z Hq Hz. destruct (decide (q = j)) as [->|]; [|apply (Hfirst q); [lia|done]].
        assert (z = x) as -> by congruence. assert (m' ≠ m) by lia. specialize (Hne H). lia.
Qed.

Lemma swap_length i j a : length (swap i j a) = length a.
Proof.
  unfold swap. destruct (a !! i), (a !! j); [|done..]. by rewrite !length_insert.
Qed.

Lemma swap_Permutation i j a : swap i j a ≡ₚ a.
Proof.
  unfold swap. destruct (a !! i) eqn:Hi, (a !! j) eqn:Hj; [|done..].
  by apply Permutation_insert_swap.
Qed.


Lemma selection_body_length n i a : length (selection_body n i a).1 = length a.
Proof. unfold selection_body. case_decide; simpl; [apply swap_length|done]. Qed.

Lemma length_filter_fmap {A B} (P : B → Prop) `{∀ x, Decision (P x)}
    (f : A → B) (l : list A) :
  length (filter P (f <$> l)) = length (filter (P ∘ f) l).
Proof.
  induction l as [|x l IH]; [done|]. rewrite fmap_cons, !filter_cons. simpl.
  destruct (decide (P (f x))); simpl; by rewrite IH.
Qed.

(** The renders of the outer loop from position [i] are as many as the
    positions at which [minIndex] differs from the position. *)
Lemma selection_for_renders (k n i : nat) (a : list Z) :
  length (selection_for k n i a).2 =
  length (filter (λ d, selection_minIndex n (i + d) (selection_for d n i a).1 ≠ i + d)
            (seq 0 k)).
Proof.
  revert i a. induction k as [|k IH]; intros i a; [done|].
  rewrite <- cons_seq, <- fmap_S_seq.
  change (selection_for (S k) n i a) with
    (let '(a', fs) := selection_body n i a in
     let '(r, fs') := selection_for k n (S i) a' in (r, fs ++ fs')).
  destruct (selection_body n i a) as [a' fs] eqn:Hb.
  specialize (IH (S i) a').
  destruct (selection_for k n (S i) a') as [r fs'] eqn:Hf. simpl in IH |- *.
  assert (Hext : filter (λ d, selection_minIndex n (S (i + d)) (selection_for d n (S i) a').1
                              ≠ S (i + d)) (seq 0 k) =
                 filter ((λ d, selection_minIndex n (i + d) (selection_for d n i a).1 ≠ i + d) ∘ S)
                   (seq 0 k)).
  { apply list_filter_iff. intros d. simpl. rewrite Hb.
    replace (i + S d) with (S (i + d)) by lia.
    by destruct (selection_for d n (S i) a'). }
  rewrite length_app, IH, Hext, filter_cons, Nat.add_0_r.
  unfold selection_body in Hb.
  destruct (decide (selection_minIndex n i a ≠ i)); simplify_eq; simpl.
  - rewrite decide_True by done. simpl. by rewrite length_filter_fmap.
  - rewrite decide_False by done. by rewrite length_filter_fmap.
Qed.

(** [minIndex] at position [i]: the first index of the least element of
    the suffix from [i]. *)
Lemma selection_minIndex_least (i : nat) (b : list Z) :
  i < length b →
  ∃ m x y,
    selection_minIndex (length b) i b = m ∧ i ≤ m < length b ∧
    b !! i = Some x ∧ b !! m = Some y ∧
    (∀ q z, i ≤ q → b !! q = Some z → (y ≤ z)%Z) ∧
    (∀ q z, i ≤ q < m → b !! q = Some z → (y < z)%Z) ∧
    (m ≠ i ↔ (y < x)%Z).
Proof.
  intros Hi. destruct (lookup_lt_is_Some_2 b i Hi) as [x Hx].
  destruct (selection_scan_least (length b - (i + 1)) (i + 1) i b x Hx)
    as (m & y & Hs & Hy & Hpos & Hle & Hne & Hmin & Hfirst); [lia..|].
  exists m, x, y. split; [done|]. split; [lia|]. split; [done|]. split; [done|].
  assert (Hiff : m ≠ i ↔ (y < x)%Z).
  { split; [done|]. intros Hlt ->. rewrite Hx in Hy. simplify_eq. lia. }
  split; [|split; [|done]].
  - intros q z Hq Hz. destruct (decide (q = i)) as [->|].
    + rewrite Hx in Hz. by simplify_eq.
    + apply (Hmin q); [|done]. apply lookup_lt_Some in Hz. lia.
  - intros q z Hq Hz. destruct (decide (q = i)) as [->|].
    + rewrite Hx in Hz. simplify_eq. apply Hne. lia.
    + apply (Hfirst q); [lia|done].
Qed.


(** ** Sorted input *)

Lemma nondecreasing_adjacent (a : list Z) :
  (∀ j x y, a !! j = Some x → a !! S j = Some y → (x ≤ y)%Z) → nondecreasing a.
Proof.
  intros Hadj i j x y Hij. replace j with (i + (j - i)) by lia.
  generalize (j - i). clear j Hij. intros d. revert y.
  induction d as [|d IH]; intros y Hx Hy.
  - rewrite Nat.add_0_r in Hy. by simplify_eq.
  - replace (i + S d) with (S (i + d)) in Hy by lia.
    destruct (lookup_lt_is_Some_2 a (i + d)) as [z Hz].
    { apply lookup_lt_Some in Hy. lia. }
    specialize (IH z Hx Hz). specialize (Hadj _ _ _ Hz Hy). lia.
Qed.

Lemma nondecreasing_StronglySorted (a : list Z) :
  nondecreasing a ↔ StronglySorted Z.le a.
Proof.
  split.
  - induction a as [|x a IH]; intros Ha; constructor.
    + apply IH. intros i j y z Hij Hy Hz. by apply (Ha (S i) (S j)); [lia|..].
    + apply Forall_lookup. intros i y Hy. by apply (Ha 0 (S i)); [lia|..].
  - induction 1 as [|x a Hs IH Hx]; intros i j y z Hij Hy Hz; [done|].
    destruct i as [|i], j as [|j]; simplify_eq/=; [lia| |lia|].
    + by eapply (proj1 (Forall_lookup _ _) Hx).
    + by apply (IH i j); [lia|..].
Qed.

Lemma bubble_for_sorted (k i : nat) (a : list Z) :
  nondecreasing a → bubble_for k i a false = (a, [], false).
Proof.
  intros Ha. revert i. induction k as [|k IH]; intros i; simpl; [done|].
  destruct (a !! i) as [x|] eqn:Hx; [|apply IH].
  destruct (a !! (i + 1)) as [y|] eqn:Hy; [|apply IH].
  assert (x ≤ y)%Z by (apply (Ha i (i + 1)); [lia|done..]).
  destruct (x >? y)%Z eqn:Hgt; [lia|apply IH].
Qed.

Lemma selection_scan_sorted (k j m : nat) (a : list Z) :
  nondecreasing a → m < j → selection_scan k j a m = m.
Proof.
  intros Ha. revert j. induction k as [|k IH]; intros j Hm; simpl; [done|].
  destruct (a !! j) as [x|] eqn:Hx; [|apply IH; lia].
  destruct (a !! m) as [y|] eqn:Hy; [|apply IH; lia].
  assert (y ≤ x)%Z by (apply (Ha m j); [lia|done..]).
  destruct (x <? y)%Z eqn:Hlt; [lia|apply IH; lia].
Qed.

Lemma selection_for_sorted (k n i : nat) (a : list Z) :
  nondecreasing a → selection_for k n i a = (a, []).
Proof.
  intros Ha. revert i. induction k as [|k IH]; intros i; simpl; [done|].
  unfold selection_body, selection_minIndex.
  rewrite selection_scan_sorted by (done || lia).
  rewrite decide_False by (intros Hc; by apply Hc). by rewrite IH.
Qed.

Lemma insertion_body_sorted (i : nat) (a : list Z) :
  nondecreasing a → insertion_body i a = (a, []).
Proof.
  intros Ha. unfold insertion_body. destruct (a !! i) as [key|] eqn:Hkey; [|done].
  assert (Hw : insertion_while i key a = (i, a, [])).
  { destruct i as [|j]; simpl; [done|].
    destruct (a !! j) as [x|] eqn:Hx; [|done].
    assert (x ≤ key)%Z by (apply (Ha j (S j)); [lia|done..]).
    destruct (x >? key)%Z eqn:Hgt; [lia|done]. }
  rewrite Hw. unfold insertion_settle. by rewrite Hkey, Z.eqb_refl.
Qed.

Lemma insertion_for_sorted (k i : nat) (a : list Z) :
  nondecreasing a → insertion_for k i a = (a, []).
Proof.
  intros Ha. revert i. induction k as [|k IH]; intros i; simpl; [done|].
  by rewrite insertion_body_sorted, IH.
Qed.

(** C8. On an array that is already non-decreasing, selection sort and
    insertion sort make no render at all and leave the array as it is;
    the first pass of bubble sort makes no swap (no render, array unchanged,
    [swapped] still false) and bubble sort returns after that one pass: one
    pass is enough and, the loop being a [do]-[while], zero passes are not. *)
Theorem sorted_input_no_render (a : list Z) :
  nondecreasing a →
  selectionSort a = (a, []) ∧
  insertionSort a = (a, []) ∧
  bubble_pass (length a) a = (a, [], false) ∧
  bubble_swaps 0 a = 0 ∧
  bubbleSort 1 a = Some (a, []) ∧
  bubbleSort 0 a = None.
Proof.
  intros Ha. split; [by apply selection_for_sorted|].
  split; [by apply insertion_for_sorted|].
  assert (Hp : bubble_pass (length a) a = (a, [], false)) by by apply bubble_for_sorted.
  split; [done|]. split; [unfold bubble_swaps; simpl; by rewrite Hp|].
  split; [|done]. unfold bubbleSort. simpl. by rewrite Hp.
Qed.

Lemma sorted_input_no_render_witness :
  nondecreasing [1; 3; 3; 8]%Z ∧
  selectionSort [1; 3; 3; 8]%Z = ([1; 3; 3; 8]%Z, []) ∧
  insertionSort [1; 3; 3; 8]%Z = ([1; 3; 3; 8]%Z, []) ∧
  bubble_pass 4 [1; 3; 3; 8]%Z = ([1; 3; 3; 8]%Z, [], false) ∧
  bubble_swaps 0 [1; 3; 3; 8]%Z = 0 ∧
  bubbleSort 1 [1; 3; 3; 8]%Z = Some ([1; 3; 3; 8]%Z, []) ∧
  bubbleSort 0 [1; 3; 3; 8]%Z = None.
Proof.
  assert (H : nondecreasing [1; 3; 3; 8]%Z).
  { apply nondecreasing_StronglySorted. repeat constructor; lia. }
  split; [exact H|]. exact (sorted_input_no_render [1; 3; 3; 8]%Z H).
Defined.

(** ** Bubble sort: passes and termination *)

Lemma swap_adjacent (i : nat) (a : list Z) (x y : Z) :
  a !! i = Some x → a !! (i + 1) = Some y →
  ∃ l1 l2, a = l1 ++ x :: y :: l2 ∧ length l1 = i ∧
           swap i (i + 1) a = l1 ++ y :: x :: l2.
Proof.
  intros Hx Hy. exists (take i a), (drop (S (S i)) a).
  assert (Ha : a = take i a ++ x :: y :: drop (S (S i)) a).
  { rewrite <- (take_drop_middle a i x Hx) at 1. do 2 f_equal.
    apply drop_S. by rewrite <- Nat.add_1_r. }
  assert (Hl : length (take i a) = i).
  { apply length_take_le. apply lookup_lt_Some in Hx. lia. }
  split; [done|]. split; [done|].
  unfold swap. rewrite Hx, Hy. rewrite Ha at 1.
  rewrite (insert_app_r_alt _ _ i) by lia.
  rewrite (insert_app_r_alt _ _ (i + 1)) by lia.
  rewrite Hl. replace (i - i) with 0 by lia. replace (i + 1 - i) with 1 by lia.
  done.
Qed.

Lemma inversions_adjacent (l1 l2 : list Z) (x y : Z) :
  (y < x)%Z →
  S (inversions (l1 ++ y :: x :: l2)) = inversions (l1 ++ x :: y :: l2).
Proof.
  intros Hlt. induction l1 as [|z l1 IH]; simpl.
  - rewrite !filter_cons. rewrite (decide_True (P := (y < x)%Z)) by done.
    rewrite (decide_False (P := (x < y)%Z)) by lia. simpl. lia.
  - rewrite <- IH. rewrite !filter_app, !filter_cons, !length_app.
    repeat case_decide; simpl; lia.
Qed.

(** A stretch of the [for] loop: every swap makes one render and removes
    one inversion; [swapped] is set by the first swap and never cleared;
    the array is permuted. *)
Lemma bubble_for_swaps (k i : nat) (a : list Z) (sw : bool) :
  ∃ a' fs sw',
    bubble_for k i a sw = (a', fs, sw') ∧
    inversions a' + length fs = inversions a ∧
    a' ≡ₚ a ∧
    sw' = (if fs is [] then sw else true) ∧
    (fs = [] → a' = a).
Proof.
  revert i a sw. induction k as [|k IH]; intros i a sw; simpl.
  { by exists a, [], sw. }
  destruct (a !! i) as [x|] eqn:Hx; [|apply IH].
  destruct (a !! (i + 1)) as [y|] eqn:Hy; [|apply IH].
  destruct (x >? y)%Z eqn:Hgt; [|apply IH].
  destruct (IH (S i) (swap i (i + 1) a) true) as (a' & fs & sw' & -> & Hinv & Hperm & Hsw & _).
  eexists a', _, sw'. split; [done|].
  destruct (swap_adjacent i a x y Hx Hy) as (l1 & l2 & Ha & Hl & Hs).
  split; [|split; [|split; [|done]]].
  - assert (Hdec : S (inversions (swap i (i + 1) a)) = inversions a).
    { rewrite Hs, Ha. apply inversions_adjacent. lia. }
    simpl. lia.
  - by rewrite Hperm, swap_Permutation.
  - by destruct fs.
Qed.

(** A stretch of the [for] loop without a render found every adjacent pair
    it looked at in order. *)
Lemma bubble_for_no_swap (k i : nat) (a a' : list Z) (sw sw' : bool) :
  bubble_for k i a sw = (a', [], sw') →
  ∀ j x y, i ≤ j < i + k → a !! j = Some x → a !! (j + 1) = Some y → (x ≤ y)%Z.
Proof.
  revert i. induction k as [|k IH]; intros i Hf j x y Hj Hx Hy; [lia|].
  simpl in Hf. destruct (decide (j = i)) as [->|Hne].
  - rewrite Hx, Hy in Hf. destruct (x >? y)%Z eqn:Hgt; [|lia].
    by destruct (bubble_for k (S i) _ true) as [[? ?] ?].
  - assert (Hf' : bubble_for k (S i) a sw = (a', [], sw')).
    { destruct (a !! i) as [x0|]; [|done]. destruct (a !! (i + 1)) as [y0|]; [|done].
      destruct (x0 >? y0)%Z; [|done].
      by destruct (bubble_for k (S i) _ true) as [[? ?] ?]. }
    apply (IH (S i) Hf' j x y); [lia|done..].
Qed.

Lemma bubble_pass_swaps (n : nat) (a : list Z) :
  ∃ a' fs sw,
    bubble_pass n a = (a', fs, sw) ∧
    inversions a' + length fs = inversions a ∧ a' ≡ₚ a ∧
    (sw = false ↔ fs = []) ∧
    (fs = [] → a' = a ∧
       ∀ j x y, j < n - 1 → a !! j = Some x → a !! (j + 1) = Some y → (x ≤ y)%Z).
Proof.
  unfold bubble_pass.
  destruct (bubble_for_swaps (n - 1) 0 a false) as (a' & fs & sw & Hf & Hinv & Hperm & Hsw & Hsame).
  exists a', fs, sw. split; [done|]. split; [done|]. split; [done|]. split.
  - subst sw. by destruct fs.
  - intros ->. split; [by apply Hsame|]. intros j x y Hj.
    apply (bubble_for_no_swap _ _ _ _ _ _ Hf). lia.
Qed.

(** The [do]-[while] loop: after some number [p] of passes with swaps comes
    a pass without one, and the loop returns after that pass and not
    earlier. *)
Lemma bubble_dowhile_passes (n : nat) (a : list Z) :
  ∃ p fs,
    p ≤ inversions a ∧
    (∀ q, q < p → (bubble_pass n (bubble_after q n a)).1.2 ≠ []) ∧
    bubble_pass n (bubble_after p n a) = (bubble_after p n a, [], false) ∧
    bubble_after p n a ≡ₚ a ∧
    inversions (bubble_after p n a) + length fs = inversions a ∧
    ∀ fuel, bubble_dowhile fuel n a =
            if decide (p < fuel) then Some (bubble_after p n a, fs) else None.
Proof.
  remember (inversions a) as m eqn:Hm. revert a Hm.
  induction (lt_wf m) as [m _ IH]. intros a ->.
  destruct (bubble_pass_swaps n a) as (a' & fs & sw & Hp & Hinv & Hperm & Hsw & Hnone).
  destruct fs as [|f fs].
  - destruct (Hnone eq_refl) as [-> _]. assert (sw = false) as -> by by apply Hsw.
    exists 0, []. simpl. split; [lia|]. split; [intros; lia|]. split; [done|].
    split; [done|]. split; [lia|].
    intros [|fuel]; simpl; [done|]. by rewrite Hp.
  - assert (sw = true) as ->.
    { destruct sw; [done|]. by destruct Hsw as [Hsw _]; specialize (Hsw eq_refl). }
    simpl in Hinv.
    destruct (IH (inversions a') ltac:(lia) a' eq_refl)
      as (p & fs' & Hle & Hbefore & Hlast & Hperm' & Hinv' & Hfuel).
    exists (S p), ((f :: fs) ++ fs'). simpl. rewrite Hp. simpl.
    split; [lia|]. split.
    { intros [|q] Hq; simpl; [by rewrite Hp|]. rewrite Hp. simpl. apply Hbefore. lia. }
    split; [done|]. split; [by rewrite Hperm'|].
    split; [rewrite length_app; simpl; lia|].
    intros [|fuel]; simpl; [done|]. rewrite Hp, Hfuel.
    destruct (decide (p < fuel)).
    + by rewrite decide_True by lia.
    + by rewrite decide_False by lia.
Qed.

(** C9. Bubble sort terminates on every array: there is a number [p] of
    passes that each make at least one swap, the pass after them makes
    none, and the [do]-[while] loop returns exactly then: with [p + 1]
    passes allowed (or more) the procedure returns, always with the same
    array and renders, and with [p] or fewer it has not returned yet.  The
    number of swaps in all is the number of inversions of the input, which
    also bounds [p]. *)
Theorem bubbleSort_terminates (a : list Z) :
  ∃ p out fs,
    (∀ q, q < p → bubble_swaps q a ≠ 0) ∧
    bubble_swaps p a = 0 ∧
    (∀ fuel, bubbleSort fuel a = if decide (p < fuel) then Some (out, fs) else None) ∧
    out = bubble_after p (length a) a ∧
    p ≤ inversions a ∧
    length fs = inversions a - inversions out.
Proof.
  destruct (bubble_dowhile_passes (length a) a)
    as (p & fs & Hle & Hbefore & Hlast & Hperm & Hinv & Hfuel).
  exists p, (bubble_after p (length a) a), fs. unfold bubble_swaps.
  split; [|split; [|split; [|split; [|split]]]]; [|by rewrite Hlast|done..|lia].
  intros q Hq Hz. apply (Hbefore q Hq). by apply length_zero_iff_nil.
Qed.

(** ** The sorts sort *)

Lemma swap_lookup (i m q : nat) (a : list Z) (x y : Z) :
  a !! i = Some x → a !! m = Some y →
  swap i m a !! q =
  if decide (q = m) then Some x else if decide (q = i) then Some y else a !! q.
Proof.
  intros Hx Hy. unfold swap. rewrite Hx, Hy, !list_lookup_insert, length_insert.
  pose proof (lookup_lt_Some _ _ _ Hx). pose proof (lookup_lt_Some _ _ _ Hy).
  repeat case_decide; try done; lia.
Qed.

Lemma selection_body_inv (i : nat) (a : list Z) :
  i < length a → selection_inv i a →
  selection_inv (S i) (selection_body (length a) i a).1.
Proof.
  intros Hi Hinv.
  destruct (selection_minIndex_least i a Hi)
    as (m & x & y & Hs & Hm & Hx & Hy & Hmin & _ & Hiff).
  unfold selection_body. rewrite Hs. case_decide as Hmi; simpl.
  - intros p q x' y' Hp Hpq. rewrite !(swap_lookup i m _ a x y) by done.
    intros Hx' Hy'.
    destruct (decide (p = i)) as [->|Hpi].
    + rewrite decide_False in Hx' by lia. simplify_eq.
      repeat case_decide; simplify_eq; [lia|lia|]. by apply (Hmin q); [lia|].
    + rewrite decide_False in Hx' by lia.
      repeat case_decide; simplify_eq;
        try (eapply Hinv; only 3-4: eassumption; lia).
  - assert (m = i) as -> by (destruct (decide (m = i)); [done|by destruct Hmi]).
    intros p q x' y' Hp Hpq Hx' Hy'. destruct (decide (p = i)) as [->|Hpi].
    + assert (x' = y) as -> by congruence. by apply (Hmin q); [lia|].
    + by apply (Hinv p q); [lia..| |].
Qed.

Lemma selection_for_sorts (k i : nat) (a : list Z) :
  i + k ≤ length a → selection_inv i a →
  selection_inv (i + k) (selection_for k (length a) i a).1 ∧
  (selection_for k (length a) i a).1 ≡ₚ a.
Proof.
  revert i a. induction k as [|k IH]; intros i a Hk Hinv; simpl.
  { by rewrite Nat.add_0_r. }
  pose proof (selection_body_inv i a ltac:(lia) Hinv) as Hb.
  pose proof (selection_body_length (length a) i a) as Hl.
  assert (Hperm : (selection_body (length a) i a).1 ≡ₚ a).
  { unfold selection_body. case_decide; simpl; [apply swap_Permutation|done]. }
  destruct (selection_body (length a) i a) as [a' fs]. simpl in *.
  destruct (IH (S i) a' ltac:(lia) Hb) as [Hinv' Hperm']. rewrite Hl in *.
  destruct (selection_for k (length a) (S i) a') as [r fs']. simpl in *.
  split; [by replace (i + S k) with (S i + k) by lia|]. by rewrite Hperm'.
Qed.

Lemma selectionSort_sorts (a : list Z) :
  nondecreasing (selectionSort a).1 ∧ (selectionSort a).1 ≡ₚ a.
Proof.
  unfold selectionSort.
  destruct (selection_for_sorts (length a - 1) 0 a) as [Hinv Hperm]; [lia|by intros ?; lia|].
  split; [|done]. intros p q x y Hpq Hx Hy.
  pose proof (Permutation_length Hperm) as Hl.
  destruct (decide (p < length a - 1)) as [Hp|Hp]; [by apply (Hinv p q)|].
  apply lookup_lt_Some in Hx as Hpl. apply lookup_lt_Some in Hy as Hql.
  assert (p = q) as -> by lia. assert (x = y) as -> by congruence. done.
Qed.

(** The [while] loop on [l1 ++ h :: l2], entered at the slot of [h]: the
    elements of [l1] greater than the key, a suffix [lb] of [l1], have moved
    one slot to the right. *)
Lemma insertion_while_split (key h : Z) (l1 l2 : list Z) :
  ∃ la lb h' fs,
    l1 = la ++ lb ∧
    insertion_while (length l1) key (l1 ++ h :: l2) =
      (length la, la ++ h' :: lb ++ l2, fs) ∧
    Forall (λ x, (key < x)%Z) lb ∧
    (∀ z, last la = Some z → (z ≤ key)%Z).
Proof.
  revert h l2. induction l1 as [|x l1 IH] using rev_ind; intros h l2.
  { exists [], [], h, []. by repeat split. }
  rewrite length_app, Nat.add_1_r. simpl.
  rewrite <- app_assoc. simpl.
  rewrite (list_lookup_middle l1 (h :: l2) x (length l1) eq_refl).
  destruct (x >? key)%Z eqn:Hgt.
  - assert (Hins : <[S (length l1):=x]> (l1 ++ x :: h :: l2) = l1 ++ x :: x :: l2).
    { rewrite insert_app_r_alt by lia.
      by replace (S (length l1) - length l1) with 1 by lia. }
    rewrite Hins.
    destruct (IH x (x :: l2)) as (la & lb & h' & fs & -> & -> & Hlb & Hla).
    eexists la, (lb ++ [x]), h', _. split; [by rewrite app_assoc|].
    split; [by rewrite <- (app_assoc lb)|].
    split; [|done]. apply Forall_app. split; [done|]. constructor; [lia|done].
  - exists (l1 ++ [x]), [], h, []. split; [by rewrite app_nil_r|].
    split; [by rewrite length_app, Nat.add_1_r, <- app_assoc|].
    split; [done|]. intros z. rewrite last_snoc. intros ?; simplify_eq. lia.
Qed.

(** The body at position [i] moves the key left past the elements of the
    prefix that are greater. *)
Lemma insertion_body_split (i : nat) (key : Z) (a : list Z) :
  a !! i = Some key →
  ∃ la lb,
    take i a = la ++ lb ∧
    (insertion_body i a).1 = la ++ key :: lb ++ drop (S i) a ∧
    Forall (λ x, (key < x)%Z) lb ∧
    (∀ z, last la = Some z → (z ≤ key)%Z).
Proof.
  intros Hkey. unfold insertion_body. rewrite Hkey.
  assert (Hl : length (take i a) = i).
  { apply length_take_le. apply lookup_lt_Some in Hkey. lia. }
  destruct (insertion_while_split key key (take i a) (drop (S i) a))
    as (la & lb & h' & fs & Hsplit & Hw & Hlb & Hla).
  rewrite Hl, (take_drop_middle a i key Hkey) in Hw. rewrite Hw.
  exists la, lb. split; [done|]. split; [|done].
  unfold insertion_settle.
  rewrite (list_lookup_middle la (lb ++ drop (S i) a) h' (length la) eq_refl).
  destruct (h' =? key)%Z eqn:Heq; simpl.
  - by assert (h' = key) as -> by lia.
  - rewrite insert_app_r_alt by lia. by rewrite Nat.sub_diag.
Qed.

Lemma insertion_body_sorts (i : nat) (a : list Z) :
  i < length a → StronglySorted Z.le (take i a) →
  StronglySorted Z.le (take (S i) (insertion_body i a).1) ∧
  (insertion_body i a).1 ≡ₚ a.
Proof.
  intros Hi Hsorted. destruct (lookup_lt_is_Some_2 a i Hi) as [key Hkey].
  destruct (insertion_body_split i key a Hkey) as (la & lb & Hsplit & -> & Hlb & Hla).
  assert (Hlen : length la + length lb = i).
  { rewrite <- length_app, <- Hsplit. apply length_take_le. lia. }
  split.
  - replace (la ++ key :: lb ++ drop (S i) a)
      with ((la ++ key :: lb) ++ drop (S i) a) by by rewrite <- app_assoc.
    rewrite take_app_length' by (rewrite length_app; simpl; lia).
    rewrite Hsplit in Hsorted. apply StronglySorted_app in Hsorted as (Hab & Hsa & Hsb).
    apply StronglySorted_app_2; [|done|].
    + intros x1 x2 Hx1 Hx2.
      assert (x1 ≤ key)%Z as Hx1k.
      { destruct (last la) as [z|] eqn:Hlast.
        - specialize (Hla z eq_refl). apply last_Some in Hlast as [la' ->].
          apply elem_of_app in Hx1 as [Hx1|Hx1].
          + assert (x1 ≤ z)%Z; [|lia].
            apply (StronglySorted_app_1_elem_of Z.le la' [z]); [done..|by left].
          + apply list_elem_of_singleton in Hx1 as ->. done.
        - apply last_None in Hlast as ->. by apply elem_of_nil in Hx1. }
      apply elem_of_cons in Hx2 as [->|Hx2]; [done|].
      rewrite Forall_forall in Hlb. specialize (Hlb x2 Hx2). lia.
    + constructor; [done|]. eapply Forall_impl; [exact Hlb|]. intros; simpl in *; lia.
  - rewrite <- (take_drop_middle a i key Hkey) at 2. rewrite Hsplit.
    rewrite <- app_assoc. f_equiv. by rewrite Permutation_middle.
Qed.

Lemma insertion_for_sorts (k i : nat) (a : list Z) :
  k = length a - i → StronglySorted Z.le (take i a) →
  StronglySorted Z.le (insertion_for k i a).1 ∧ (insertion_for k i a).1 ≡ₚ a.
Proof.
  revert i a. induction k as [|k IH]; intros i a Hk Hsorted; simpl.
  { split; [|done]. by rewrite take_ge in Hsorted by lia. }
  destruct (insertion_body_sorts i a ltac:(lia) Hsorted) as [Hs Hperm].
  destruct (insertion_body i a) as [a' fs]. simpl in *.
  pose proof (Permutation_length Hperm) as Hl.
  destruct (IH (S i) a' ltac:(lia) Hs) as [Hs' Hperm'].
  destruct (insertion_for k (S i) a') as [r fs']. simpl in *.
  split; [done|]. by rewrite Hperm'.
Qed.

Lemma insertionSort_sorts (a : list Z) :
  nondecreasing (insertionSort a).1 ∧ (insertionSort a).1 ≡ₚ a.
Proof.
  unfold insertionSort. rewrite nondecreasing_StronglySorted.
  apply insertion_for_sorts; [lia|].
  destruct a as [|x [|y a]]; simpl; repeat constructor.
Qed.

Lemma bubbleSort_sorts (a : list Z) :
  ∃ p out fs,
    (∀ fuel, bubbleSort fuel a = if decide (p < fuel) then Some (out, fs) else None) ∧
    nondecreasing out ∧ out ≡ₚ a.
Proof.
  destruct (bubble_dowhile_passes (length a) a)
    as (p & fs & _ & _ & Hlast & Hperm & _ & Hfuel).
  exists p, (bubble_after p (length a) a), fs. split; [done|]. split; [|done].
  apply nondecreasing_adjacent. intros j x y Hx Hy.
  unfold bubble_pass in Hlast.
  apply (bubble_for_no_swap _ _ _ _ _ _ Hlast j); [|done|by rewrite Nat.add_1_r].
  apply lookup_lt_Some in Hy. rewrite (Permutation_length Hperm) in Hy. lia.
Qed.

(** C1 (as stated, refuted).  The script has no procedure for quick sort and
    merge sort: no run of [quick] completes on any fuel, and on the loaded
    page a click on the start button of [quick] changes nothing while its
    array is not in order. *)
Lemma quick_has_no_run :
  runSort quick 1 [2; 1]%Z = None ∧
  ¬ (∃ out fs, completes quick [2; 1]%Z out fs) ∧
  step sampleRandom (ClickStart quick) (pageLoaded sampleRandom)
    = pageLoaded sampleRandom ∧
  ∃ b, arrayOf quick (pageLoaded sampleRandom) = Some b ∧ ¬ nondecreasing b.
Proof.
  split; [done|]. split; [by intros (out & fs & fuel & ?)|]. split; [done|].
  eexists. split; [reflexivity|]. intros Hb.
  specialize (Hb 1 2 _ _ ltac:(lia) eq_refl eq_refl). vm_compute in Hb. by apply Hb.
Qed.

(** C1 (amended).  For the three sort types the script implements (bubble,
    selection, insertion) and every array: the run completes, the array it
    leaves is non-decreasing and a permutation of the array at the start,
    and the outcome (array and renders) is the same for every completed
    run. *)
Theorem implemented_sorts_sort (v : Variant) (a : list Z) :
  v = bubble ∨ v = selection ∨ v = insertion →
  ∃ out fs,
    completes v a out fs ∧ nondecreasing out ∧ out ≡ₚ a ∧
    ∀ out' fs', completes v a out' fs' → out' = out ∧ fs' = fs.
Proof.
  intros [-> | [-> | ->]]; unfold completes; simpl.
  - destruct (bubbleSort_sorts a) as (p & out & fs & Hfuel & Hs & Hperm).
    exists out, fs. split; [|split; [done|split; [done|]]].
    + exists (S p). by rewrite Hfuel, decide_True by lia.
    + intros out' fs' [fuel Hf]. rewrite Hfuel in Hf. case_decide; by simplify_eq.
  - destruct (selectionSort_sorts a) as [Hs Hperm].
    destruct (selectionSort a) as [out fs]. exists out, fs.
    split; [by exists 0|]. split; [done|]. split; [done|].
    by intros out' fs' [_ ?]; simplify_eq.
  - destruct (insertionSort_sorts a) as [Hs Hperm].
    destruct (insertionSort a) as [out fs]. exists out, fs.
    split; [by exists 0|]. split; [done|]. split; [done|].
    by intros out' fs' [_ ?]; simplify_eq.
Qed.

Lemma implemented_sorts_sort_witness :
  (bubble = bubble ∨ bubble = selection ∨ bubble = insertion) ∧
  ∃ out fs,
    completes bubble [5; 3; 8; 1]%Z out fs ∧ nondecreasing out ∧
    out ≡ₚ [5; 3; 8; 1]%Z ∧
    ∀ out' fs', completes bubble [5; 3; 8; 1]%Z out' fs' → out' = out ∧ fs' = fs.
Proof.
  split; [by left|].
  apply (implemented_sorts_sort bubble [5; 3; 8; 1]%Z). by left.
Defined.

(** ** The suspended procedures and the loops agree *)

Lemma drive_mono (fuel fuel' : nat) (sl : Slice) (r : list Z * list Render) :
  drive fuel sl = Some r → fuel ≤ fuel' → drive fuel' sl = Some r.
Proof.
  revert fuel' sl r. induction fuel as [|fuel IH]; intros fuel' [[a fs] o] r; simpl.
  - destruct o; [done|]. intros ? _. by destruct fuel'.
  - destruct o as [k|]; [|intros ? _; by destruct fuel'].
    destruct (drive fuel (resume k a)) as [[r0 fs0]|] eqn:Hd; [|done].
    intros ? Hle. destruct fuel' as [|fuel']; [lia|]. simpl.
    by rewrite (IH fuel' _ _ Hd) by lia.
Qed.

Lemma drive_suspended (fuel : nat) (a r : list Z) (fs fs' : list Render) (k : Cont) :
  drive fuel (resume k a) = Some (r, fs') →
  drive (S fuel) (a, fs, Suspended k) = Some (r, fs ++ fs').
Proof. intros Hd. simpl. by rewrite Hd. Qed.

Lemma selection_from_drive (l : loc) (n k i : nat) (a : list Z) :
  k = n - 1 - i →
  ∃ fuel, drive fuel (selection_from k l n i a) = Some (selection_for k n i a).
Proof.
  revert i a. induction k as [|k IH]; intros i a Hk; simpl.
  { by exists 0. }
  unfold selection_body. case_decide as Hm.
  - destruct (IH (S i) (swap i (selection_minIndex n i a) a)) as [fuel Hd]; [lia|].
    exists (S fuel).
    destruct (selection_for k n (S i) _) as [r fs'] eqn:Hf.
    apply drive_suspended. simpl. by replace (n - 1 - S i) with k by lia.
  - destruct (IH (S i) a) as [fuel Hd]; [lia|]. exists fuel.
    by destruct (selection_for k n (S i) a) as [r fs'].
Qed.

Section InsertionPosition.

Variables (l : loc) (n i : nat) (key : Z).

(** The remaining positions agree. *)
Hypothesis rest_agrees : ∀ b,
  ∃ fuel, drive fuel (insertion_from (n - S i) l n (S i) b)
          = Some (insertion_for (n - S i) (S i) b).

Lemma insertion_after_while_drive (j1 : nat) (a : list Z) :
  ∃ fuel,
    drive fuel (insertion_after_while l n i key j1 a (insertion_from (n - S i) l n (S i))) =
    Some (let '(a2, fs') := insertion_settle j1 key a in
          let '(r, fs'') := insertion_for (n - S i) (S i) a2 in
          (r, fs' ++ fs'')).
Proof.
  unfold insertion_after_while, insertion_settle.
  destruct (a !! j1) as [y|]; [destruct (negb (y =? key)%Z)|].
  - destruct (rest_agrees (<[j1:=key]> a)) as [fuel Hd]. exists (S fuel).
    destruct (insertion_for _ _ _) as [r fs''].
    by apply drive_suspended.
  - destruct (rest_agrees a) as [fuel Hd]. exists fuel.
    by destruct (insertion_for _ _ _) as [r fs''].
  - destruct (rest_agrees a) as [fuel Hd]. exists fuel.
    by destruct (insertion_for _ _ _) as [r fs''].
Qed.

Lemma insertion_while_from_drive (j1 : nat) (a : list Z) :
  ∃ fuel,
    drive fuel (insertion_while_from l n i key j1 a (insertion_from (n - S i) l n (S i))) =
    Some (let '(r1, a1, fs) := insertion_while j1 key a in
          let '(a2, fs') := insertion_settle r1 key a1 in
          let '(r, fs'') := insertion_for (n - S i) (S i) a2 in
          (r, fs ++ fs' ++ fs'')).
Proof.
  revert a. induction j1 as [|j IH]; intros a; simpl.
  { apply insertion_after_while_drive. }
  destruct (a !! j) as [x|]; [destruct (x >? key)%Z|];
    [|apply insertion_after_while_drive..].
  destruct (IH (<[S j:=x]> a)) as [fuel Hd]. exists (S fuel).
  destruct (insertion_while j key _) as [[r1 a1] fs].
  destruct (insertion_settle r1 key a1) as [a2 fs'].
  destruct (insertion_for _ _ a2) as [r fs''].
  by apply (drive_suspended _ _ _ [_]).
Qed.

End InsertionPosition.

Lemma insertion_from_drive (l : loc) (n k i : nat) (a : list Z) :
  k = n - i →
  ∃ fuel, drive fuel (insertion_from k l n i a) = Some (insertion_for k i a).
Proof.
  revert i a. induction k as [|k IH]; intros i a Hk; simpl.
  { by exists 0. }
  assert (Hrest : ∀ b, ∃ fuel, drive fuel (insertion_from (n - S i) l n (S i) b)
                               = Some (insertion_for (n - S i) (S i) b)).
  { intros b. replace (n - S i) with k by lia. apply IH. lia. }
  unfold insertion_body. destruct (a !! i) as [key|].
  - destruct (insertion_while_from_drive l n i key Hrest i a) as [fuel Hd].
    exists fuel. replace (n - S i) with k in Hd by lia. rewrite Hd.
    destruct (insertion_while i key a) as [[r1 a1] fs].
    destruct (insertion_settle r1 key a1) as [a2 fs'].
    destruct (insertion_for k (S i) a2) as [r fs'']. by rewrite app_assoc.
  - destruct (Hrest a) as [fuel Hd]. exists fuel.
    replace (n - S i) with k in Hd by lia. rewrite Hd.
    by destruct (insertion_for k (S i) a) as [r fs''].
Qed.

(** The [for] loop up to its first swap, against the whole [for] loop. *)
Lemma bubble_for_until_swapped (k i : nat) (a a' : list Z) (sw : bool) (i' : nat) :
  bubble_for_until k i a sw = BubbleSwapped a' i' →
  i ≤ i' < i + k ∧
  bubble_for k i a sw =
    (let '(r, fs, sw') := bubble_for (i + k - S i') (S i') a' true in
     (r, mkRender bubble a' [i'; i' + 1] :: fs, sw')).
Proof.
  revert i. induction k as [|k IH]; intros i; simpl; [done|].
  assert (Hskip : bubble_for_until k (S i) a sw = BubbleSwapped a' i' →
    i ≤ i' < i + S k ∧
    bubble_for k (S i) a sw =
      (let '(r, fs, sw') := bubble_for (i + S k - S i') (S i') a' true in
       (r, mkRender bubble a' [i'; i' + 1] :: fs, sw'))).
  { intros Hu. destruct (IH (S i) Hu) as [Hi ->]. split; [lia|].
    by replace (S i + k - S i') with (i + S k - S i') by lia. }
  destruct (a !! i) as [x|]; [|done]. destruct (a !! (i + 1)) as [y|]; [|done].
  destruct (x >? y)%Z; [|done]. intros ?; simplify_eq. split; [lia|].
  by replace (i' + S k - S i') with k by lia.
Qed.

Lemma bubble_for_until_end (k i : nat) (a : list Z) (sw sw' : bool) :
  bubble_for_until k i a sw = BubbleForEnd sw' →
  sw' = sw ∧ bubble_for k i a sw = (a, [], sw).
Proof.
  revert i. induction k as [|k IH]; intros i; simpl; [by intros ?; simplify_eq|].
  destruct (a !! i) as [x|]; [|apply IH]. destruct (a !! (i + 1)) as [y|]; [|apply IH].
  destruct (x >? y)%Z; [done|apply IH].
Qed.

Lemma bubble_from_drive (l : loc) (n : nat) (fuelL i : nat) (a : list Z) (sw : bool)
    (out : list Z) (fs : list Render) :
  bubble_rest fuelL n i a sw = Some (out, fs) →
  ∃ fuel, drive fuel (bubble_from l n i sw a) = Some (out, fs).
Proof.
  revert i a sw out fs. induction fuelL as [|fuelL IHfuel].
  all: intros i a sw out fs; remember (n - 1 - i) as d eqn:Hd;
    revert i a sw out fs Hd; induction (lt_wf d) as [d _ IHd]; intros i a sw out fs ->.
  all: unfold bubble_rest, bubble_from;
    destruct (bubble_for_until (n - 1 - i) i a sw) as [a' i'|sw'] eqn:Hu.
  - destruct (bubble_for_until_swapped _ _ _ _ _ _ Hu) as [Hi ->].
    replace (i + (n - 1 - i) - S i') with (n - 1 - S i') by lia.
    intros Hr. specialize (IHd (n - 1 - S i') ltac:(lia) (S i') a' true).
    unfold bubble_rest in IHd.
    destruct (bubble_for (n - 1 - S i') (S i') a' true) as [[a1 fs1] sw1].
    destruct sw1; [done|]. injection Hr as <- <-.
    destruct (IHd a1 fs1 eq_refl eq_refl) as [fuel Hdr].
    exists (S fuel). by apply (drive_suspended _ _ _ [_]).
  - destruct (bubble_for_until_end _ _ _ _ _ Hu) as [-> ->].
    destruct sw; [done|]. intros ?; simplify_eq. by exists 0.
  - destruct (bubble_for_until_swapped _ _ _ _ _ _ Hu) as [Hi ->].
    replace (i + (n - 1 - i) - S i') with (n - 1 - S i') by lia.
    intros Hr. specialize (IHd (n - 1 - S i') ltac:(lia) (S i') a' true).
    unfold bubble_rest in IHd.
    destruct (bubble_for (n - 1 - S i') (S i') a' true) as [[a1 fs1] sw1].
    destruct sw1.
    + destruct (bubble_dowhile (S fuelL) n a1) as [[r fs2]|] eqn:Hw; [|done].
      injection Hr as <- <-.
      destruct (IHd r (fs1 ++ fs2) eq_refl eq_refl) as [fuel Hdr].
      exists (S fuel). by apply (drive_suspended _ _ _ [_]).
    + injection Hr as <- <-.
      destruct (IHd a1 fs1 eq_refl eq_refl) as [fuel Hdr].
      exists (S fuel). by apply (drive_suspended _ _ _ [_]).
  - destruct (bubble_for_until_end _ _ _ _ _ Hu) as [-> ->].
    destruct sw; [|intros ?; simplify_eq; by exists 0].
    intros Hr. simpl in Hr.
    specialize (IHfuel 0 a false). unfold bubble_rest, bubble_from in IHfuel.
    replace (n - 1 - 0) with (n - 1) in IHfuel by lia. unfold bubble_pass in Hr.
    destruct (bubble_for_until (n - 1) 0 a false) as [a' i'|sw'] eqn:Hu0.
    + apply IHfuel. destruct (bubble_for (n - 1) 0 a false) as [[a1 fs1] sw1].
      destruct sw1; [|done].
      destruct (bubble_dowhile fuelL n a1) as [[r fs2]|]; by simplify_eq.
    + destruct (bubble_for_until_end _ _ _ _ _ Hu0) as [-> Hf]. rewrite Hf in Hr.
      simplify_eq. by exists 0.
Qed.

Lemma bubbleSort_rest (fuel : nat) (a : list Z) :
  bubbleSort (S fuel) a = bubble_rest fuel (length a) 0 a false.
Proof.
  unfold bubbleSort, bubble_rest. simpl. unfold bubble_pass.
  replace (length a - 1 - 0) with (length a - 1) by lia.
  destruct (bubble_for (length a - 1) 0 a false) as [[a1 fs1] sw1].
  destruct sw1; [|done]. by destruct (bubble_dowhile fuel (length a) a1) as [[r fs2]|].
Qed.

(** The procedure of a sort type, started on an array and resumed timer
    after timer until it returns, leaves the array and makes the renders of
    the loops above, and conversely. *)
Lemma start_sort_drive (v : Variant) (l : loc) (a : list Z) (sl : Slice)
    (out : list Z) (fs : list Render) :
  start_sort v l a = Some sl →
  completes v a out fs ↔ ∃ fuel, drive fuel sl = Some (out, fs).
Proof.
  intros Hsl.
  assert (Hto : ∀ out fs, completes v a out fs → ∃ fuel, drive fuel sl = Some (out, fs)).
  { clear out fs. intros out fs [fuelL Hrun]. destruct v; simplify_eq/=.
    - destruct fuelL as [|fuelL]; [done|]. rewrite bubbleSort_rest in Hrun.
      by eapply bubble_from_drive.
    - destruct (selection_from_drive l (length a) (length a - 1) 0 a) as [fuel Hd]; [lia|].
      exists fuel. rewrite Hd. f_equal. exact Hrun.
    - destruct (insertion_from_drive l (length a) (length a - 1) 1 a) as [fuel Hd]; [lia|].
      exists fuel. rewrite Hd. f_equal. exact Hrun. }
  split; [apply Hto|]. intros [fuel Hd].
  assert (Hex : ∃ out0 fs0, completes v a out0 fs0).
  { destruct v; simplify_eq/=.
    - destruct (bubbleSort_sorts a) as (p & out0 & fs0 & Hfuel & _).
      exists out0, fs0, (S p). simpl. by rewrite Hfuel, decide_True by lia.
    - destruct (selectionSort a) as [out0 fs0] eqn:Hs. exists out0, fs0, 0. simpl. by rewrite Hs.
    - destruct (insertionSort a) as [out0 fs0] eqn:Hs. exists out0, fs0, 0. simpl. by rewrite Hs. }
  destruct Hex as (out0 & fs0 & Hc). destruct (Hto _ _ Hc) as [fuel0 Hd0].
  pose proof (drive_mono _ (fuel + fuel0) _ _ Hd ltac:(lia)) as H1.
  pose proof (drive_mono _ (fuel + fuel0) _ _ Hd0 ltac:(lia)) as H2.
  rewrite H1 in H2. by simplify_eq.
Qed.

(** ** Runs and their arrays *)

Lemma runs_own_arrays_commit (v : Variant) (l : loc) (sl : Slice) (p : Page) :
  runs_own_arrays p →
  l = array (getState v (sortStates p)) →
  (∀ k, sl.2 = Suspended k → owner k = v ∧ cont_array k = l) →
  runs_own_arrays (commit v l sl p).
Proof.
  intros (Hlt & Hinj & Hown) -> Hk. destruct sl as [[a' fs] [k|]]; simpl in *.
  - split; [|split]; simpl.
    + intros w. rewrite length_insert. apply Hlt.
    + done.
    + apply Forall_app. split; [done|]. constructor; [|done].
      destruct (Hk k eq_refl) as [-> ->]. done.
  - split; [|split]; simpl.
    + intros w. rewrite length_insert, array_setSorting. apply Hlt.
    + intros w1 w2. rewrite !array_setSorting. apply Hinj.
    + eapply Forall_impl; [exact Hown|]. intros k ?. simpl. by rewrite array_setSorting.
Qed.

Lemma runs_own_arrays_step (random : nat → float) (e : Event) (p : Page) :
  flag_counts_runs p → runs_own_arrays p → runs_own_arrays (step random e p).
Proof.
  intros Hflag Hwf. destruct e as [v|v|t]; simpl.
  - unfold clickStart. destruct (isSorting _); [done|].
    destruct (heap p !! _) as [a|] eqn:Ha; [|done].
    destruct (start_sort _ _ _) as [sl|] eqn:Hsl; [|done].
    apply runs_own_arrays_commit; simpl.
    + destruct Hwf as (Hlt & Hinj & Hown). split; [|split]; simpl.
      * intros w. rewrite array_setSorting. apply Hlt.
      * intros w1 w2. rewrite !array_setSorting. apply Hinj.
      * eapply Forall_impl; [exact Hown|]. intros k ?. simpl. by rewrite array_setSorting.
    + by rewrite array_setSorting.
    + intros k Hk. destruct sl as [[a' fs] o]. simpl in Hk. subst o.
      by eapply start_sort_owner.
  - assert (Hr : runs_own_arrays (resetArray random v p)).
    { unfold resetArray. destruct (isSorting _) eqn:Hs; [done|].
      destruct Hwf as (Hlt & Hinj & Hown). split; [|split]; simpl.
      - intros w. rewrite length_app. simpl. destruct (decide (w = v)) as [->|Hw].
        + rewrite getState_setState. simpl. lia.
        + rewrite getState_setState_ne by done. specialize (Hlt w). lia.
      - intros w1 w2.
        destruct (decide (w1 = v)) as [->|H1], (decide (w2 = v)) as [->|H2]; [done|..].
        + rewrite getState_setState, getState_setState_ne by done. simpl.
          specialize (Hlt w2). lia.
        + rewrite getState_setState, getState_setState_ne by done. simpl.
          specialize (Hlt w1). lia.
        + rewrite !getState_setState_ne by done. apply Hinj.
      - specialize (Hflag v). rewrite Hs in Hflag. unfold active in Hflag.
        apply length_zero_iff_nil in Hflag.
        apply Forall_forall. intros k Hk.
        rewrite Forall_forall in Hown. rewrite getState_setState_ne; [by apply Hown|].
        intros Ho. by apply (filter_nil_not_elem_of _ _ k Hflag). }
    by destruct v.
  - unfold timeout. destruct (timers p !! t) as [k|] eqn:Hk; [|done].
    destruct (heap p !! _) as [a|] eqn:Ha; [|done].
    destruct Hwf as (Hlt & Hinj & Hown).
    apply runs_own_arrays_commit; simpl.
    + split; [|split]; simpl; [done..|]. by apply Forall_delete.
    + rewrite Forall_forall in Hown. apply Hown. by eapply list_elem_of_lookup_2.
    + intros k' Hk'. destruct (resume k a) as [[a' fs] o] eqn:Hr. simpl in Hk'.
      subst o. by eapply resume_owner.
Qed.

Lemma runs_own_arrays_pageLoaded (random : nat → float) :
  runs_own_arrays (pageLoaded random).
Proof.
  split; [|split].
  - intros v. destruct v; simpl; lia.
  - intros v w. by destruct v, w.
  - constructor.
Qed.

(** In every reachable state each entry has an array object of its own and
    every suspended procedure works on the array its entry holds. *)
Lemma runs_own_arrays_reachable (random : nat → float) (p : Page) :
  reachable random p → runs_own_arrays p.
Proof.
  induction 1 as [|e p Hp IH].
  - apply runs_own_arrays_pageLoaded.
  - apply runs_own_arrays_step; [by eapply flag_counts_runs_reachable|done].
Qed.

(** Hence the arrays the handlers look up exist. *)
Lemma reachable_lookups (random : nat → float) (p : Page) :
  reachable random p →
  (∀ v, is_Some (arrayOf v p)) ∧
  (∀ k, k ∈ timers p → is_Some (heap p !! cont_array k)).
Proof.
  intros (Hlt & _ & Hown)%runs_own_arrays_reachable. split.
  - intros v. by apply lookup_lt_is_Some_2.
  - intros k Hk. rewrite Forall_forall in Hown. rewrite (Hown k Hk).
    by apply lookup_lt_is_Some_2.
Qed.

Lemma fire_idle (n : nat) (p : Page) : timers p = [] → fire n p = p.
Proof.
  intros Ht. induction n as [|n IH]; simpl; [done|].
  unfold timeout. by rewrite Ht.
Qed.

Lemma fire_commit (v : Variant) (l : loc) (fuel : nat) (sl : Slice) (p : Page)
    (out : list Z) (fs : list Render) :
  timers p = [] → l < length (heap p) →
  (∀ k, sl.2 = Suspended k → owner k = v ∧ cont_array k = l) →
  drive fuel sl = Some (out, fs) →
  fire fuel (commit v l sl p) =
  mkPage (<[l:=out]> (heap p)) (setSorting v false (sortStates p)) []
    (screen p ++ fs) (randomCalls p).
Proof.
  revert sl p fs. induction fuel as [|fuel IH]; intros [[a' fs0] o] [h s ts sc rc] fs;
    simpl; intros -> Hl Hk Hd.
  - destruct o; by simplify_eq.
  - destruct o as [k|]; simplify_eq/=.
    2:{ by apply fire_idle. }
    destruct (Hk k eq_refl) as [<- <-].
    destruct (drive fuel (resume k a')) as [[r fs']|] eqn:Hdr; simplify_eq.
    unfold timeout. simpl.
    rewrite list_lookup_insert_eq by done.
    rewrite (IH (resume k a') _ fs'); simpl; [|done|by rewrite length_insert| |done].
    + by rewrite list_insert_insert_eq, app_assoc.
    + intros k' Hk'. destruct (resume k a') as [[a'' fs''] o'] eqn:Hr. simpl in Hk'.
      subst o'. by eapply resume_owner.
Qed.

(** A run alone on the page.  On a page with no run in progress, a click on
    the start button of a sort type followed by its timers leaves the array
    object holding the array the loops compute, adds exactly their renders
    to the screen in their order, and ends with the flag cleared and no
    timer pending. *)
Lemma run_alone (random : nat → float) (v : Variant) (p : Page) (a out : list Z)
    (fs : list Render) :
  timers p = [] →
  isSorting (getState v (sortStates p)) = false →
  arrayOf v p = Some a →
  completes v a out fs →
  ∃ n, fire n (step random (ClickStart v) p) =
       mkPage (<[array (getState v (sortStates p)):=out]> (heap p)) (sortStates p) []
         (screen p ++ fs) (randomCalls p).
Proof.
  intros Ht Hs Ha Hc. unfold arrayOf in Ha. simpl. unfold clickStart. rewrite Hs, Ha.
  destruct (start_sort v (array (getState v (sortStates p))) a) as [sl|] eqn:Hsl.
  2:{ destruct Hc as [fuel Hc]. by destruct v. }
  destruct (proj1 (start_sort_drive v _ a sl out fs Hsl) Hc) as [fuel Hd]. exists fuel.
  rewrite (fire_commit v _ fuel sl _ out fs); simpl; [|done|by eapply lookup_lt_Some| |done].
  - f_equal. unfold setSorting. rewrite getState_setState. simpl.
    rewrite <- Hs. destruct v, (sortStates p) as [[] [] [] [] []]; reflexivity.
  - intros k Hk. destruct sl as [[a' fs'] o]. simpl in Hk. subst o.
    by eapply start_sort_owner.
Qed.

(** ** What a run renders *)

Lemma shows_result_app (a b c : list Z) (fs1 fs2 : list Render) :
  shows_result a b fs1 → shows_result b c fs2 → shows_result a c (fs1 ++ fs2).
Proof.
  unfold shows_result. rewrite last_app. destruct (last fs2); [done|].
  intros H1 ->. exact H1.
Qed.

Lemma shows_result_cons (a r : list Z) (f : Render) (fs : list Render) :
  shows_result (bars f) r fs → shows_result a r (f :: fs).
Proof. intros H. by apply (shows_result_app a (bars f) r [f] fs). Qed.

Lemma bubble_for_frames (k i : nat) (a : list Z) (sw : bool) :
  shows_result a (bubble_for k i a sw).1.1 (bubble_for k i a sw).1.2 ∧
  Forall (λ f, frame_ok bubble (length a) f ∧ bars f ≡ₚ a) (bubble_for k i a sw).1.2.
Proof.
  revert i a sw. induction k as [|k IH]; intros i a sw; simpl; [by split|].
  destruct (a !! i) as [x|] eqn:Hx; [|apply IH].
  destruct (a !! (i + 1)) as [y|] eqn:Hy; [|apply IH].
  destruct (x >? y)%Z; [|apply IH].
  destruct (IH (S i) (swap i (i + 1) a) true) as [Hshow Hframes].
  destruct (bubble_for k (S i) (swap i (i + 1) a) true) as [[r fs] sw']. simpl in *.
  apply lookup_lt_Some in Hx, Hy.
  split; [by apply shows_result_cons|]. constructor.
  - split; [|apply swap_Permutation]. split; [done|]. simpl.
    split; [apply swap_length|]. split; [repeat constructor; lia|].
    split; [|lia]. apply NoDup_cons. split; [|apply NoDup_singleton].
    rewrite list_elem_of_singleton. lia.
  - eapply Forall_impl; [exact Hframes|]. intros f [Hok Hperm].
    rewrite swap_length in Hok. split; [done|]. by rewrite Hperm, swap_Permutation.
Qed.

Lemma bubble_dowhile_frames (fuel : nat) (a out : list Z) (fs : list Render) :
  bubble_dowhile fuel (length a) a = Some (out, fs) →
  shows_result a out fs ∧ Forall (λ f, frame_ok bubble (length a) f ∧ bars f ≡ₚ a) fs.
Proof.
  remember (length a) as n eqn:Hn. revert a out fs Hn.
  induction fuel as [|fuel IH]; intros a out fs Hn; simpl; [done|]. unfold bubble_pass.
  destruct (bubble_for_frames (n - 1) 0 a false) as [Hshow Hframes].
  destruct (bubble_for_swaps (n - 1) 0 a false) as (a1 & fs1 & sw1 & Hf & _ & Hperm & _).
  rewrite Hf in *. simpl in *. rewrite <- Hn in Hframes.
  destruct sw1; [|by intros ?; simplify_eq].
  destruct (bubble_dowhile fuel n a1) as [[r fs2]|] eqn:Hw; [|done].
  intros ?; simplify_eq.
  destruct (IH a1 out fs2) as [Hshow2 Hframes2]; [by rewrite (Permutation_length Hperm)|done|].
  split; [by eapply shows_result_app|]. apply Forall_app. split; [done|].
  eapply Forall_impl; [exact Hframes2|]. intros f [Hok Hp]. split; [done|].
  by rewrite Hp.
Qed.

Lemma selection_for_frames (k i : nat) (a : list Z) :
  i + k ≤ length a →
  shows_result a (selection_for k (length a) i a).1 (selection_for k (length a) i a).2 ∧
  Forall (λ f, frame_ok selection (length a) f ∧ bars f ≡ₚ a)
    (selection_for k (length a) i a).2.
Proof.
  revert i a. induction k as [|k IH]; intros i a Hk; simpl; [by split|].
  destruct (selection_minIndex_least i a ltac:(lia))
    as (m & x & y & Hs & Hm & Hx & Hy & _).
  unfold selection_body. rewrite Hs. case_decide as Hmi.
  - specialize (IH (S i) (swap i m a)). rewrite swap_length in IH.
    destruct (IH ltac:(lia)) as [Hshow Hframes].
    destruct (selection_for k (length a) (S i) (swap i m a)) as [r fs]. simpl in *.
    split; [by apply shows_result_cons|]. constructor.
    + split; [|apply swap_Permutation]. split; [done|]. simpl.
      split; [apply swap_length|]. split; [repeat constructor; lia|].
      split; [|lia]. apply NoDup_cons. split; [|apply NoDup_singleton].
      rewrite list_elem_of_singleton. done.
    + eapply Forall_impl; [exact Hframes|]. intros f [Hok Hp]. split; [done|].
      by rewrite Hp, swap_Permutation.
  - destruct (IH (S i) a ltac:(lia)) as [Hshow Hframes].
    by destruct (selection_for k (length a) (S i) a) as [r fs].
Qed.

Lemma insertion_while_frames (j1 : nat) (key : Z) (a : list Z) :
  j1 < length a →
  length (insertion_while j1 key a).1.2 = length a ∧
  (insertion_while j1 key a).1.1 ≤ j1 ∧
  shows_result a (insertion_while j1 key a).1.2 (insertion_while j1 key a).2 ∧
  Forall (frame_ok insertion (length a)) (insertion_while j1 key a).2.
Proof.
  revert a. induction j1 as [|j IH]; intros a Hj; simpl; [by repeat split|].
  destruct (a !! j) as [x|]; [|by repeat split].
  destruct (x >? key)%Z; [|by repeat split].
  specialize (IH (<[S j:=x]> a)). rewrite length_insert in IH.
  destruct (IH ltac:(lia)) as (Hlen & Hle & Hshow & Hframes).
  destruct (insertion_while j key (<[S j:=x]> a)) as [[r1 r] fs]. simpl in *.
  split; [done|]. split; [lia|]. split; [by apply shows_result_cons|].
  constructor; [|done]. split; [done|]. simpl. split; [apply length_insert|].
  split; [repeat constructor; lia|]. split; [|lia].
  apply NoDup_cons. split; [|apply NoDup_singleton]. rewrite list_elem_of_singleton. lia.
Qed.

Lemma insertion_body_frames (i : nat) (a : list Z) :
  length (insertion_body i a).1 = length a ∧
  shows_result a (insertion_body i a).1 (insertion_body i a).2 ∧
  Forall (frame_ok insertion (length a)) (insertion_body i a).2.
Proof.
  unfold insertion_body. destruct (a !! i) as [key|] eqn:Hkey; [|by repeat split].
  destruct (insertion_while_frames i key a) as (Hlen & Hle & Hshow & Hframes).
  { by eapply lookup_lt_Some. }
  destruct (insertion_while i key a) as [[r1 a1] fs]. simpl in *.
  unfold insertion_settle. destruct (a1 !! r1) as [y|] eqn:Hy.
  2:{ simpl. rewrite app_nil_r. by repeat split. }
  destruct (negb (y =? key)%Z); simpl.
  - split; [by rewrite length_insert|]. split.
    + eapply shows_result_app; [exact Hshow|]. done.
    + apply Forall_app. split; [done|]. constructor; [|done].
      split; [done|]. simpl. split; [by rewrite length_insert|].
      apply lookup_lt_Some in Hy. rewrite Hlen in Hy.
      split; [by repeat constructor|]. split; [apply NoDup_singleton|lia].
  - rewrite app_nil_r. by repeat split.
Qed.

Lemma insertion_for_frames (k i : nat) (a : list Z) :
  shows_result a (insertion_for k i a).1 (insertion_for k i a).2 ∧
  Forall (frame_ok insertion (length a)) (insertion_for k i a).2.
Proof.
  revert i a. induction k as [|k IH]; intros i a; simpl; [by split|].
  destruct (insertion_body_frames i a) as (Hlen & Hshow & Hframes).
  destruct (insertion_body i a) as [a' fs]. simpl in *.
  destruct (IH (S i) a') as [Hshow' Hframes']. rewrite Hlen in Hframes'.
  destruct (insertion_for k (S i) a') as [r fs']. simpl in *.
  split; [by eapply shows_result_app|]. by apply Forall_app.
Qed.

Lemma completes_frames (v : Variant) (a out : list Z) (fs : list Render) :
  completes v a out fs →
  shows_result a out fs ∧ Forall (frame_ok v (length a)) fs ∧
  (v ≠ insertion → Forall (λ f, bars f ≡ₚ a) fs).
Proof.
  intros [fuel Hrun]. destruct v; simpl in Hrun; [| | |done..].
  - destruct (bubble_dowhile_frames fuel a out fs Hrun) as [Hshow Hframes].
    split; [done|]. split; [|intros _]; (eapply Forall_impl; [exact Hframes|]); by intros f [??].
  - injection Hrun as Hrun. unfold selectionSort in Hrun.
    destruct (selection_for_frames (length a - 1) 0 a ltac:(lia)) as [Hshow Hframes].
    rewrite Hrun in *. simpl in *.
    split; [done|]. split; [|intros _]; (eapply Forall_impl; [exact Hframes|]); by intros f [??].
  - injection Hrun as Hrun. unfold insertionSort in Hrun.
    destruct (insertion_for_frames (length a - 1) 1 a) as [Hshow Hframes].
    rewrite Hrun in *. by split.
Qed.

(** X1. A completed run of a sort type renders after its last change to
    the array: if the run made a render, the last one shows the array the
    run leaves, and if it made none it left the array untouched. *)
Theorem last_render_shows_result (v : Variant) (a out : list Z) (fs : list Render) :
  completes v a out fs →
  match last fs with
  | Some f => bars f = out
  | None => out = a
  end.
Proof. intros Hc. by destruct (completes_frames v a out fs Hc) as [Hshow _]. Qed.

Lemma last_render_shows_result_witness :
  completes insertion [5; 3; 8; 1]%Z [1; 3; 5; 8]%Z (insertionSort [5; 3; 8; 1]%Z).2 ∧
  match last (insertionSort [5; 3; 8; 1]%Z).2 with
  | Some f => bars f = [1; 3; 5; 8]%Z
  | None => [1; 3; 5; 8]%Z = [5; 3; 8; 1]%Z
  end.
Proof.
  assert (Hc : completes insertion [5; 3; 8; 1]%Z [1; 3; 5; 8]%Z
                 (insertionSort [5; 3; 8; 1]%Z).2) by (by exists 0).
  split; [exact Hc|].
  exact (last_render_shows_result insertion _ _ _ Hc).
Defined.

(** X2. Every render of a completed run names the sort type of the run,
    shows an array as long as the input and highlights one or two different
    positions inside it; the arrays bubble sort and selection sort show are
    permutations of the input (insertion sort also shows arrays with an
    element doubled). *)
Theorem renders_well_formed (v : Variant) (a out : list Z) (fs : list Render) :
  completes v a out fs →
  Forall (λ f, target f = v ∧ length (bars f) = length a ∧
               Forall (λ i, i < length a) (highlights f) ∧
               NoDup (highlights f) ∧ 1 ≤ length (highlights f) ≤ 2) fs ∧
  (v ≠ insertion → Forall (λ f, bars f ≡ₚ a) fs).
Proof. intros Hc. by destruct (completes_frames v a out fs Hc) as (_ & ? & ?). Qed.

Lemma renders_well_formed_witness :
  completes bubble [5; 3; 8; 1]%Z [1; 3; 5; 8]%Z
    (default [] (snd <$> bubbleSort 4 [5; 3; 8; 1]%Z)) ∧
  Forall (λ f, bars f ≡ₚ [5; 3; 8; 1]%Z)
    (default [] (snd <$> bubbleSort 4 [5; 3; 8; 1]%Z)).
Proof.
  assert (Hc : completes bubble [5; 3; 8; 1]%Z [1; 3; 5; 8]%Z
                 (default [] (snd <$> bubbleSort 4 [5; 3; 8; 1]%Z))) by (by exists 4).
  split; [exact Hc|].
  exact (proj2 (renders_well_formed bubble _ _ _ Hc) ltac:(done)).
Defined.

(** ** How many renders *)

Lemma inversions_sorted (a : list Z) : nondecreasing a ↔ inversions a = 0.
Proof.
  rewrite nondecreasing_StronglySorted. split.
  - induction 1 as [|x a Hs IH Hx]; simpl; [done|]. rewrite IH, Nat.add_0_r.
    apply length_zero_iff_nil. clear Hs IH.
    induction Hx as [|y a Hy Hx IHx]; [done|].
    by rewrite filter_cons, decide_False by lia.
  - induction a as [|x a IH]; simpl; intros H0; constructor.
    + apply IH. lia.
    + assert (Hnil : filter (λ y, (y < x)%Z) a = []) by (apply length_zero_iff_nil; lia).
      apply Forall_forall. intros y Hy.
      destruct (decide (y < x)%Z) as [Hlt|]; [|lia].
      by apply (filter_nil_not_elem_of _ _ y Hnil) in Hlt.
Qed.

(** Moving a key to the left past elements that are all greater removes one
    inversion per element passed. *)
Lemma inversions_move_left (la lb l2 : list Z) (key : Z) :
  Forall (λ x, (key < x)%Z) lb →
  inversions (la ++ key :: lb ++ l2) + length lb = inversions (la ++ lb ++ key :: l2).
Proof.
  intros Hlb. revert la. induction Hlb as [|y lb Hy Hlb IH]; intros la; simpl; [lia|].
  specialize (IH (la ++ [y])). rewrite <- !app_assoc in IH. simpl in IH.
  rewrite <- IH. rewrite <- (inversions_adjacent la (lb ++ l2) y key) by done. lia.
Qed.

(** The body at position [i]: the array it leaves and how many renders it
    makes, one per element passed and one more if any was passed. *)
Lemma insertion_body_shape (i : nat) (key : Z) (a : list Z) :
  a !! i = Some key →
  ∃ la lb fs,
    take i a = la ++ lb ∧ Forall (λ x, (key < x)%Z) lb ∧
    insertion_body i a = (la ++ key :: lb ++ drop (S i) a, fs) ∧
    length fs = length lb + (if lb is [] then 0 else 1).
Proof.
  intros Hkey.
  assert (Hl : length (take i a) = i).
  { apply length_take_le. apply lookup_lt_Some in Hkey. lia. }
  destruct (insertion_while_split key key (take i a) (drop (S i) a))
    as (la & lb & h' & fs & Hsplit & Hw & Hlb & _).
  rewrite Hl, (take_drop_middle a i key Hkey) in Hw.
  destruct (insertion_while_shifts i key a)
    as (r1 & a1 & fs1 & Hw1 & Hle & Hlen & _ & Hsame & Hcopy).
  rewrite Hw in Hw1. injection Hw1 as <- <- <-.
  assert (Hi : i = length la + length lb) by by rewrite <- Hl, Hsplit, length_app.
  assert (Hh : (la ++ h' :: lb ++ drop (S i) a) !! length la = Some h')
    by by apply list_lookup_middle.
  exists la, lb. unfold insertion_body, insertion_settle. rewrite Hkey, Hw, Hh.
  destruct lb as [|y lb].
  - rewrite app_nil_r in Hsplit. rewrite Nat.add_0_r in Hi.
    specialize (Hsame (eq_sym Hi)). rewrite Hsame, <- Hi, Hkey in Hh.
    injection Hh as <-. rewrite Z.eqb_refl. simpl. eexists. split; [by rewrite app_nil_r|].
    split; [done|]. split; [rewrite app_nil_r; reflexivity|]. simpl in Hlen. lia.
  - destruct (Hcopy ltac:(simpl in Hi; lia)) as (x & Hx & Hgt).
    rewrite Hh in Hx. injection Hx as ->.
    destruct (x =? key)%Z eqn:Heq; [lia|]. simpl.
    rewrite insert_app_r_alt, Nat.sub_diag by lia. simpl.
    eexists. split; [done|]. split; [done|]. split; [reflexivity|].
    rewrite length_app. simpl in *. lia.
Qed.

Lemma insertion_body_count (i : nat) (a : list Z) :
  ∃ s, inversions (insertion_body i a).1 + s = inversions a ∧
       s ≤ length (insertion_body i a).2 ≤ 2 * s.
Proof.
  destruct (a !! i) as [key|] eqn:Hkey.
  - destruct (insertion_body_shape i key a Hkey) as (la & lb & fs & Hsplit & Hlb & -> & Hlen).
    exists (length lb). simpl. split.
    + rewrite <- (take_drop_middle a i key Hkey) at 2. rewrite Hsplit, <- app_assoc.
      by apply inversions_move_left.
    + destruct lb; simpl in *; lia.
  - exists 0. unfold insertion_body. rewrite Hkey. simpl. lia.
Qed.

Lemma insertion_for_count (k i : nat) (a : list Z) :
  ∃ s, inversions (insertion_for k i a).1 + s = inversions a ∧
       s ≤ length (insertion_for k i a).2 ≤ 2 * s.
Proof.
  revert i a. induction k as [|k IH]; intros i a; simpl.
  { exists 0. simpl. lia. }
  destruct (insertion_body_count i a) as (s1 & Hinv1 & Hlen1).
  destruct (insertion_body i a) as [a' fs]. simpl in *.
  destruct (IH (S i) a') as (s2 & Hinv2 & Hlen2).
  destruct (insertion_for k (S i) a') as [r fs']. simpl in *.
  exists (s1 + s2). rewrite length_app. lia.
Qed.

(** X3. The number of renders of a run: bubble sort makes exactly as many
    as the input has inversions (pairs of positions out of order), one per
    swap; insertion sort makes at least that many (one per shift) and at
    most twice that many (one settle render per position that shifted);
    selection sort makes at most one per position, [n - 1] in all. *)
Theorem render_counts (a : list Z) :
  (∀ fuel out fs, bubbleSort fuel a = Some (out, fs) → length fs = inversions a) ∧
  inversions a ≤ length (insertionSort a).2 ≤ 2 * inversions a ∧
  length (selectionSort a).2 ≤ length a - 1.
Proof.
  split; [|split].
  - intros fuel out fs Hrun.
    destruct (bubble_dowhile_passes (length a) a)
      as (p & fs0 & _ & _ & _ & _ & Hinv & Hfuel).
    destruct (bubbleSort_sorts a) as (p' & out' & fs' & Hfuel' & Hs & _).
    specialize (Hfuel' (S (p + p'))). unfold bubbleSort in *.
    rewrite Hfuel in Hrun. rewrite Hfuel, !decide_True in Hfuel' by lia.
    case_decide; [|done]. simplify_eq. apply inversions_sorted in Hs. lia.
  - destruct (insertion_for_count (length a - 1) 1 a) as (s & Hinv & Hlen).
    destruct (insertionSort_sorts a) as [Hs _]. apply inversions_sorted in Hs.
    unfold insertionSort in *. lia.
  - unfold selectionSort. rewrite selection_for_renders.
    etrans; [apply length_filter|]. by rewrite length_seq.
Qed.

(** X4. A completed run of a sort type makes no render at all exactly when
    the array it starts on is already non-decreasing. *)
Theorem no_render_iff_sorted (v : Variant) (a out : list Z) (fs : list Render) :
  completes v a out fs → (fs = [] ↔ nondecreasing a).
Proof.
  intros Hc. split.
  - intros ->. destruct (completes_frames v a out [] Hc) as [Hshow _].
    unfold shows_result in Hshow. simpl in Hshow. subst out.
    destruct Hc as [fuel Hrun]. destruct v; simpl in Hrun; [| | |done..].
    + destruct (bubbleSort_sorts a) as (p & out' & fs' & Hfuel & Hs & _).
      rewrite Hfuel in Hrun. case_decide; by simplify_eq.
    + destruct (selectionSort_sorts a) as [Hs _]. injection Hrun as Hrun.
      by rewrite Hrun in Hs.
    + destruct (insertionSort_sorts a) as [Hs _]. injection Hrun as Hrun.
      by rewrite Hrun in Hs.
  - intros Ha. destruct Hc as [fuel Hrun]. destruct v; simpl in Hrun; [| | |done..].
    + destruct fuel as [|fuel]; [done|]. unfold bubbleSort in Hrun. simpl in Hrun.
      unfold bubble_pass in Hrun. rewrite bubble_for_sorted in Hrun by done.
      by simplify_eq.
    + unfold selectionSort in Hrun. rewrite selection_for_sorted in Hrun by done.
      by simplify_eq.
    + unfold insertionSort in Hrun. rewrite insertion_for_sorted in Hrun by done.
      by simplify_eq.
Qed.

Lemma no_render_iff_sorted_witness :
  completes selection [5; 3; 8; 1]%Z (selectionSort [5; 3; 8; 1]%Z).1
    (selectionSort [5; 3; 8; 1]%Z).2 ∧
  ((selectionSort [5; 3; 8; 1]%Z).2 = [] ↔ nondecreasing [5; 3; 8; 1]%Z).
Proof.
  assert (Hc : completes selection [5; 3; 8; 1]%Z (selectionSort [5; 3; 8; 1]%Z).1
                 (selectionSort [5; 3; 8; 1]%Z).2) by (by exists 0).
  split; [exact Hc|]. exact (no_render_iff_sorted selection _ _ _ Hc).
Defined.

(** ** Slices *)

Lemma bubble_for_until_swap (k i : nat) (a a' : list Z) (sw : bool) (i' : nat) :
  bubble_for_until k i a sw = BubbleSwapped a' i' → a' = swap i' (i' + 1) a.
Proof.
  revert i. induction k as [|k IH]; intros i; simpl; [done|].
  destruct (a !! i) as [x|]; [|apply IH]. destruct (a !! (i + 1)) as [y|]; [|apply IH].
  destruct (x >? y)%Z; [|apply IH]. by intros ?; simplify_eq.
Qed.

Lemma swap_slice_ok (P : Z → Prop) (v : Variant) (i j : nat) (a : list Z)
    (hl : list nat) (k : Cont) :
  cont_key_ok P k →
  slice_ok P v a (swap i j a, [mkRender v (swap i j a) hl], Suspended k).
Proof.
  intros Hk. unfold slice_ok. simpl. split; [apply swap_length|].
  split; [right; by exists hl|].
  intros HP. split; [by rewrite swap_Permutation|]. by intros ? [= <-].
Qed.

Lemma returned_slice_ok (P : Z → Prop) (v : Variant) (a : list Z) :
  slice_ok P v a (a, [], Returned).
Proof. split; [done|]. split; [by left|]. by intros HP. Qed.

Lemma bubble_from_ok (P : Z → Prop) (l : loc) (n i : nat) (sw : bool) (a : list Z) :
  slice_ok P bubble a (bubble_from l n i sw a).
Proof.
  unfold bubble_from, bubble_await.
  destruct (bubble_for_until _ i a sw) as [a' i'|[]] eqn:Hu.
  - rewrite (bubble_for_until_swap _ _ _ _ _ _ Hu). by apply swap_slice_ok.
  - destruct (bubble_for_until _ 0 a false) as [a' i'|] eqn:Hu0.
    + rewrite (bubble_for_until_swap _ _ _ _ _ _ Hu0). by apply swap_slice_ok.
    + apply returned_slice_ok.
  - apply returned_slice_ok.
Qed.

Lemma selection_from_ok (P : Z → Prop) (k : nat) (l : loc) (n i : nat) (a : list Z) :
  slice_ok P selection a (selection_from k l n i a).
Proof.
  revert i. induction k as [|k IH]; intros i; simpl; [apply returned_slice_ok|].
  case_decide; [by apply swap_slice_ok|apply IH].
Qed.

Section InsertionSlices.

Variables (P : Z → Prop) (l : loc) (n i : nat) (key : Z) (rest : list Z → Slice).
Hypothesis rest_ok : ∀ b, slice_ok P insertion b (rest b).

Lemma rest_ok_holding (a : list Z) : slice_ok_holding P key a (rest a).
Proof.
  destruct (rest_ok a) as (? & ? & HP). split; [done|]. split; [done|]. by intros ? _; apply HP.
Qed.

Lemma insertion_after_while_ok (j1 : nat) (a : list Z) :
  slice_ok_holding P key a (insertion_after_while l n i key j1 a rest).
Proof.
  unfold insertion_after_while. destruct (a !! j1) as [y|]; [|apply rest_ok_holding].
  destruct (negb _); [|apply rest_ok_holding]. unfold slice_ok_holding. simpl.
  split; [apply length_insert|]. split; [right; by eexists|].
  intros HP Hkey. split; [by apply Forall_insert|]. by intros ? [= <-].
Qed.

Lemma insertion_while_from_ok (j1 : nat) (a : list Z) :
  slice_ok_holding P key a (insertion_while_from l n i key j1 a rest).
Proof.
  unfold insertion_while_from. destruct j1 as [|j]; [apply insertion_after_while_ok|].
  destruct (a !! j) as [x|] eqn:Hx; [|apply insertion_after_while_ok].
  destruct (_ >? _)%Z; [|apply insertion_after_while_ok].
  unfold slice_ok_holding. simpl.
  split; [apply length_insert|]. split; [right; by eexists|].
  intros HP Hkey. split.
  - apply Forall_insert; [done|]. by eapply Forall_lookup_1.
  - by intros ? [= <-].
Qed.

End InsertionSlices.

Lemma insertion_from_ok (P : Z → Prop) (k : nat) (l : loc) (n i : nat) (a : list Z) :
  slice_ok P insertion a (insertion_from k l n i a).
Proof.
  revert i a. induction k as [|k IH]; intros i a; simpl; [apply returned_slice_ok|].
  destruct (a !! i) as [key|] eqn:Hkey; [|apply IH].
  destruct (insertion_while_from_ok P l n i key (insertion_from k l n (S i))
              (λ b, IH (S i) b) i a) as (Hlen & Hrender & HP).
  split; [done|]. split; [done|]. intros Ha. apply HP; [done|].
  by eapply Forall_lookup_1.
Qed.

Lemma start_sort_ok (P : Z → Prop) (v : Variant) (l : loc) (a : list Z) (sl : Slice) :
  start_sort v l a = Some sl → slice_ok P v a sl.
Proof.
  destruct v; simpl; intros ?; simplify_eq.
  - apply bubble_from_ok.
  - apply selection_from_ok.
  - apply insertion_from_ok.
Qed.

Lemma resume_ok (P : Z → Prop) (k : Cont) (a : list Z) :
  length (resume k a).1.1 = length a ∧
  (((resume k a).1.2 = [] ∧ (resume k a).1.1 = a ∧ (resume k a).2 = Returned) ∨
   ∃ hl, (resume k a).1.2 = [mkRender (owner k) (resume k a).1.1 hl]) ∧
  (Forall P a → cont_key_ok P k →
   Forall P (resume k a).1.1 ∧ ∀ k', (resume k a).2 = Suspended k' → cont_key_ok P k').
Proof.
  destruct k as [l n i|l n i|l n i key j|l n i]; simpl.
  - destruct (bubble_from_ok P l n (S i) true a) as (Hl & Hr & HP).
    split; [done|]. split; [done|]. by intros ? _; apply HP.
  - destruct (selection_from_ok P (n - 1 - S i) l n (S i) a) as (Hl & Hr & HP).
    split; [done|]. split; [done|]. by intros ? _; apply HP.
  - apply (insertion_while_from_ok P l n i key (insertion_from (n - S i) l n (S i))
             (λ b, insertion_from_ok P _ l n (S i) b) j a).
  - destruct (insertion_from_ok P (n - S i) l n (S i) a) as (Hl & Hr & HP).
    split; [done|]. split; [done|]. by intros ? _; apply HP.
Qed.

(** ** The page: arrays, screen, sort types *)

Lemma getState_setSorting_ne (v w : Variant) (b : bool) (s : SortStates) :
  v ≠ w → getState v (setSorting w b s) = getState v s.
Proof. intros Hv. unfold setSorting. by rewrite getState_setState_ne. Qed.

(** What a committed slice of [w] leaves alone. *)
Lemma commit_other (v w : Variant) (l : loc) (sl : Slice) (q : Page) :
  v ≠ w →
  l = array (getState w (sortStates q)) →
  (∀ v1 v2, array (getState v1 (sortStates q)) = array (getState v2 (sortStates q)) →
            v1 = v2) →
  (∀ k, sl.2 = Suspended k → owner k = w) →
  Forall (λ f, target f = w) sl.1.2 →
  getState v (sortStates (commit w l sl q)) = getState v (sortStates q) ∧
  arrayOf v (commit w l sl q) = arrayOf v q ∧
  active v (commit w l sl q) = active v q ∧
  filter (λ f, target f = v) (screen (commit w l sl q)) =
    filter (λ f, target f = v) (screen q).
Proof.
  intros Hvw -> Hinj Hown Htarget. destruct sl as [[a' fs] o]. simpl in *.
  assert (Hl : array (getState w (sortStates q)) ≠ array (getState v (sortStates q))).
  { intros Heq. apply Hvw. symmetry. by apply Hinj. }
  assert (Hfs : filter (λ f, target f = v) (screen q ++ fs)
                = filter (λ f, target f = v) (screen q)).
  { rewrite filter_app. replace (filter (λ f, target f = v) fs) with (@nil Render).
    - by rewrite app_nil_r.
    - symmetry. clear -Htarget Hvw. induction Htarget as [|f fs Hf _ IH]; [done|].
      rewrite filter_cons, decide_False by congruence. done. }
  destruct o as [k|]; unfold arrayOf, active; simpl.
  - split; [done|]. split; [by rewrite list_lookup_insert_ne|]. split; [|done].
    rewrite filter_app, filter_cons, decide_False, filter_nil, app_nil_r; [done|].
    rewrite (Hown k eq_refl). congruence.
  - rewrite getState_setSorting_ne by done.
    split; [done|]. split; [by rewrite list_lookup_insert_ne|]. done.
Qed.

Lemma screen_in_sync_commit (w : Variant) (l : loc) (sl : Slice) (q : Page) (a : list Z) :
  l = array (getState w (sortStates q)) →
  (∀ v1 v2, array (getState v1 (sortStates q)) = array (getState v2 (sortStates q)) →
            v1 = v2) →
  heap q !! l = Some a →
  (∀ k, sl.2 = Suspended k → owner k = w) →
  ((sl.1.2 = [] ∧ sl.1.1 = a ∧ sl.2 = Returned) ∨ ∃ hl, sl.1.2 = [mkRender w sl.1.1 hl]) →
  screen_in_sync q → screen_in_sync (commit w l sl q).
Proof.
  intros Hl Hinj Ha Hown Hrender Hsync v. destruct (decide (v = w)) as [->|Hvw].
  - subst l. destruct sl as [[a' fs] o]. simpl in *.
    assert (Harr : ∀ o', arrayOf w (commit w (array (getState w (sortStates q)))
                                     (a', fs, o') q) = Some a').
    { intros o'. unfold arrayOf. destruct o'; simpl; rewrite ?array_setSorting;
        apply list_lookup_insert_eq; by eapply lookup_lt_Some. }
    destruct Hrender as [(-> & -> & ->)|[hl ->]].
    + destruct (Hsync w) as (f & Hf & Hb). exists f. split.
      * unfold shown in *. simpl. by rewrite app_nil_r.
      * pose proof (Harr Returned) as Hr. simpl in Hr. rewrite Hr.
        unfold arrayOf in Hb. congruence.
    + exists (mkRender w a' hl). split; [|apply Harr].
      unfold shown. destruct o; simpl;
        by rewrite filter_app, filter_cons, decide_True, filter_nil, last_snoc.
  - destruct (commit_other v w l sl q Hvw Hl Hinj Hown) as (_ & Harr & _ & Hscr).
    { destruct Hrender as [(-> & _)|[hl ->]]; by repeat constructor. }
    destruct (Hsync v) as (f & Hf & Hb). exists f. unfold shown in *.
    by rewrite Hscr, Harr.
Qed.

Lemma values_in_range_commit (w : Variant) (l : loc) (sl : Slice) (q : Page) :
  Forall in_range sl.1.1 →
  (∀ k, sl.2 = Suspended k → cont_key_ok in_range k) →
  values_in_range q → values_in_range (commit w l sl q).
Proof.
  intros Ha' Hk [Hheap Hkeys]. destruct sl as [[a' fs] o]. simpl in *.
  assert (Hh : ∀ l0 a0, <[l:=a']> (heap q) !! l0 = Some a0 → Forall in_range a0).
  { intros l0 a0. rewrite list_lookup_insert. case_decide; [by intros [= <-]|apply Hheap]. }
  destruct o as [k|]; split; simpl; [done| |done..].
  apply Forall_app. split; [done|]. constructor; [by apply Hk|done].
Qed.

Lemma arrays_full_commit (w : Variant) (l : loc) (sl : Slice) (q : Page) (a : list Z) :
  heap q !! l = Some a → length sl.1.1 = length a →
  arrays_full q → arrays_full (commit w l sl q).
Proof.
  intros Ha Hlen Hfull v. destruct (Hfull v) as (b & Hb & Hbl).
  destruct sl as [[a' fs] o]. unfold arrayOf in *. simpl in *.
  assert (Hh : ∃ b', <[l:=a']> (heap q) !! array (getState v (sortStates q)) = Some b'
                     ∧ length b' = ARRAY_SIZE).
  { rewrite list_lookup_insert. case_decide as Hc; [|by exists b].
    destruct Hc as [-> _]. exists a'. split; [done|]. congruence. }
  destruct o; simpl; by rewrite ?array_setSorting.
Qed.

Section PageInvariants.

Variable random : nat → float.

Lemma values_in_range_resetArray (v : Variant) (p : Page) :
  (∀ k, (0 <=? random k)%float = true ∧ (random k <? 1)%float = true) →
  values_in_range p → values_in_range (resetArray random v p).
Proof.
  intros Hr [Hheap Hkeys]. unfold resetArray. destruct (isSorting _); [done|].
  split; simpl; [|done]. intros l a. rewrite lookup_app_Some.
  intros [Hl|[_ Hl]]; [by eapply Hheap|].
  apply list_lookup_singleton_Some in Hl as [_ <-].
  by apply generateFrom_range.
Qed.

Lemma values_in_range_reachable (p : Page) :
  (∀ k, (0 <=? random k)%float = true ∧ (random k <? 1)%float = true) →
  reachable random p → values_in_range p.
Proof.
  intros Hr. induction 1 as [|e p Hp IH].
  - unfold pageLoaded, initializeVisualizations. simpl.
    do 5 (apply values_in_range_resetArray; [done|]).
    split; [|constructor]. intros l a Hl.
    do 5 (destruct l as [|l]; [by simplify_eq/=|]). done.
  - destruct e as [v|v|t]; simpl.
    + unfold clickStart. destruct (isSorting _); [done|].
      destruct (heap p !! _) as [a|] eqn:Ha; [|done].
      destruct (start_sort _ _ _) as [sl|] eqn:Hsl; [|done].
      destruct (start_sort_ok in_range _ _ _ _ Hsl) as (_ & _ & HP).
      destruct IH as [Hheap Hkeys]. destruct (HP (Hheap _ _ Ha)) as [Ha' Hk].
      by apply values_in_range_commit.
    + destruct v; simpl; try done; by apply values_in_range_resetArray.
    + unfold timeout. destruct (timers p !! t) as [k|] eqn:Hk; [|done].
      destruct (heap p !! _) as [a|] eqn:Ha; [|done].
      destruct IH as [Hheap Hkeys].
      destruct (resume_ok in_range k a) as (_ & _ & HP).
      destruct (HP (Hheap _ _ Ha)) as [Ha' Hk'].
      { eapply Forall_lookup_1; [exact Hkeys|exact Hk]. }
      apply values_in_range_commit; [done..|]. split; [done|]. by apply Forall_delete.
Qed.

Lemma arrays_full_resetArray (v : Variant) (p : Page) :
  arrays_full p → arrays_full (resetArray random v p).
Proof.
  intros Hfull w. unfold resetArray. destruct (isSorting _); [apply Hfull|].
  unfold arrayOf. simpl. destruct (decide (w = v)) as [->|Hw].
  - rewrite getState_setState. simpl. eexists. split.
    + by rewrite lookup_app_r, Nat.sub_diag.
    + apply generateFrom_length.
  - rewrite getState_setState_ne by done. destruct (Hfull w) as (a & Ha & Hl).
    exists a. split; [|done]. rewrite lookup_app_l; [done|]. by eapply lookup_lt_Some.
Qed.

Lemma arrays_full_reachable (p : Page) : reachable random p → arrays_full p.
Proof.
  induction 1 as [|e p Hp IH].
  - intros v. unfold arrayOf.
    destruct v; (eexists; split; [reflexivity|apply generateFrom_length]).
  - destruct e as [v|v|t]; simpl.
    + unfold clickStart. destruct (isSorting _); [done|].
      destruct (heap p !! _) as [a|] eqn:Ha; [|done].
      destruct (start_sort _ _ _) as [sl|] eqn:Hsl; [|done].
      destruct (start_sort_ok in_range _ _ _ _ Hsl) as (Hlen & _).
      eapply arrays_full_commit; [exact Ha|done|].
      intros w. unfold arrayOf. simpl. rewrite array_setSorting. apply IH.
    + destruct v; simpl; try done; by apply arrays_full_resetArray.
    + unfold timeout. destruct (timers p !! t) as [k|] eqn:Hk; [|done].
      destruct (heap p !! _) as [a|] eqn:Ha; [|done].
      destruct (resume_ok in_range k a) as (Hlen & _).
      by eapply arrays_full_commit.
Qed.

Lemma screen_in_sync_resetArray (v : Variant) (p : Page) :
  (∀ w, array (getState w (sortStates p)) < length (heap p)) →
  screen_in_sync p → screen_in_sync (resetArray random v p).
Proof.
  intros Hlt Hsync w. unfold resetArray. destruct (isSorting _); [apply Hsync|].
  unfold shown, arrayOf. simpl. rewrite filter_app, filter_cons, filter_nil. simpl.
  destruct (decide (w = v)) as [->|Hw].
  - rewrite decide_True, getState_setState, last_snoc by done. simpl.
    eexists. split; [done|]. by rewrite lookup_app_r, Nat.sub_diag.
  - rewrite decide_False, getState_setState_ne, app_nil_r by done.
    destruct (Hsync w) as (f & Hf & Hb). exists f. split; [done|].
    by rewrite lookup_app_l.
Qed.

Lemma screen_in_sync_reachable (p : Page) : reachable random p → screen_in_sync p.
Proof.
  induction 1 as [|e p Hp IH].
  - intros v. destruct v; (eexists; split; reflexivity).
  - destruct (runs_own_arrays_reachable random p Hp) as (Hlt & Hinj & Hown).
    destruct e as [v|v|t]; simpl.
    + unfold clickStart. destruct (isSorting _); [done|].
      destruct (heap p !! _) as [a|] eqn:Ha; [|done].
      destruct (start_sort _ _ _) as [sl|] eqn:Hsl; [|done].
      destruct (start_sort_ok in_range _ _ _ _ Hsl) as (_ & Hrender & _).
      eapply screen_in_sync_commit; simpl; [by rewrite array_setSorting| |exact Ha| |done|].
      * intros v1 v2. rewrite !array_setSorting. apply Hinj.
      * intros k Hk. destruct sl as [[a' fs] o]. simpl in Hk. subst o.
        by eapply start_sort_owner.
      * intros w. destruct (IH w) as (f & Hf & Hb). exists f. split; [done|].
        unfold arrayOf in *. simpl. by rewrite array_setSorting.
    + destruct v; simpl; try done; by apply screen_in_sync_resetArray.
    + unfold timeout. destruct (timers p !! t) as [k|] eqn:Hk; [|done].
      destruct (heap p !! _) as [a|] eqn:Ha; [|done].
      destruct (resume_ok in_range k a) as (_ & Hrender & _).
      eapply screen_in_sync_commit; simpl; [|exact Hinj|exact Ha| |exact Hrender|done].
      * eapply Forall_lookup_1 in Hown; [|exact Hk]. done.
      * intros k' Hk'. destruct (resume k a) as [[a' fs] o] eqn:Hr. simpl in Hk'.
        subst o. by eapply resume_owner.
Qed.

End PageInvariants.

(** ** Every run ends *)

Lemma bubble_rest_terminates (n i : nat) (a : list Z) (sw : bool) :
  ∃ fuel r, bubble_rest fuel n i a sw = Some r.
Proof.
  unfold bubble_rest. destruct (bubble_for (n - 1 - i) i a sw) as [[a1 fs1] sw1].
  destruct sw1; [|by exists 0; eexists].
  destruct (bubble_dowhile_passes n a1) as (p & fs2 & _ & _ & _ & _ & _ & Hfuel).
  exists (S p). rewrite Hfuel, decide_True by lia. by eexists.
Qed.

(** A suspended procedure returns after finitely many timers, whatever the
    array it finds. *)
Lemma resume_terminates (k : Cont) (a : list Z) :
  ∃ fuel r, drive fuel (resume k a) = Some r.
Proof.
  destruct k as [l n i|l n i|l n i key j|l n i]; simpl.
  - destruct (bubble_rest_terminates n (S i) a true) as (fuelL & [out fs] & Hr).
    destruct (bubble_from_drive l n fuelL (S i) a true out fs Hr) as [fuel Hd]. eauto.
  - destruct (selection_from_drive l n (n - 1 - S i) (S i) a eq_refl) as [fuel Hd]. eauto.
  - destruct (insertion_while_from_drive l n i key
                (λ b, insertion_from_drive l n (n - S i) (S i) b eq_refl) j a) as [fuel Hd].
    eauto.
  - destruct (insertion_from_drive l n (n - S i) (S i) a eq_refl) as [fuel Hd]. eauto.
Qed.

Lemma budget_exists (h : list (list Z)) (ts : list Cont) :
  Forall (λ k, is_Some (h !! cont_array k)) ts → ∃ m, budget h ts m.
Proof.
  induction 1 as [|k ts [a Ha] _ [m IH]]; [exists 0; constructor|].
  destruct (resume_terminates k a) as (f & r & Hd).
  exists (S f + m). constructor; [by exists a, r|done].
Qed.

Lemma budget_snoc (h : list (list Z)) (ts : list Cont) (m : nat) (k : Cont) (f : nat) :
  budget h ts m → returns_within h k f → budget h (ts ++ [k]) (m + S f).
Proof.
  induction 1 as [|k0 f0 ts m Hk0 Hts IH]; intros Hk; simpl.
  - replace (S f) with (S f + 0) by lia. constructor; [done|constructor].
  - replace (S (f0 + m + S f)) with (S f0 + (m + S f)) by lia.
    constructor; [done|by apply IH].
Qed.

Lemma budget_heap (h h' : list (list Z)) (ts : list Cont) (m : nat) :
  Forall (λ k, h' !! cont_array k = h !! cont_array k) ts →
  budget h ts m → budget h' ts m.
Proof.
  intros Hsame Hb. induction Hb as [|k f ts m (a & r & Ha & Hd) Hts IH]; [constructor|].
  inversion Hsame as [|?? Hk Hrest]; subst.
  constructor; [|by apply IH]. exists a, r. by rewrite Hk.
Qed.

Lemma filter_delete_other {A} (P : A → Prop) `{∀ x, Decision (P x)}
    (l : list A) (t : nat) (x : A) :
  l !! t = Some x → ¬ P x → filter P (delete t l) = filter P l.
Proof.
  intros Hl Hx. rewrite <- (take_drop_middle l t x Hl) at 2.
  by rewrite delete_take_drop, !filter_app, filter_cons, decide_False.
Qed.

Section RunsEnd.

Variable random : nat → float.

Lemma fire_reachable (n : nat) (p : Page) :
  reachable random p → reachable random (fire n p).
Proof.
  revert p. induction n as [|n IH]; intros p Hp; simpl; [done|].
  apply IH. exact (reach_step random (Timeout 0) p Hp).
Qed.

Lemma fire_budget (m : nat) (p : Page) :
  reachable random p → budget (heap p) (timers p) m →
  ∃ n, timers (fire n p) = [].
Proof.
  revert p. induction (lt_wf m) as [m _ IH]. intros p Hp Hb.
  destruct (timers p) as [|k0 ts] eqn:Hts; [by exists 0|].
  inversion Hb as [|? f0 ? m1 (a & r & Ha & Hd) Hrest]; subst.
  pose proof (flag_counts_runs_reachable random p Hp (owner k0)) as Hone.
  destruct (runs_own_arrays_reachable random p Hp) as (Hlt & Hinj & Hown).
  unfold active in Hone. rewrite Hts in Hone, Hown.
  rewrite filter_cons, decide_True in Hone by done.
  assert (Hothers : Forall (λ k, cont_array k ≠ cont_array k0) ts).
  { apply Forall_forall. intros k Hk Heq.
    inversion Hown as [|?? Hk0 Hts']; subst. rewrite Forall_forall in Hts'.
    rewrite (Hts' k Hk), Hk0 in Heq. apply Hinj in Heq.
    assert (Hnil : filter (λ k', owner k' = owner k0) ts = []).
    { apply length_zero_iff_nil. simpl in Hone. destruct (isSorting _); lia. }
    by apply (filter_nil_not_elem_of _ _ k Hnil). }
  assert (Hl0 : cont_array k0 < length (heap p)) by by eapply lookup_lt_Some.
  assert (Hnext : ∃ m', m' < S f0 + m1 ∧
            budget (heap (timeout 0 p)) (timers (timeout 0 p)) m').
  { unfold timeout. rewrite Hts. simpl. rewrite Ha.
    assert (Hkeep : ∀ a', budget (<[cont_array k0:=a']> (heap p)) ts m1).
    { intros a'. eapply budget_heap; [|exact Hrest].
      eapply Forall_impl; [exact Hothers|]. intros k Hk. simpl.
      by rewrite list_lookup_insert_ne. }
    destruct (resume k0 a) as [[a' fs] [k'|]] eqn:Hr; simpl in *.
    - destruct f0 as [|f]; simpl in Hd; [done|].
      destruct (drive f (resume k' a')) as [[r' fs']|] eqn:Hd'; [|done].
      exists (m1 + S f). split; [lia|]. apply budget_snoc; [done|].
      destruct (resume_owner _ _ _ _ _ Hr) as [_ Hl]. exists a', (r', fs').
      by rewrite Hl, list_lookup_insert_eq.
    - exists m1. split; [lia|done]. }
  destruct Hnext as (m' & Hlt' & Hb').
  destruct (IH m' Hlt' (timeout 0 p) (reach_step random (Timeout 0) p Hp) Hb') as [n Hn].
  by exists (S n).
Qed.

(** X5. Every run ends.  From any reachable state of the page, if no button
    is clicked any more, then after finitely many timers (fired oldest
    first) no timer is pending and no sort type is sorting. *)
Theorem runs_end (p : Page) :
  reachable random p →
  ∃ n, timers (fire n p) = [] ∧
       ∀ v, isSorting (getState v (sortStates (fire n p))) = false.
Proof.
  intros Hp.
  destruct (budget_exists (heap p) (timers p)) as [m Hb].
  { apply Forall_forall. intros k Hk.
    by apply (reachable_lookups random p Hp). }
  destruct (fire_budget m p Hp Hb) as [n Hn]. exists n. split; [done|].
  intros v. pose proof (flag_counts_runs_reachable random _ (fire_reachable n p Hp) v) as Hv.
  unfold active in Hv. rewrite Hn in Hv. by destruct (isSorting _).
Qed.

End RunsEnd.

Lemma runs_end_witness :
  reachable sampleRandom sampleBusy ∧
  ∃ n, timers (fire n sampleBusy) = [] ∧
       ∀ v, isSorting (getState v (sortStates (fire n sampleBusy))) = false.
Proof.
  split; [exact sampleBusy_reachable|].
  exact (runs_end sampleRandom sampleBusy sampleBusy_reachable).
Defined.

(** ** The page, sort type by sort type *)

Lemma sampleRandom_unit (k : nat) :
  (0 <=? sampleRandom k)%float = true ∧ (sampleRandom k <? 1)%float = true.
Proof.
  unfold sampleRandom.
  pose proof (Nat.mod_upper_bound (k * 7) 10 ltac:(lia)) as H.
  destruct (k * 7 mod 10) as [|[|[|[|[|[|[|[|[|[|n]]]]]]]]]];
    try lia; split; reflexivity.
Qed.

(** X6. Whatever has happened on the page, the array of every sort type has
    the configured length, 20, and holds only values between 5 and 95: the
    sorts keep the length and write only values they have read from the
    array.  [Math.random] returns values in [0, 1). *)
Theorem arrays_stay_in_range (random : nat → float) (p : Page) (v : Variant) :
  (∀ k, (0 <=? random k)%float = true ∧ (random k <? 1)%float = true) →
  reachable random p →
  ∃ a, arrayOf v p = Some a ∧ length a = 20 ∧ Forall (λ x, (5 ≤ x ≤ 95)%Z) a.
Proof.
  intros Hr Hp. destruct (arrays_full_reachable random p Hp v) as (a & Ha & Hl).
  exists a. split; [done|]. split; [done|].
  destruct (values_in_range_reachable random p Hr Hp) as [Hheap _]. by eapply Hheap.
Qed.

Lemma arrays_stay_in_range_witness :
  (∀ k, (0 <=? sampleRandom k)%float = true ∧ (sampleRandom k <? 1)%float = true) ∧
  reachable sampleRandom sampleBusy ∧
  ∃ a, arrayOf bubble sampleBusy = Some a ∧ length a = 20 ∧
       Forall (λ x, (5 ≤ x ≤ 95)%Z) a.
Proof.
  split; [exact sampleRandom_unit|]. split; [exact sampleBusy_reachable|].
  exact (arrays_stay_in_range sampleRandom sampleBusy bubble sampleRandom_unit
           sampleBusy_reachable).
Defined.

(** X7. Between any two events the screen is up to date: for every sort
    type there is a last render, and it shows exactly the array the entry
    of that sort type holds now. *)
Theorem screen_shows_array (random : nat → float) (p : Page) (v : Variant) :
  reachable random p →
  ∃ f, shown v p = Some f ∧ target f = v ∧ arrayOf v p = Some (bars f).
Proof.
  intros Hp. destruct (screen_in_sync_reachable random p Hp v) as (f & Hf & Hb).
  exists f. split; [done|]. split; [|done].
  unfold shown in Hf. apply last_Some_elem_of in Hf.
  by apply list_elem_of_filter in Hf as [? _].
Qed.

Lemma screen_shows_array_witness :
  reachable sampleRandom sampleBusy ∧
  ∃ f, shown bubble sampleBusy = Some f ∧ target f = bubble ∧
       arrayOf bubble sampleBusy = Some (bars f).
Proof.
  split; [exact sampleBusy_reachable|].
  exact (screen_shows_array sampleRandom sampleBusy bubble sampleBusy_reachable).
Defined.

(** X8. The sort types do not touch each other.  An event of one sort type
    (a click on its start or reset button, a timer of its procedure) leaves
    every other sort type's entry, array contents and runs as they are and
    makes no render for it. *)
Theorem other_sort_types_untouched (random : nat → float) (e : Event) (p : Page)
    (v w : Variant) :
  reachable random p → event_variant e p = Some w → v ≠ w →
  getState v (sortStates (step random e p)) = getState v (sortStates p) ∧
  arrayOf v (step random e p) = arrayOf v p ∧
  active v (step random e p) = active v p ∧
  filter (λ f, target f = v) (screen (step random e p)) =
    filter (λ f, target f = v) (screen p).
Proof.
  intros Hp He Hvw.
  destruct (runs_own_arrays_reachable random p Hp) as (Hlt & Hinj & Hown).
  destruct e as [w'|w'|t]; simpl in *; simplify_eq.
  - unfold clickStart. destruct (isSorting _); [done|].
    destruct (heap p !! _) as [a|] eqn:Ha; [|done].
    destruct (start_sort _ _ _) as [sl|] eqn:Hsl; [|done].
    destruct (start_sort_ok in_range _ _ _ _ Hsl) as (_ & Hrender & _).
    edestruct (commit_other v w) as (Hst & Harr & Hact & Hscr); [done| | | | |].
    5:{ rewrite Hst, Harr, Hact, Hscr. unfold arrayOf, active. simpl.
        by rewrite getState_setSorting_ne. }
    + simpl. by rewrite array_setSorting.
    + simpl. intros v1 v2. rewrite !array_setSorting. apply Hinj.
    + intros k Hk. destruct sl as [[a' fs] o]. simpl in Hk. subst o.
      by eapply start_sort_owner.
    + destruct Hrender as [(-> & _)|[hl ->]]; by repeat constructor.
  - assert (Hr : getState v (sortStates (resetArray random w p)) = getState v (sortStates p) ∧
                 arrayOf v (resetArray random w p) = arrayOf v p ∧
                 active v (resetArray random w p) = active v p ∧
                 filter (λ f, target f = v) (screen (resetArray random w p)) =
                   filter (λ f, target f = v) (screen p)).
    { unfold resetArray. destruct (isSorting _); [done|].
      unfold arrayOf, active. simpl. rewrite getState_setState_ne by done.
      split; [done|]. split; [by rewrite lookup_app_l|]. split; [done|].
      rewrite filter_app, filter_cons, decide_False, filter_nil, app_nil_r; [done|].
      simpl. congruence. }
    by destruct w.
  - unfold timeout. destruct (timers p !! t) as [k|] eqn:Hk; simplify_eq/=.
    destruct (heap p !! _) as [a|] eqn:Ha; [|done].
    destruct (resume_ok in_range k a) as (_ & Hrender & _).
    edestruct (commit_other v (owner k)) as (Hst & Harr & Hact & Hscr); [done| | | | |].
    5:{ rewrite Hst, Harr, Hact, Hscr. unfold arrayOf, active. simpl.
        split; [done|]. split; [done|]. split; [|done].
        apply (filter_delete_other _ _ _ _ Hk). congruence. }
    + simpl. by eapply Forall_lookup_1 in Hown.
    + done.
    + intros k' Hk'. destruct (resume k a) as [[a' fs] o] eqn:Hr. simpl in Hk'.
      subst o. by eapply resume_owner.
    + destruct Hrender as [(-> & _)|[hl ->]]; by repeat constructor.
Qed.

Lemma other_sort_types_untouched_witness :
  reachable sampleRandom sampleBusy ∧
  event_variant (Timeout 0) sampleBusy = Some bubble ∧ insertion ≠ bubble ∧
  getState insertion (sortStates (step sampleRandom (Timeout 0) sampleBusy))
    = getState insertion (sortStates sampleBusy) ∧
  arrayOf insertion (step sampleRandom (Timeout 0) sampleBusy)
    = arrayOf insertion sampleBusy.
Proof.
  split; [exact sampleBusy_reachable|]. split; [reflexivity|].
  assert (Hne : insertion ≠ bubble) by discriminate. split; [exact Hne|].
  destruct (other_sort_types_untouched sampleRandom (Timeout 0) sampleBusy insertion bubble
              sampleBusy_reachable eq_refl Hne) as (H1 & H2 & _).
  split; [exact H1|exact H2].
Defined.

Lemma completes_sorts (v : Variant) (a : list Z) :
  v = bubble ∨ v = selection ∨ v = insertion →
  ∃ out fs, completes v a out fs ∧ nondecreasing out ∧ out ≡ₚ a.
Proof.
  unfold completes. intros [-> | [-> | ->]]; simpl.
  - destruct (bubbleSort_sorts a) as (p & out & fs & Hfuel & Hs & Hperm).
    exists out, fs. split; [|done]. exists (S p). by rewrite Hfuel, decide_True by lia.
  - destruct (selectionSort_sorts a) as [Hs Hperm].
    destruct (selectionSort a) as [out fs]. exists out, fs. split; [by exists 0|done].
  - destruct (insertionSort_sorts a) as [Hs Hperm].
    destruct (insertionSort a) as [out fs]. exists out, fs. split; [by exists 0|done].
Qed.

(** X9. A click on start, carried through.  On a page where no run is in
    progress, a click on the start button of bubble, selection or insertion
    sort followed by its timers ends with the array object of that sort type
    holding a non-decreasing permutation of what it held, the renders of
    the run added to the screen in order, the flag cleared again, no timer
    pending, and everything else (the entries, the other arrays, the count
    of [Math.random] calls) as before. *)
Theorem start_click_sorts (random : nat → float) (v : Variant) (p : Page) (a : list Z) :
  v = bubble ∨ v = selection ∨ v = insertion →
  timers p = [] →
  isSorting (getState v (sortStates p)) = false →
  arrayOf v p = Some a →
  ∃ n out fs,
    fire n (step random (ClickStart v) p) =
      mkPage (<[array (getState v (sortStates p)):=out]> (heap p)) (sortStates p) []
        (screen p ++ fs) (randomCalls p) ∧
    completes v a out fs ∧ nondecreasing out ∧ out ≡ₚ a.
Proof.
  intros Hv Ht Hs Ha. destruct (completes_sorts v a Hv) as (out & fs & Hc & Hsorted & Hperm).
  destruct (run_alone random v p a out fs Ht Hs Ha Hc) as [n Hn].
  by exists n, out, fs.
Qed.

Lemma start_click_sorts_witness :
  (selection = bubble ∨ selection = selection ∨ selection = insertion) ∧
  timers (pageLoaded sampleRandom) = [] ∧
  isSorting (getState selection (sortStates (pageLoaded sampleRandom))) = false ∧
  arrayOf selection (pageLoaded sampleRandom) = Some (generateRandomArray sampleRandom 20) ∧
  ∃ n out fs,
    fire n (step sampleRandom (ClickStart selection) (pageLoaded sampleRandom)) =
      mkPage (<[6:=out]> (heap (pageLoaded sampleRandom)))
        (sortStates (pageLoaded sampleRandom)) []
        (screen (pageLoaded sampleRandom) ++ fs) 100 ∧
    completes selection (generateRandomArray sampleRandom 20) out fs ∧
    nondecreasing out ∧ out ≡ₚ generateRandomArray sampleRandom 20.
Proof.
  assert (Hv : selection = bubble ∨ selection = selection ∨ selection = insertion)
    by (right; by left).
  split; [exact Hv|]. split; [reflexivity|]. split; [reflexivity|].
  split; [reflexivity|].
  exact (start_click_sorts sampleRandom selection (pageLoaded sampleRandom)
           (generateRandomArray sampleRandom 20) Hv eq_refl eq_refl eq_refl).
Defined.

Lemma setSorting_roundtrip (v : Variant) (s : SortStates) :
  isSorting (getState v s) = false → setSorting v false (setSorting v true s) = s.
Proof.
  unfold setSorting. destruct v, s as [[? [] ?] [? [] ?] [? [] ?] [? [] ?] [? [] ?]];
    simpl; by intros.
Qed.

Lemma completes_sorted_input (v : Variant) (a : list Z) :
  v = bubble ∨ v = selection ∨ v = insertion →
  nondecreasing a → completes v a a [].
Proof.
  intros [-> | [-> | ->]] Ha; unfold completes; simpl.
  - exists 1. unfold bubbleSort. simpl. unfold bubble_pass.
    by rewrite bubble_for_sorted.
  - exists 0. unfold selectionSort. by rewrite selection_for_sorted.
  - exists 0. unfold insertionSort. by rewrite insertion_for_sorted.
Qed.

(** X10. A click on start when the array is already non-decreasing changes
    nothing on the page: no render, no timer, array untouched, and the flag
    is cleared again before any other event can see it set. *)
Theorem start_on_sorted_array (random : nat → float) (v : Variant) (p : Page) (a : list Z) :
  arrayOf v p = Some a → nondecreasing a → step random (ClickStart v) p = p.
Proof.
  intros Ha Hsorted. simpl. unfold clickStart, arrayOf in *.
  destruct (isSorting _) eqn:Hs; [done|]. rewrite Ha.
  destruct (start_sort v _ a) as [sl|] eqn:Hsl; [|done].
  assert (Hv : v = bubble ∨ v = selection ∨ v = insertion).
  { destruct v; simpl in Hsl; auto; done. }
  destruct (proj1 (start_sort_drive v _ a sl a [] Hsl) (completes_sorted_input v a Hv Hsorted))
    as [fuel Hd].
  destruct (start_sort_ok in_range _ _ _ _ Hsl) as (_ & Hrender & _).
  destruct sl as [[a' fs] o]. simpl in Hrender.
  destruct Hrender as [(-> & -> & ->)|[hl ->]].
  - simpl. rewrite app_nil_r, list_insert_id, setSorting_roundtrip by done. by destruct p.
  - destruct fuel as [|fuel], o as [k|]; simpl in Hd; try done.
    destruct (drive fuel (resume k a')) as [[r fs']|]; done.
Qed.

Lemma start_on_sorted_array_witness :
  arrayOf insertion sampleSorted = Some [1; 2; 2]%Z ∧
  nondecreasing [1; 2; 2]%Z ∧
  step sampleRandom (ClickStart insertion) sampleSorted = sampleSorted.
Proof.
  assert (Hs : nondecreasing [1; 2; 2]%Z).
  { apply nondecreasing_StronglySorted. repeat constructor; lia. }
  split; [reflexivity|]. split; [exact Hs|].
  exact (start_on_sorted_array sampleRandom insertion sampleSorted [1; 2; 2]%Z eq_refl Hs).
Defined.

(** ** Drawing *)

Lemma maxHeight_bounds (a : list Z) :
  (1 ≤ maxHeight a)%Z ∧ Forall (λ x, (x ≤ maxHeight a)%Z) a.
Proof.
  induction a as [|x a [IH1 IH2]]; simpl; [by split|]. split; [lia|].
  constructor; [lia|]. eapply Forall_impl; [exact IH2|]. intros; simpl in *; lia.
Qed.

Lemma maxHeight_greatest (a : list Z) (x : Z) :
  (1 ≤ x)%Z → x ∈ a → Forall (λ y, (y ≤ x)%Z) a → maxHeight a = x.
Proof.
  intros Hx Hin Hall. destruct (maxHeight_bounds a) as [H1 Hle].
  rewrite Forall_forall in Hle. specialize (Hle x Hin).
  assert (maxHeight a ≤ x)%Z; [|lia]. clear Hle Hin.
  induction Hall as [|y a Hy _ IH]; simpl in *; lia.
Qed.

(** The quotient and the product are rounded: the height of the bar of 7
    in an array whose greatest value is 95 is the double
    [0x1.d79435e50d793p+2], which prints as 7.368421052631578; the exact
    height is 140/19. *)
Example barHeight_rounds :
  barHeight 7 95 = 0x1.d79435e50d793p+2%float ∧
  Prim2SF (barHeight 7 95) = S754_finite false 8296104576735123 (-50) ∧
  (8296104576735123 * 19 < 140 * 2 ^ 50)%Z.
Proof. repeat split; vm_compute; reflexivity. Qed.

Lemma maxHeight_le (a : list Z) (m : Z) :
  (1 ≤ m)%Z → Forall (λ x, (x ≤ m)%Z) a → (maxHeight a ≤ m)%Z.
Proof. intros Hm Hall. induction Hall as [|y a Hy _ IH]; simpl in *; lia. Qed.

(** The heights of the bars, computed for every pair of values of the
    generator. *)
Lemma barHeight_table :
  forallb (λ m, forallb (λ v, barHeight_ok v m) (seqZ 5 (m - 4))) (seqZ 5 91) = true.
Proof. vm_compute. reflexivity. Qed.

Lemma barHeight_bounds (x m : Z) :
  (5 ≤ x ≤ m)%Z → (m ≤ 95)%Z →
  (0 <? barHeight x m)%float = true ∧ (barHeight x m <=? 100)%float = true ∧
  (x = m → barHeight x m = 100%float).
Proof.
  intros Hx Hm. pose proof barHeight_table as Ht.
  rewrite forallb_forall in Ht. specialize (Ht m).
  rewrite <- list_elem_of_In, elem_of_seqZ, forallb_forall in Ht.
  specialize (Ht ltac:(lia) x). rewrite <- list_elem_of_In, elem_of_seqZ in Ht.
  specialize (Ht ltac:(lia)). unfold barHeight_ok in Ht.
  apply andb_prop in Ht as [Ht Heq]. apply andb_prop in Ht as [H0 H100].
  split; [done|]. split; [done|]. intros ->.
  rewrite Z.eqb_refl in Heq. by apply FloatAxioms.Leibniz.eqb_spec.
Qed.

Lemma barHeight_in_range (a : list Z) (x : Z) :
  Forall in_range a → x ∈ a →
  (0 <? barHeight x (maxHeight a))%float = true ∧
  (barHeight x (maxHeight a) <=? 100)%float = true ∧
  (Forall (λ y, (y ≤ x)%Z) a → barHeight x (maxHeight a) = 100%float).
Proof.
  intros Hrange Hin. destruct (maxHeight_bounds a) as [Hm Hle].
  rewrite Forall_forall in Hle. specialize (Hle x Hin). simpl in Hle.
  assert (Hx : in_range x) by (rewrite Forall_forall in Hrange; by apply Hrange).
  unfold in_range, MIN_VALUE, MAX_VALUE in Hx.
  assert (Hmax : (maxHeight a ≤ 95)%Z).
  { apply maxHeight_le; [lia|]. eapply Forall_impl; [exact Hrange|].
    unfold in_range, MAX_VALUE. simpl. lia. }
  destruct (barHeight_bounds x (maxHeight a)) as (H0 & H100 & Heq); [lia|done|].
  split; [done|]. split; [done|]. intros Hall. apply Heq. symmetry.
  apply maxHeight_greatest; [lia|done|done].
Qed.

Lemma drawBars_lookup (a : list Z) (hl : list nat) (i : nat) (b : Bar) :
  drawBars a hl !! i = Some b →
  ∃ x, a !! i = Some x ∧
       b = mkBar (barHeight x (maxHeight a))
             (100 / of_Z (Z.of_nat (length a)))%float
             (if decide (i ∈ hl) then highlighted else plain).
Proof.
  unfold drawBars. rewrite list_lookup_imap. destruct (a !! i) as [x|]; [|done].
  intros [= <-]. by exists x.
Qed.

(** X11. [createBars] on a document that has the container of the sort
    type replaces its bars by one bar per array element, in order: a bar is
    drawn highlighted exactly when its index is among the highlights, its
    height is the double [(value / maxHeight) * 100], and its width is 5
    percent when the array has 20 elements.  For an array of values of the
    generator (5..95) every bar has a positive height, none is taller than
    100 percent, and a greatest element has a bar of exactly 100 percent.
    No other container is touched, and when the container is missing the
    whole document stays as it is. *)
Theorem createBars_draws (type : Variant) (a : list Z) (hl : list nat) (d : Document) :
  (∀ t, t ≠ type → createBars type a hl d t = d t) ∧
  match d type with
  | None => ∀ t, createBars type a hl d t = d t
  | Some _ =>
      ∃ bs, createBars type a hl d type = Some bs ∧ length bs = length a ∧
        ∀ i b, bs !! i = Some b →
          ∃ x, a !! i = Some x ∧
            (backgroundColor b = highlighted ↔ i ∈ hl) ∧
            height b = barHeight x (maxHeight a) ∧
            (length a = ARRAY_SIZE → width b = 5%float) ∧
            (Forall in_range a →
               (0 <? height b)%float = true ∧ (height b <=? 100)%float = true ∧
               (Forall (λ y, (y ≤ x)%Z) a → height b = 100%float))
  end.
Proof.
  unfold createBars. split.
  - intros t Ht. destruct (d type); [|done]. by rewrite decide_False.
  - destruct (d type) as [old|]; [|done]. exists (drawBars a hl).
    rewrite decide_True by done. split; [done|]. split; [apply length_imap|].
    intros i b Hb. destruct (drawBars_lookup a hl i b Hb) as (x & Hx & ->).
    exists x. split; [done|]. simpl.
    split; [by case_decide|]. split; [done|]. split; [by intros ->|].
    intros Hrange. apply barHeight_in_range; [done|].
    by eapply list_elem_of_lookup_2.
Qed.

Lemma paint_snoc (d : Document) (fs : list Render) (f : Render) :
  paint d (fs ++ [f]) = createBars (target f) (bars f) (highlights f) (paint d fs).
Proof. unfold paint. by rewrite foldl_snoc. Qed.

Lemma paint_last (d : Document) (fs : list Render) (v : Variant) :
  paint d fs v =
  match d v with
  | None => None
  | Some old =>
      Some (match last (filter (λ f, target f = v) fs) with
            | Some f => drawBars (bars f) (highlights f)
            | None => old
            end)
  end.
Proof.
  revert v. induction fs as [|f fs IH] using rev_ind; intros v.
  { simpl. by destruct (d v). }
  rewrite paint_snoc, filter_app, filter_cons, filter_nil. unfold createBars.
  rewrite (IH (target f)). destruct (decide (target f = v)) as [<-|Hne].
  - destruct (d (target f)) as [old|] eqn:Hd.
    + by rewrite decide_True, last_snoc.
    + by rewrite IH, Hd.
  - rewrite app_nil_r.
    destruct (d (target f)); [by rewrite decide_False, IH by done|by rewrite IH].
Qed.

(** X12. After any sequence of [createBars] calls, a container that the
    document has shows the bars of the last call made for its sort type (or
    what it held at first if there was none), whatever was drawn for the
    other sort types in between; a container the document lacks never
    appears. *)
Theorem paint_shows_last (d : Document) (fs : list Render) (v : Variant) :
  paint d fs v =
  match d v with
  | None => None
  | Some old =>
      Some (match last (filter (λ f, target f = v) fs) with
            | Some f => drawBars (bars f) (highlights f)
            | None => old
            end)
  end.
Proof. apply paint_last. Qed.

(** X13. What the user sees.  Whatever has happened on the page, the
    container of a sort type (if the document has it) shows the array the
    entry of that sort type holds now, as 20 bars, each of positive height
    and none taller than 100 percent (heights as the doubles the script
    computes).  [Math.random] returns a double that is at least 0 and below
    1. *)
Theorem display_up_to_date (random : nat → float) (d : Document) (p : Page) (v : Variant) :
  (∀ k, (0 <=? random k)%float = true ∧ (random k <? 1)%float = true) →
  reachable random p →
  is_Some (d v) →
  ∃ a hl,
    arrayOf v p = Some a ∧
    paint d (screen p) v = Some (drawBars a hl) ∧
    length (drawBars a hl) = 20 ∧
    Forall (λ b, (0 <? height b)%float = true ∧ (height b <=? 100)%float = true)
      (drawBars a hl).
Proof.
  intros Hr Hp [old Hd].
  destruct (screen_in_sync_reachable random p Hp v) as (f & Hf & Hb).
  destruct (arrays_full_reachable random p Hp v) as (a & Ha & Hl).
  destruct (values_in_range_reachable random p Hr Hp) as [Hheap _].
  pose proof (Hheap _ _ Ha) as Hrange.
  assert (a = bars f) as -> by congruence.
  exists (bars f), (highlights f). split; [done|]. split.
  - rewrite paint_last, Hd. unfold shown in Hf. by rewrite Hf.
  - split; [unfold drawBars; by rewrite length_imap|].
    apply Forall_lookup. intros i b Hi.
    destruct (drawBars_lookup _ _ _ _ Hi) as (x & Hx & ->). simpl.
    destruct (barHeight_in_range (bars f) x Hrange) as (Hpos & H100 & _);
      [by eapply list_elem_of_lookup_2|].
    by split.
Qed.

Lemma display_up_to_date_witness :
  (∀ k, (0 <=? sampleRandom k)%float = true ∧ (sampleRandom k <? 1)%float = true) ∧
  reachable sampleRandom sampleBusy ∧
  is_Some ((λ _ : Variant, Some (@nil Bar)) bubble) ∧
  ∃ a hl,
    arrayOf bubble sampleBusy = Some a ∧
    paint (λ _, Some []) (screen sampleBusy) bubble = Some (drawBars a hl) ∧
    length (drawBars a hl) = 20 ∧
    Forall (λ b, (0 <? height b)%float = true ∧ (height b <=? 100)%float = true)
      (drawBars a hl).
Proof.
  assert (Hd : is_Some ((λ _ : Variant, Some (@nil Bar)) bubble)) by (by eexists).
  split; [exact sampleRandom_unit|]. split; [exact sampleBusy_reachable|].
  split; [exact Hd|].
  exact (display_up_to_date sampleRandom (λ _, Some []) sampleBusy bubble
           sampleRandom_unit sampleBusy_reachable Hd).
Defined.

(** ** Initialisation *)

(** X14. [initializeVisualizations] resets exactly the sort types that are
    not sorting and skips the others: it adds one render without highlights
    per idle sort type, in the order of [sortStates], allocates one new
    array of the configured size for each of them after the existing array
    objects (which it leaves alone), draws 20 values from [Math.random] for
    each, and changes neither a flag nor a timer nor the entry of a sort type
    that is sorting. *)
Theorem initializeVisualizations_skips_busy (random : nat → float) (p : Page) :
  timers (initializeVisualizations random p) = timers p ∧
  (∀ v, isSorting (getState v (sortStates (initializeVisualizations random p)))
        = isSorting (getState v (sortStates p))) ∧
  (∃ fs, screen (initializeVisualizations random p) = screen p ++ fs ∧
         target <$> fs = idle p ∧ Forall (λ f, highlights f = []) fs) ∧
  (∃ hs, heap (initializeVisualizations random p) = heap p ++ hs ∧
         length hs = length (idle p) ∧ Forall (λ a, length a = ARRAY_SIZE) hs) ∧
  randomCalls (initializeVisualizations random p)
    = randomCalls p + ARRAY_SIZE * length (idle p) ∧
  (∀ v, if isSorting (getState v (sortStates p))
        then getState v (sortStates (initializeVisualizations random p))
             = getState v (sortStates p)
        else length (heap p) ≤ array (getState v (sortStates (initializeVisualizations random p)))
             ∧ currentStep (getState v (sortStates (initializeVisualizations random p))) = 0%Z).
Proof.
  destruct p as [h [[a1 b1 c1] [a2 b2 c2] [a3 b3 c3] [a4 b4 c4] [a5 b5 c5]] ts sc rc].
  unfold initializeVisualizations, idle, resetArray, generateRandomArray.
  destruct b1, b2, b3, b4, b5; cbn -[generateRandomArrayWith ARRAY_SIZE Nat.mul];
    rewrite <- ?app_assoc, ?length_app; cbn -[generateRandomArrayWith ARRAY_SIZE Nat.mul];
    repeat first [rewrite decide_True by done | rewrite decide_False by done];
    cbn -[generateRandomArrayWith ARRAY_SIZE Nat.mul].
  all: split; [reflexivity|].
  all: split; [by intros []|].
  all: split; [eexists; split; [try reflexivity; by rewrite app_nil_r|];
               split; [reflexivity|by repeat constructor]|].
  all: split; [eexists; split; [try reflexivity; by rewrite app_nil_r|];
               split; [reflexivity|repeat constructor; apply generateFrom_length]|].
  all: split; [lia|].
  all: intros []; cbn; first [done | split; [lia|done]].
Qed.

(** ** Timers, renders and array objects *)

Lemma timers_by_owner (ts : list Cont) :
  length ts =
  length (filter (λ k, owner k = bubble) ts) +
  length (filter (λ k, owner k = selection) ts) +
  length (filter (λ k, owner k = insertion) ts).
Proof.
  induction ts as [|k ts IH]; [done|]. rewrite !filter_cons.
  destruct k; simpl; rewrite IH; lia.
Qed.

(** X15. At most three timers are ever pending, one for each of bubble,
    selection and insertion sort at most, and quick and merge are never
    sorting. *)
Theorem at_most_three_timers (random : nat → float) (p : Page) :
  reachable random p →
  length (timers p) ≤ 3 ∧
  Forall (λ k, isSorting (getState (owner k) (sortStates p)) = true) (timers p) ∧
  isSorting (getState quick (sortStates p)) = false ∧
  isSorting (getState merge (sortStates p)) = false.
Proof.
  intros Hp. pose proof (flag_counts_runs_reachable random p Hp) as Hflag.
  split; [|split; [|split]].
  - rewrite timers_by_owner.
    pose proof (Hflag bubble) as Hb. pose proof (Hflag selection) as Hs.
    pose proof (Hflag insertion) as Hi. unfold active in *.
    destruct (isSorting (getState bubble _)), (isSorting (getState selection _)),
      (isSorting (getState insertion _)); lia.
  - apply Forall_forall. intros k Hk. specialize (Hflag (owner k)).
    destruct (isSorting _); [done|]. apply length_zero_iff_nil in Hflag.
    by apply (filter_nil_not_elem_of _ _ k Hflag) in Hk.
  - specialize (Hflag quick). destruct (isSorting _); [|done].
    unfold active in Hflag. assert (filter (λ k, owner k = quick) (timers p) = []) as Hnil.
    { clear Hflag. induction (timers p) as [|k ts IH]; [done|].
      rewrite filter_cons, decide_False; [done|]. by destruct k. }
    by rewrite Hnil in Hflag.
  - specialize (Hflag merge). destruct (isSorting _); [|done].
    unfold active in Hflag. assert (filter (λ k, owner k = merge) (timers p) = []) as Hnil.
    { clear Hflag. induction (timers p) as [|k ts IH]; [done|].
      rewrite filter_cons, decide_False; [done|]. by destruct k. }
    by rewrite Hnil in Hflag.
Qed.

Lemma at_most_three_timers_witness :
  reachable sampleRandom sampleBusy ∧
  length (timers sampleBusy) ≤ 3 ∧
  Forall (λ k, isSorting (getState (owner k) (sortStates sampleBusy)) = true)
    (timers sampleBusy) ∧
  isSorting (getState quick (sortStates sampleBusy)) = false ∧
  isSorting (getState merge (sortStates sampleBusy)) = false.
Proof.
  split; [exact sampleBusy_reachable|].
  exact (at_most_three_timers sampleRandom sampleBusy sampleBusy_reachable).
Defined.

Lemma commit_one_render (w : Variant) (l : loc) (sl : Slice) (q : Page) (a : list Z) :
  heap q !! l = Some a →
  ((sl.1.2 = [] ∧ sl.1.1 = a ∧ sl.2 = Returned) ∨ ∃ hl, sl.1.2 = [mkRender w sl.1.1 hl]) →
  ∃ fs, screen (commit w l sl q) = screen q ++ fs ∧ length fs ≤ 1 ∧
        Forall (λ f, target f = w) fs ∧
        (fs = [] → heap (commit w l sl q) = heap q).
Proof.
  intros Ha Hrender. destruct sl as [[a' fs] o]. simpl in *. exists fs.
  split; [by destruct o|].
  destruct Hrender as [(-> & -> & ->)|[hl ->]]; simpl.
  - split; [lia|]. split; [done|]. intros _. by apply list_insert_id.
  - split; [lia|]. split; [by repeat constructor|]. done.
Qed.

Lemma no_render (P : Render → Prop) (p : Page) :
  ∃ fs, screen p = screen p ++ fs ∧ length fs ≤ 1 ∧ Forall P fs ∧
        (fs = [] → heap p = heap p).
Proof. exists []. rewrite app_nil_r. split; [done|]. split; [simpl; lia|]. by split. Qed.

(** X16. One event, at most one render.  Every event (a click or a timer)
    adds at most one render to the screen and leaves the earlier renders as
    they are; the render is for the sort type of the event; and an event
    that makes no render changes no array. *)
Theorem one_render_per_event (random : nat → float) (e : Event) (p : Page) :
  ∃ fs, screen (step random e p) = screen p ++ fs ∧ length fs ≤ 1 ∧
        Forall (λ f, event_variant e p = Some (target f)) fs ∧
        (fs = [] → heap (step random e p) = heap p).
Proof.
  destruct e as [v|v|t]; simpl.
  - unfold clickStart. destruct (isSorting _); [apply no_render|].
    destruct (heap p !! _) as [a|] eqn:Ha; [|apply no_render].
    destruct (start_sort _ _ _) as [sl|] eqn:Hsl; [|apply no_render].
    destruct (start_sort_ok in_range _ _ _ _ Hsl) as (_ & Hrender & _).
    destruct (commit_one_render v _ sl
                (mkPage (heap p) (setSorting v true (sortStates p)) (timers p)
                   (screen p) (randomCalls p)) a Ha Hrender)
      as (fs & Hscr & Hlen & Htarget & Hheap).
    exists fs. split; [done|]. split; [done|]. split; [|done].
    eapply Forall_impl; [exact Htarget|]. intros f Hf. simpl in *. by rewrite Hf.
  - assert (Hr : ∃ fs, screen (resetArray random v p) = screen p ++ fs ∧ length fs ≤ 1 ∧
              Forall (λ f, Some v = Some (target f)) fs ∧
              (fs = [] → heap (resetArray random v p) = heap p)).
    { unfold resetArray. destruct (isSorting _); [apply no_render|].
      eexists [_]. simpl. split; [done|]. split; [lia|]. by repeat constructor. }
    destruct v; simpl; first [exact Hr | apply no_render].
  - unfold timeout. destruct (timers p !! t) as [k|] eqn:Hk; [|apply no_render].
    destruct (heap p !! _) as [a|] eqn:Ha; [|apply no_render].
    destruct (resume_ok in_range k a) as (_ & Hrender & _).
    destruct (commit_one_render (owner k) _ (resume k a)
                (mkPage (heap p) (sortStates p) (delete t (timers p))
                   (screen p) (randomCalls p)) a Ha Hrender)
      as (fs & Hscr & Hlen & Htarget & Hheap).
    exists fs. split; [done|]. split; [done|]. split; [|done].
    eapply Forall_impl; [exact Htarget|]. intros f Hf. simpl in *. by rewrite Hf.
Qed.

(** X17. A running sort keeps its array.  In every reachable state each
    suspended procedure works on the very array object the entry of its sort
    type holds (no reset has replaced it meanwhile), that object exists, and
    no two sort types share an array object. *)
Theorem running_sort_keeps_its_array (random : nat → float) (p : Page) :
  reachable random p →
  Forall (λ k, cont_array k = array (getState (owner k) (sortStates p)) ∧
               is_Some (heap p !! cont_array k)) (timers p) ∧
  (∀ v w, v ≠ w →
     array (getState v (sortStates p)) ≠ array (getState w (sortStates p))) ∧
  (∀ v, is_Some (arrayOf v p)).
Proof.
  intros Hp. destruct (runs_own_arrays_reachable random p Hp) as (Hlt & Hinj & Hown).
  split; [|split].
  - eapply Forall_impl; [exact Hown|]. intros k Hk. simpl in *. split; [done|].
    rewrite Hk. by apply lookup_lt_is_Some_2.
  - intros v w Hvw Heq. by apply Hvw, Hinj.
  - intros v. by apply lookup_lt_is_Some_2.
Qed.

Lemma running_sort_keeps_its_array_witness :
  reachable sampleRandom sampleBusy ∧
  Forall (λ k, cont_array k = array (getState (owner k) (sortStates sampleBusy)) ∧
               is_Some (heap sampleBusy !! cont_array k)) (timers sampleBusy).
Proof.
  split; [exact sampleBusy_reachable|].
  exact (proj1 (running_sort_keeps_its_array sampleRandom sampleBusy sampleBusy_reachable)).
Defined.

(** ** The sorts agree; the generator reaches its bounds *)

Lemma completes_sorted (v : Variant) (a out : list Z) (fs : list Render) :
  completes v a out fs → nondecreasing out ∧ out ≡ₚ a.
Proof.
  intros [fuel Hrun]. destruct v; simpl in Hrun; [| | |done..].
  - destruct (bubbleSort_sorts a) as (p & out' & fs' & Hfuel & Hs & Hperm).
    rewrite Hfuel in Hrun. case_decide; by simplify_eq.
  - destruct (selectionSort_sorts a) as [Hs Hperm]. injection Hrun as Hrun.
    by rewrite Hrun in Hs, Hperm.
  - destruct (insertionSort_sorts a) as [Hs Hperm]. injection Hrun as Hrun.
    by rewrite Hrun in Hs, Hperm.
Qed.

(** X18. The three sorts agree on the result: completed runs of any two
    sort types on the same array leave the same array (their renders
    differ). *)
Theorem sorts_agree (v w : Variant) (a out out' : list Z) (fs fs' : list Render) :
  completes v a out fs → completes w a out' fs' → out = out'.
Proof.
  intros [Hs Hperm]%completes_sorted [Hs' Hperm']%completes_sorted.
  apply nondecreasing_StronglySorted in Hs, Hs'.
  apply (StronglySorted_unique Z.le); [done..|]. by rewrite Hperm, Hperm'.
Qed.

Lemma sorts_agree_witness :
  completes selection [5; 3; 8; 1]%Z (selectionSort [5; 3; 8; 1]%Z).1
    (selectionSort [5; 3; 8; 1]%Z).2 ∧
  completes insertion [5; 3; 8; 1]%Z (insertionSort [5; 3; 8; 1]%Z).1
    (insertionSort [5; 3; 8; 1]%Z).2 ∧
  (selectionSort [5; 3; 8; 1]%Z).1 = (insertionSort [5; 3; 8; 1]%Z).1.
Proof.
  assert (H1 : completes selection [5; 3; 8; 1]%Z (selectionSort [5; 3; 8; 1]%Z).1
                 (selectionSort [5; 3; 8; 1]%Z).2) by (by exists 0).
  assert (H2 : completes insertion [5; 3; 8; 1]%Z (insertionSort [5; 3; 8; 1]%Z).1
                 (insertionSort [5; 3; 8; 1]%Z).2) by (by exists 0).
  split; [exact H1|]. split; [exact H2|].
  exact (sorts_agree selection insertion _ _ _ _ _ H1 H2).
Defined.

Lemma randomFor_table : forallb randomFor_ok (seqZ 5 91) = true.
Proof. vm_compute. reflexivity. Qed.

(** X19. Both bounds of the generator's range are attained, and so is every
    value between them: for each [x] from 5 to 95 some double that is at
    least 0 and below 1 (a multiple of [2^-10]) makes the generator return
    [x], and the value 0 makes it return 5. *)
Theorem randomInt_attains (x : Z) :
  (MIN_VALUE ≤ x ≤ MAX_VALUE)%Z →
  randomInt MIN_VALUE MAX_VALUE 0 = MIN_VALUE ∧
  ∃ r, (0 <=? r)%float = true ∧ (r <? 1)%float = true ∧
       randomInt MIN_VALUE MAX_VALUE r = x.
Proof.
  unfold MIN_VALUE at 1, MAX_VALUE at 1. intros Hx. split; [reflexivity|].
  exists (randomFor x). pose proof randomFor_table as Ht.
  rewrite forallb_forall in Ht. specialize (Ht x).
  rewrite <- list_elem_of_In, elem_of_seqZ in Ht. specialize (Ht ltac:(lia)).
  unfold randomFor_ok in Ht.
  apply andb_prop in Ht as [Ht Heq]. apply andb_prop in Ht as [H0 H1].
  apply Z.eqb_eq in Heq. done.
Qed.

Lemma randomInt_attains_witness :
  (MIN_VALUE ≤ 95 ≤ MAX_VALUE)%Z ∧
  randomInt MIN_VALUE MAX_VALUE 0 = MIN_VALUE ∧
  ∃ r, (0 <=? r)%float = true ∧ (r <? 1)%float = true ∧
       randomInt MIN_VALUE MAX_VALUE r = 95%Z.
Proof.
  assert (H : (MIN_VALUE ≤ 95 ≤ MAX_VALUE)%Z) by (unfold MIN_VALUE, MAX_VALUE; lia).
  split; [exact H|]. exact (randomInt_attains 95 H).
Defined.
